(** * gdelt_realtime_downloader: a shallow embedding of the poller

    The development follows [gdelt_realtime_downloader.py]:

    - [PyStr]: the [str] methods the program calls ([splitlines], [strip],
      [split], [endswith], [rsplit], slicing), over Unicode code points;
    - [PurePath]: the part of [pathlib] the program uses on a POSIX host
      ([Path(..)], [/], [parent], [with_suffix], [str]);
    - [Fs]: a file system as a finite map from paths to nodes;
    - the helpers [safe_filename], [extract_year], [download_zip],
      [extract_zip], [poll_once];
    - [stream_step], [cycle], [run_cycles]: the body of the [for] loop, one
      iteration of [while True], and the loop itself, over an explicit
      program state, with the answers of the outside world (HTTP responses,
      archive contents, interrupts) given as an environment. *)

From Stdlib Require Import ZArith NArith List String Ascii Lia Bool.
From Stdlib.Strings Require Import Byte.
From stdpp Require Import base gmap sets list.

Local Open Scope N_scope.

(** ** Python [str] over code points *)

Module PyStr.

(** A [str] is a sequence of Unicode code points. *)
Abbreviation str := (list N).

(** String literals of the source, read as code points. *)
Definition lit (s : string) : str :=
  (fun a => N_of_ascii a) <$> list_ascii_of_string s.

(** [str.isspace] on one character (Unicode White_Space together with the
    four information separators, as in CPython). *)
Definition isspace (c : N) : bool :=
  ((9 <=? c) && (c <=? 13)) || ((28 <=? c) && (c <=? 32))
  || (c =? 133) || (c =? 160) || (c =? 5760)
  || ((8192 <=? c) && (c <=? 8202))
  || (c =? 8232) || (c =? 8233) || (c =? 8239) || (c =? 8287) || (c =? 12288).

(** The line boundaries of [str.splitlines]. *)
Definition islinebreak (c : N) : bool :=
  ((10 <=? c) && (c <=? 13)) || ((28 <=? c) && (c <=? 30))
  || (c =? 133) || (c =? 8232) || (c =? 8233).

(** [s.splitlines()]: [cur] is the line being read, most recent character
    first; a carriage return followed by a line feed is one boundary; no
    empty last line is produced for a trailing boundary. *)
Fixpoint splitlines_from (cur : str) (s : str) : list str :=
  match s with
  | [] => match cur with [] => [] | _ => [rev cur] end
  | c :: s' =>
      if islinebreak c then
        rev cur ::
          match s' with
          | c' :: s'' =>
              if (c =? 13) && (c' =? 10) then splitlines_from [] s''
              else splitlines_from [] s'
          | [] => splitlines_from [] s'
          end
      else splitlines_from (c :: cur) s'
  end.

Definition splitlines (s : str) : list str := splitlines_from [] s.

(** [s.lstrip()], [s.rstrip()], [s.strip()] with no argument. *)
Fixpoint lstrip (s : str) : str :=
  match s with
  | [] => []
  | c :: s' => if isspace c then lstrip s' else s
  end.

Definition rstrip (s : str) : str := rev (lstrip (rev s)).

Definition strip (s : str) : str := rstrip (lstrip s).

(** [s.split()] with no argument: maximal runs of non-space characters. *)
Fixpoint split_from (cur : str) (s : str) : list str :=
  match s with
  | [] => match cur with [] => [] | _ => [rev cur] end
  | c :: s' =>
      if isspace c then
        match cur with
        | [] => split_from [] s'
        | _ => rev cur :: split_from [] s'
        end
      else split_from (c :: cur) s'
  end.

Definition split (s : str) : list str := split_from [] s.

(** [s.endswith(suf)]. *)
Definition endswith (s suf : str) : bool :=
  (length suf <=? length s)%nat
  && bool_decide (drop (length s - length suf)%nat s = suf).

(** [s.rsplit(sep, 1)] for a one-character separator: cut at the last
    occurrence of [sep], or the whole string when there is none. *)
Fixpoint rcut (sep : N) (s : str) : option (str * str) :=
  match s with
  | [] => None
  | c :: s' =>
      match rcut sep s' with
      | Some (a, b) => Some (c :: a, b)
      | None => if c =? sep then Some ([], s') else None
      end
  end.

Definition rsplit1 (sep : N) (s : str) : list str :=
  match rcut sep s with
  | Some (a, b) => [a; b]
  | None => [s]
  end.

(** [s.rfind(c)] for one character: the index of its last occurrence. *)
Fixpoint rfind (c : N) (s : str) : option nat :=
  match s with
  | [] => None
  | x :: s' =>
      match rfind c s' with
      | Some i => Some (S i)
      | None => if x =? c then Some 0%nat else None
      end
  end.

(** [sep.join(parts)] for a one-character separator. *)
Fixpoint join (sep : N) (parts : list str) : str :=
  match parts with
  | [] => []
  | [p] => p
  | p :: ps => p ++ sep :: join sep ps
  end.

(** [s.split(sep)] for a one-character separator (empty pieces are kept). *)
Fixpoint split_on_from (sep : N) (cur : str) (s : str) : list str :=
  match s with
  | [] => [rev cur]
  | c :: s' =>
      if c =? sep then rev cur :: split_on_from sep [] s'
      else split_on_from sep (c :: cur) s'
  end.

Definition split_on (sep : N) (s : str) : list str := split_on_from sep [] s.

End PyStr.

Export PyStr.

(** ** Exceptions *)

(** The exception classes the handlers of [run] tell apart. [OSError],
    [ValueError], [OverflowError] and [IndexError] are raised by the library
    calls modelled below, [OtherError] is any further subclass of
    [Exception], and [SystemExit] is what [sys.exit] raises. *)
Inductive exn : Type :=
  | RequestException
  | BadZipFile
  | KeyboardInterrupt
  | OSError
  | ValueError
  | OverflowError
  | IndexError
  | OtherError
  | SystemExit (status : Z).

#[global] Instance exn_eq_dec : EqDecision exn.
Proof. solve_decision. Defined.

(** [isinstance(e, Exception)]: everything but [KeyboardInterrupt] and
    [SystemExit]. *)
Definition is_Exception (e : exn) : bool :=
  match e with KeyboardInterrupt | SystemExit _ => false | _ => true end.

(** [isinstance(e, (requests.RequestException, zipfile.BadZipFile))]. *)
Definition is_retryable (e : exn) : bool :=
  match e with RequestException | BadZipFile => true | _ => false end.

(** [xs[-1]]. *)
Definition py_last {A} (xs : list A) : exn + A :=
  match last xs with
  | Some x => inr x
  | None => inl IndexError
  end.

(** ** Helpers of the source *)

Definition SLASH : N := 47.
Definition DOT : N := 46.

(** The suffix [poll_once] looks for. *)
Definition GKG_SUFFIX : str := lit ".gkg.csv.zip".

(** [safe_filename]: [url.rsplit("/", 1)[-1]]. *)
Definition safe_filename (url : str) : exn + str :=
  py_last (rsplit1 SLASH url).

(** [extract_year]: [ts_filename[:4]]. *)
Definition extract_year (ts_filename : str) : str := take 4 ts_filename.

(** The list comprehension of [poll_once]:
    [[ln.strip() for ln in text.splitlines() if ln.strip()]]. *)
Definition pointer_lines (text : str) : list str :=
  omap (fun ln => match strip ln with [] => None | l => Some l end)
       (splitlines text).

(** The [for] loop of [poll_once] over the lines. *)
Fixpoint first_candidate (lines : list str) : exn + option str :=
  match lines with
  | [] => inr None
  | line :: rest =>
      if endswith line GKG_SUFFIX then
        match py_last (split line) with
        | inl e => inl e
        | inr tok => inr (Some tok)
        end
      else first_candidate rest
  end.

(** [poll_once] once the response body is at hand. *)
Definition poll_text (text : str) : exn + option str :=
  first_candidate (pointer_lines text).


(** ** [pathlib] on a POSIX host *)

Module PurePath.

(** A path is its [parts] tuple: the anchor ([/] or [//]) first when there
    is one, then the components, none of which is empty, is [.] or holds a
    separator. *)
Abbreviation path := (list str).

(** [part.lstrip("/")]. *)
Fixpoint lstrip_sep (s : str) : str :=
  match s with
  | [] => []
  | c :: s' => if c =? SLASH then lstrip_sep s' else s
  end.

(** [splitroot] of the POSIX flavour: the root and the rest. Exactly two
    leading separators are kept as the root [//]. *)
Definition splitroot (part : str) : str * str :=
  match part with
  | c :: _ =>
      if c =? SLASH then
        let stripped := lstrip_sep part in
        if (length part - length stripped =? 2)%nat
        then ([SLASH; SLASH], stripped)
        else ([SLASH], stripped)
      else ([], part)
  | [] => ([], part)
  end.

(** A component kept by [parse_parts]: [x and x != "."]. *)
Definition keeps (x : str) : bool :=
  match x with
  | [] => false
  | [c] => negb (c =? DOT)
  | _ => true
  end.

(** [parse_parts] on one argument: the root and the components. *)
Definition parse_part (part : str) : str * list str :=
  let '(root, rel) := splitroot part in
  (root, List.filter keeps (split_on SLASH rel)).

(** [Path(s)]. *)
Definition Path (s : str) : path :=
  let '(root, comps) := parse_part s in
  match root with
  | [] => comps
  | _ => root :: comps
  end.

(** [p / s]: an anchored right operand replaces the left one. *)
Definition joinpath (p : path) (s : str) : path :=
  let '(root, comps) := parse_part s in
  match root with
  | [] => p ++ comps
  | _ => root :: comps
  end.

Definition is_anchor (x : str) : bool :=
  match x with
  | c :: _ => c =? SLASH
  | [] => false
  end.

Definition has_root (p : path) : bool :=
  match p with
  | x :: _ => is_anchor x
  | [] => false
  end.

(** [p.name]: the last component, empty for the anchor alone and for [.]. *)
Definition path_name (p : path) : str :=
  if (length p =? (if has_root p then 1 else 0))%nat then []
  else default [] (last p).

(** [p.suffix]: from the last dot of the name, unless that dot is the first
    or the last character. *)
Definition path_suffix (p : path) : str :=
  let name := path_name p in
  match rfind DOT name with
  | Some i =>
      if (0 <? i)%nat && (i <? length name - 1)%nat then drop i name else []
  | None => []
  end.

(** [p.with_suffix(suffix)]. *)
Definition with_suffix (p : path) (suffix : str) : exn + path :=
  if bool_decide (SLASH ∈ suffix) then inl ValueError
  else if (negb (bool_decide (suffix = []))
           && negb (bool_decide (head suffix = Some DOT)))
          || bool_decide (suffix = [DOT])
  then inl ValueError
  else
    let name := path_name p in
    match name with
    | [] => inl ValueError
    | _ =>
        let old_suffix := path_suffix p in
        let name' :=
          match old_suffix with
          | [] => name ++ suffix
          | _ => take (length name - length old_suffix) name ++ suffix
          end in
        inr (removelast p ++ [name'])
    end.

(** [p.parent]. *)
Definition parent (p : path) : path :=
  if (length p =? 1)%nat && has_root p then p else removelast p.

(** [str(p)]. *)
Definition path_str (p : path) : str :=
  match p with
  | [] => [DOT]
  | x :: rest => if is_anchor x then x ++ join SLASH rest else join SLASH p
  end.

End PurePath.

Export PurePath.

Notation "p </> s" := (joinpath p s) (at level 40, left associativity).

(** ** The file system *)

Abbreviation bytes := (list byte).

Inductive node : Type :=
  | Dir
  | File (content : bytes).

(** The paths that exist, each with what is there. Paths are compared as
    written (no links, no [..]); a relative path is relative to the working
    directory, which [[]] stands for. *)
Abbreviation FS := (gmap path node).

(** Whether [p] is on the disk: the answer of [p.exists()] when [os.stat]
    raises nothing but "not there" (see [exists_error] below). *)
Definition fs_exists (fs : FS) (p : path) : bool :=
  match fs !! p with
  | Some _ => true
  | None => false
  end.

(** [d.mkdir(parents=True, exist_ok=True)]: every missing prefix of [d]
    becomes a directory; a regular file in the way raises. *)
Fixpoint mkdir_from (pre : path) (rest : list str) (fs : FS) : exn + FS :=
  match rest with
  | [] => inr fs
  | x :: rest' =>
      let d := pre ++ [x] in
      match fs !! d with
      | Some (File _) => inl OSError
      | Some Dir => mkdir_from d rest' fs
      | None => mkdir_from d rest' (<[d := Dir]> fs)
      end
  end.

Definition mkdir_p (d : path) (fs : FS) : exn + FS := mkdir_from [] d fs.

(** The directory a new entry goes into must be there. *)
Definition dir_ready (fs : FS) (d : path) : bool :=
  match d with
  | [] => true
  | _ => match fs !! d with Some Dir => true | _ => false end
  end.

(** The operations the program performs on the file system. An operation
    fails when a regular file or a directory is in its way. Failures for
    reasons the map does not hold (a name too long for the file system, a
    permission, no space left) are not part of this model of the disk: a
    statement below that an operation succeeds is read as "succeeds as far
    as the paths on the disk decide". *)
Inductive fs_op : Type :=
  | OpMkdir (d : path)
  | OpOpenW (p : path)
  | OpWrite (p : path) (data : bytes)
  | OpClose (p : path)
  | OpRename (src dst : path)
  | OpPut (p : path) (data : bytes).

Definition apply_op (op : fs_op) (fs : FS) : exn + FS :=
  match op with
  | OpMkdir d => mkdir_p d fs
  | OpOpenW p =>
      (* open(p, "wb"): created empty, or truncated *)
      if dir_ready fs (parent p) then
        match fs !! p with
        | Some Dir => inl OSError
        | _ => inr (<[p := File []]> fs)
        end
      else inl OSError
  | OpWrite p data =>
      match fs !! p with
      | Some (File old) => inr (<[p := File (old ++ data)]> fs)
      | _ => inl OSError
      end
  | OpClose _ => inr fs
  | OpRename src dst =>
      (* os.rename: an existing regular file at dst is replaced *)
      match fs !! src with
      | None => inl OSError
      | Some n =>
          match fs !! dst with
          | Some Dir => inl OSError
          | _ => inr (<[dst := n]> (delete src fs))
          end
      end
  | OpPut p data =>
      (* one member written by extractall, with its directories *)
      match mkdir_p (parent p) fs with
      | inl e => inl e
      | inr fs' =>
          match fs' !! p with
          | Some Dir => inl OSError
          | _ => inr (<[p := File data]> fs')
          end
      end
  end.

(** ** Configuration, state and what the process does *)

Local Open Scope Z_scope.

(** The [argparse.Namespace] of [get_args]. *)
Record Args : Type := {
  output : str;
  interval : Z;
  skip_extract : bool;
  raw_subdir_eng : str;
  raw_subdir_trans : str;
  csv_subdir_eng : str;
  csv_subdir_trans : str;
  retries : Z;
  verbose : bool;
  ignore_malformed : bool
}.

Definition DEFAULT_INTERVAL : Z := 120.
Definition ENG_URL : str :=
  lit "http://data.gdeltproject.org/gdeltv2/lastupdate.txt".
Definition TRANS_URL : str :=
  lit "http://data.gdeltproject.org/gdeltv2/lastupdate-translation.txt".

(** The defaults of [get_args]. *)
Definition default_args : Args := {|
  output := lit "data";
  interval := DEFAULT_INTERVAL;
  skip_extract := false;
  raw_subdir_eng := lit "rawdata_en";
  raw_subdir_trans := lit "rawdata_tr";
  csv_subdir_eng := lit "csv_en";
  csv_subdir_trans := lit "csv_tr";
  retries := 3;
  verbose := false;
  ignore_malformed := false
|}.

(** The two streams of the [for] loop of [run]. *)
Inductive kind : Type := ENG | TRANS.

#[global] Instance kind_eq_dec : EqDecision kind.
Proof. solve_decision. Defined.

Definition pointer_url (k : kind) : str :=
  match k with ENG => ENG_URL | TRANS => TRANS_URL end.

Definition raw_subdir (a : Args) (k : kind) : str :=
  match k with ENG => raw_subdir_eng a | TRANS => raw_subdir_trans a end.

Definition csv_subdir (a : Args) (k : kind) : str :=
  match k with ENG => csv_subdir_eng a | TRANS => csv_subdir_trans a end.

(** The variables of [run] and the disk. *)
Record world : Type := {
  w_fs : FS;
  seen_eng : gset str;
  seen_trans : gset str;
  backoff : Z
}.

Definition seen_of (k : kind) (w : world) : gset str :=
  match k with ENG => seen_eng w | TRANS => seen_trans w end.

Definition with_fs (fs : FS) (w : world) : world :=
  {| w_fs := fs; seen_eng := seen_eng w; seen_trans := seen_trans w;
     backoff := backoff w |}.

Definition with_backoff (b : Z) (w : world) : world :=
  {| w_fs := w_fs w; seen_eng := seen_eng w; seen_trans := seen_trans w;
     backoff := b |}.

(** [seen.add(name)] on the set of stream [k]. *)
Definition add_seen (k : kind) (name : str) (w : world) : world :=
  match k with
  | ENG => {| w_fs := w_fs w; seen_eng := {[name]} ∪ seen_eng w;
              seen_trans := seen_trans w; backoff := backoff w |}
  | TRANS => {| w_fs := w_fs w; seen_eng := seen_eng w;
                seen_trans := {[name]} ∪ seen_trans w; backoff := backoff w |}
  end.

Inductive level : Type := DEBUG | INFO | WARNING | ERROR.

(** The log calls of [run], by format string. *)
Inductive log_msg : Type :=
  | LogPolling (url : str)
  | LogUnexpected (k : kind)
  | LogOnDisk (k : kind) (name : str)
  | LogDownloading (k : kind) (name : str)
  | LogDownloaded (k : kind)
  | LogDownloadFailed (k : kind) (name : str) (e : exn)
  | LogExtracted (k : kind) (out_dir : path)
  | LogExtractFail (k : kind) (e : exn)
  | LogBackingOff (e : exn) (secs : Z)
  | LogInterrupted
  | LogUnhandled (e : exn).

(** What an observer of the process sees, in order. [EvGet url true] is the
    streamed request of [download_zip], [EvGet url false] the request of
    [poll_once]. *)
Inductive event : Type :=
  | EvLog (lv : level) (m : log_msg)
  | EvGet (url : str) (streamed : bool)
  | EvFs (op : fs_op)
  | EvSleep (secs : Z).

(** ** Programs: state, trace, exceptions *)

(** A statement runs on a [world]; it leaves the events it produced, the new
    world, and either the exception it raised or its value. *)
Definition M (A : Type) : Type := world → list event * world * (exn + A).

#[global] Instance M_ret : MRet M := λ A a w, ([], w, inr a).

#[global] Instance M_bind : MBind M := λ A B k m w,
  match m w with
  | (t, w', inl e) => (t, w', inl e)
  | (t, w', inr a) =>
      match k a w' with
      | (t', w'', r) => (t ++ t', w'', r)
      end
  end.

Definition raise {A} (e : exn) : M A := λ w, ([], w, inl e).

Definition lift {A} (r : exn + A) : M A :=
  match r with
  | inl e => raise e
  | inr a => mret a
  end.

Definition emit (ev : event) : M unit := λ w, ([ev], w, inr tt).

Definition log (lv : level) (m : log_msg) : M unit := emit (EvLog lv m).

Definition get_world : M world := λ w, ([], w, inr w).

Definition modify (f : world → world) : M unit := λ w, ([], f w, inr tt).

(** [try: m  except <catches> as e: h e]. *)
Definition try_except {A} (m : M A) (catches : exn → bool) (h : exn → M A)
  : M A := λ w,
  match m w with
  | (t, w', inl e) =>
      if catches e then
        match h e w' with
        | (t', w'', r) => (t ++ t', w'', r)
        end
      else (t, w', inl e)
  | r => r
  end.

(** The exit of a [with] block: [f] runs whether [m] raised or not. *)
Definition finally {A} (m : M A) (f : M unit) : M A := λ w,
  match m w with
  | (t, w', r) =>
      match f w' with
      | (t', w'', inl e) => (t ++ t', w'', inl e)
      | (t', w'', inr _) => (t ++ t', w'', r)
      end
  end.

(** One file-system operation: recorded when it took effect. *)
Definition do_op (op : fs_op) : M unit := λ w,
  match apply_op op (w_fs w) with
  | inl e => ([], w, inl e)
  | inr fs' => ([EvFs op], with_fs fs' w, inr tt)
  end.

(** ** The outside world *)

(** A streamed response: the chunks [iter_content(chunk_size)] yields, and
    the exception that ends the iteration early, if any. *)
Record response : Type := {
  iter_content : N → list bytes * option exn
}.

(** [session.get(url, stream=True)] followed by [raise_for_status()]. *)
Inductive get_result : Type :=
  | GetRaises (e : exn)
  | GetResponse (r : response).

(** What one stream meets in one cycle: the pointer request (the exception
    of [session.get] or [raise_for_status], or [resp.text]); the exception
    that [zip_path.exists()] raises, if any (the [OSError] of [os.stat]
    unless it says that the path is not there: a name longer than the file
    system takes, a permission; or an interrupt); the archive request; and
    the archive as [zipfile] reads it (the members [extractall] writes,
    relative to the output directory, and the exception that stops it, if
    any). *)
Record stream_env : Type := {
  poll_result : exn + str;
  exists_error : option exn;
  download_result : get_result;
  archive_members : list (path * bytes);
  archive_error : option exn
}.

(** What one iteration of [while True] meets: the two streams, whether an
    interrupt arrives during [time.sleep], and what others did to the disk
    since the previous iteration. *)
Record cycle_env : Type := {
  eng_env : stream_env;
  trans_env : stream_env;
  sleep_interrupted : bool;
  handler_sleep_interrupted : bool;
  external : FS → FS
}.

Definition env_of (k : kind) (env : cycle_env) : stream_env :=
  match k with ENG => eng_env env | TRANS => trans_env env end.

(** ** The functions of the source *)

(** [1 << 20]. *)
Definition CHUNK_SIZE : N := N.shiftl 1 20.

(** The [for chunk in ...: if chunk: f.write(chunk)] loop. *)
Fixpoint write_chunks (tmp : path) (chunks : list bytes) : M unit :=
  match chunks with
  | [] => mret tt
  | chunk :: rest =>
      match chunk with
      | [] => mret tt
      | _ => do_op (OpWrite tmp chunk)
      end;;
      write_chunks tmp rest
  end.

Definition download_zip (net : get_result) (url : str) (dest : path)
  : M path :=
  do_op (OpMkdir (parent dest));;
  tmp ← lift (with_suffix dest (lit ".part"));
  emit (EvGet url true);;
  match net with
  | GetRaises e => raise e
  | GetResponse r =>
      let '(chunks, err) := iter_content r CHUNK_SIZE in
      do_op (OpOpenW tmp);;
      finally
        (write_chunks tmp chunks;;
         match err with
         | Some e => raise e
         | None => mret tt
         end)
        (do_op (OpClose tmp));;
      do_op (OpRename tmp dest);;
      mret dest
  end.

Fixpoint put_members (out_dir : path) (ms : list (path * bytes)) : M unit :=
  match ms with
  | [] => mret tt
  | (rel, data) :: rest =>
      do_op (OpPut (out_dir ++ rel) data);;
      put_members out_dir rest
  end.

Definition extract_zip (env : stream_env) (zip_path out_dir : path)
  : M unit :=
  do_op (OpMkdir out_dir);;
  w ← get_world;
  match w_fs w !! zip_path with
  | Some (File _) =>
      put_members out_dir (archive_members env);;
      match archive_error env with
      | Some e => raise e
      | None => mret tt
      end
  | _ => raise OSError
  end.

Definition poll_once (net : exn + str) (url : str) : M (option str) :=
  emit (EvGet url false);;
  text ← lift net;
  lift (poll_text text).

(** Truth value of an [Optional[str]]. *)
Definition truthy (o : option str) : bool :=
  match o with
  | Some (_ :: _) => true
  | _ => false
  end.

Definition zip_path_of (a : Args) (k : kind) (name : str) : path :=
  Path (output a) </> extract_year name </> raw_subdir a k </> name.

Definition out_dir_of (a : Args) (k : kind) (name : str) : path :=
  Path (output a) </> extract_year name </> csv_subdir a k.

(** [p.exists()]: [os.stat], whose error is raised again unless it says
    that the path is not there. *)
Definition path_exists (err : option exn) (p : path) : M bool :=
  match err with
  | Some e => raise e
  | None => w ← get_world; mret (fs_exists (w_fs w) p)
  end.

(** Lines 132 to 141 of [run]: the archive is on disk already, or it is
    downloaded. The value is false exactly on the [continue] of the download
    handler. *)
Definition obtain_zip (k : kind) (env : stream_env) (zip_link name : str)
    (zip_path : path) : M bool :=
  on_disk ← path_exists (exists_error env) zip_path;
  if (on_disk : bool) then
    log INFO (LogOnDisk k name);;
    mret true
  else
    log INFO (LogDownloading k name);;
    try_except
      (download_zip (download_result env) zip_link zip_path;;
       log INFO (LogDownloaded k);;
       mret true)
      is_Exception
      (λ e, log ERROR (LogDownloadFailed k name e);; mret false).

(** Lines 144 to 150 of [run]: extraction, unless it is switched off. *)
Definition extract_step (a : Args) (k : kind) (env : stream_env)
    (name : str) (zip_path : path) : M unit :=
  if skip_extract a then mret tt
  else
    try_except
      (let out_dir := out_dir_of a k name in
       extract_zip env zip_path out_dir;;
       log INFO (LogExtracted k out_dir))
      is_Exception
      (λ e, log ERROR (LogExtractFail k e)).

(** The body of the [for] loop of [run] for stream [k]. Each [continue] is
    the end of a branch. *)
Definition stream_step (a : Args) (k : kind) (env : stream_env) : M unit :=
  let url := pointer_url k in
  (if verbose a then log DEBUG (LogPolling url) else mret tt);;
  zip_link ← poll_once (poll_result env) url;
  if negb (truthy zip_link) then
    if ignore_malformed a then mret tt
    else log WARNING (LogUnexpected k)
  else
    let zip_link := default [] zip_link in
    name ← lift (safe_filename zip_link);
    w ← get_world;
    if bool_decide (name ∈ seen_of k w) then mret tt
    else
      let zip_path := zip_path_of a k name in
      have_zip ← obtain_zip k env zip_link name zip_path;
      if (have_zip : bool) then
        extract_step a k env name zip_path;;
        modify (add_seen k name)
      else mret tt.

(** The largest number of seconds [time.sleep] takes: the argument is
    converted to a 64-bit count of nanoseconds. *)
Definition SLEEP_MAX : Z := 9223372036.

(** [time.sleep(secs)] for an [int]: [OverflowError] when the conversion
    overflows, then [ValueError] for a negative length. *)
Definition sleep (secs : Z) (interrupted : bool) : M unit :=
  if (secs <? - SLEEP_MAX) || (SLEEP_MAX <? secs) then raise OverflowError
  else if secs <? 0 then raise ValueError
  else
    emit (EvSleep secs);;
    if interrupted then raise KeyboardInterrupt else mret tt.

(** The [try] block of the loop. *)
Definition cycle_body (a : Args) (env : cycle_env) : M unit :=
  stream_step a ENG (eng_env env);;
  stream_step a TRANS (trans_env env);;
  sleep (interval a) (sleep_interrupted env);;
  modify (with_backoff (interval a)).

(** The three [except] clauses, in order. *)
Definition cycle_handler (a : Args) (env : cycle_env) (e : exn) : M unit :=
  if is_retryable e then
    w ← get_world;
    log WARNING (LogBackingOff e (backoff w));;
    sleep (backoff w) (handler_sleep_interrupted env);;
    modify (with_backoff (Z.min (backoff w * 2) 1800))
  else if bool_decide (e = KeyboardInterrupt) then
    log INFO LogInterrupted;;
    raise (SystemExit 0)
  else
    log ERROR (LogUnhandled e);;
    (if negb (ignore_malformed a) then raise (SystemExit 1) else mret tt);;
    w ← get_world;
    sleep (backoff w) (handler_sleep_interrupted env).

(** One iteration of [while True]. An exception that leaves it leaves
    [run], and ends the process. *)
Definition cycle (a : Args) (env : cycle_env) : M unit :=
  try_except (cycle_body a env)
    (λ e, is_retryable e || bool_decide (e = KeyboardInterrupt)
          || is_Exception e)
    (cycle_handler a env).

(** The loop, for as many iterations as there are environments. *)
Fixpoint run_cycles (a : Args) (envs : list cycle_env) : M unit :=
  match envs with
  | [] => mret tt
  | env :: rest =>
      modify (λ w, with_fs (external env (w_fs w)) w);;
      cycle a env;;
      run_cycles a rest
  end.

(** The state [run] starts in. *)
Definition init_world (a : Args) (fs : FS) : world :=
  {| w_fs := fs; seen_eng := ∅; seen_trans := ∅; backoff := interval a |}.

Definition run (a : Args) (fs : FS) (envs : list cycle_env)
  : list event * world * (exn + unit) :=
  run_cycles a envs (init_world a fs).

(** The exit status of the process when [e] leaves [run]. *)
Definition exit_status (e : exn) : Z :=
  match e with
  | SystemExit c => c
  | _ => 1
  end.
(** ** Facts about the [str] methods *)

Section str_facts.

Implicit Types (s t cur : str) (c : N).

Definition nospace (t : str) : Prop := Forall (λ c, isspace c = false) t.

Lemma islinebreak_isspace c : islinebreak c = true → isspace c = true.
Proof.
  unfold islinebreak, isspace.
  rewrite !orb_true_iff, !andb_true_iff, !N.leb_le, !N.eqb_eq. lia.
Qed.

Lemma endswith_suffix s suf : endswith s suf = true ↔ suf `suffix_of` s.
Proof.
  unfold endswith. rewrite andb_true_iff, Nat.leb_le, bool_decide_eq_true.
  split.
  - intros [_ Hd]. exists (take (length s - length suf) s).
    rewrite <- Hd at 2. symmetry. apply take_drop.
  - intros [k ->]. rewrite length_app. split; [lia|].
    replace (length k + length suf - length suf)%nat with (length k) by lia.
    by rewrite drop_app_length.
Qed.

Lemma endswith_not_suffix s suf : endswith s suf = false ↔ ¬ suf `suffix_of` s.
Proof.
  rewrite <- endswith_suffix. destruct (endswith s suf); naive_solver.
Qed.

(** [tok] is the last whitespace-separated token of a line that does not
    end in whitespace: a non-empty run without whitespace at the end of the
    line, with nothing or a whitespace character before it. *)
Definition is_last_token (tok line : str) : Prop :=
  tok ≠ [] ∧ nospace tok ∧
  ∃ pre, line = pre ++ tok ∧
         (pre = [] ∨ ∃ pre' c, pre = pre' ++ [c] ∧ isspace c = true).

Lemma split_from_last s : ∀ cur,
  nospace cur →
  match last (split_from cur s) with
  | Some tok =>
      tok ≠ [] ∧ nospace tok ∧
      ∃ pre post, rev cur ++ s = pre ++ tok ++ post ∧
        Forall (λ c, isspace c = true) post ∧
        (pre = [] ∨ ∃ pre' c, pre = pre' ++ [c] ∧ isspace c = true)
  | None => cur = [] ∧ Forall (λ c, isspace c = true) s
  end.
Proof.
  induction s as [|c s IH]; intros cur Hcur; simpl.
  - destruct cur as [|x cur]; simpl; [done|].
    split; [by destruct (rev cur)|]. split.
    { apply Forall_app. split; [by apply Forall_rev; inversion Hcur|].
      inversion Hcur; by constructor. }
    exists [], []. rewrite !app_nil_r. auto.
  - destruct (isspace c) eqn:Hc.
    + assert (Hrec :
        match last (split_from [] s) with
        | Some tok => tok ≠ [] ∧ nospace tok ∧
            ∃ pre post, rev cur ++ c :: s = pre ++ tok ++ post ∧
              Forall (λ c, isspace c = true) post ∧
              (pre = [] ∨ ∃ pre' c, pre = pre' ++ [c] ∧ isspace c = true)
        | None => Forall (λ c, isspace c = true) s
        end).
      { specialize (IH [] (Forall_nil_2 _)).
        destruct (last (split_from [] s)) as [tok|]; [|by destruct IH].
        destruct IH as (Hne & Hns & pre & post & Heq & Hpost & Hpre).
        split; [done|]. split; [done|]. simpl in Heq.
        exists (rev cur ++ c :: pre), post. split.
        { rewrite Heq. by rewrite <- app_assoc. }
        split; [done|]. right.
        destruct Hpre as [->|(pre' & c' & -> & Hc')].
        - exists (rev cur), c. done.
        - exists (rev cur ++ c :: pre'), c'. split; [|done].
          by rewrite <- app_assoc. }
      destruct cur as [|x cur].
      * destruct (last (split_from [] s)) as [tok|]; [done|].
        split; [done|]. by constructor.
      * rewrite last_cons.
        destruct (last (split_from [] s)) as [tok|]; [done|].
        split; [simpl; by destruct (rev cur)|]. split.
        { apply Forall_rev. done. }
        exists [], (c :: s). split; [done|]. split; [by constructor|]. by left.
    + assert (Hcur' : nospace (c :: cur)) by by constructor.
      specialize (IH (c :: cur) Hcur').
      destruct (last (split_from (c :: cur) s)) as [tok|].
      * simpl in IH. by rewrite <- app_assoc in IH.
      * by destruct IH.
Qed.


(** A line that ends in a character that is not whitespace has a last
    token, and [parts[-1]] finds it. *)
Lemma split_last_token line0 c :
  isspace c = false →
  ∃ tok, py_last (split (line0 ++ [c])) = inr tok
         ∧ is_last_token tok (line0 ++ [c]).
Proof.
  intros Hc. unfold py_last, split.
  pose proof (split_from_last (line0 ++ [c]) [] (Forall_nil_2 _)) as H.
  destruct (last (split_from [] (line0 ++ [c]))) as [tok|].
  - destruct H as (Hne & Hns & pre & post & Heq & Hpost & Hpre).
    exists tok. split; [done|]. split; [done|]. split; [done|].
    exists pre. split; [|done]. simpl in Heq.
    destruct post as [|x post _] using rev_ind.
    + by rewrite app_nil_r in Heq.
    + rewrite !app_assoc in Heq. apply app_inj_2 in Heq as [_ Heq]; [|done].
      apply Forall_app in Hpost as [_ Hx]. inversion Hx; simplify_eq. congruence.
  - destruct H as [_ H]. apply Forall_app in H as [_ H].
    inversion H; congruence.
Qed.

(** The last token of a line carries every whitespace-free suffix of the
    line. *)
Lemma last_token_suffix tok line suf :
  is_last_token tok line → nospace suf → suf `suffix_of` line →
  suf `suffix_of` tok.
Proof.
  intros (Hne & Hns & pre & -> & Hpre) Hsuf [k Hk].
  apply app_eq_inv in Hk as [(x & -> & ->)|(x & -> & ->)].
  - destruct x as [|y x _] using rev_ind; [by exists []|].
    exfalso. destruct Hpre as [Hpre|(pre' & c & Hpre & Hc)].
    + apply app_eq_nil in Hpre as [_ Hpre]. by destruct x.
    + rewrite app_assoc in Hpre. apply app_inj_2 in Hpre as [_ Hpre]; [|done].
      simplify_eq. apply Forall_app in Hsuf as [Hsuf _].
      apply Forall_app in Hsuf as [_ Hsuf]. inversion Hsuf. congruence.
  - by exists x.
Qed.

Lemma rcut_Some sep s a b :
  rcut sep s = Some (a, b) → s = a ++ sep :: b ∧ sep ∉ b.
Proof.
  revert a b. induction s as [|c s IH]; intros a b; simpl; [done|].
  destruct (rcut sep s) as [[a' b']|] eqn:Hr.
  - intros [= <- <-]. destruct (IH a' b' eq_refl) as [-> ?]. done.
  - destruct (c =? sep)%N eqn:Hc; [|done]. intros [= <- <-].
    apply N.eqb_eq in Hc as ->. split; [done|].
    clear IH. induction s as [|x s IH]; [apply not_elem_of_nil|].
    simpl in Hr. destruct (rcut sep s) as [[??]|]; [done|].
    destruct (x =? sep)%N eqn:Hx; [done|]. apply N.eqb_neq in Hx.
    apply not_elem_of_cons. split; [done|]. by apply IH.
Qed.

Lemma rcut_None sep s : rcut sep s = None → sep ∉ s.
Proof.
  induction s as [|x s IH]; simpl; [intros; apply not_elem_of_nil|].
  destruct (rcut sep s) as [[??]|]; [done|].
  destruct (x =? sep)%N eqn:Hx; [done|]. apply N.eqb_neq in Hx.
  intros _. apply not_elem_of_cons. split; [done|]. by apply IH.
Qed.

(** [safe_filename] never raises; the name is the end of the URL after its
    last slash. *)
Lemma safe_filename_spec url :
  ∃ name, safe_filename url = inr name ∧ (name `suffix_of` url) ∧ (SLASH ∉ name)
          ∧ (url = name ∨ ∃ dir, url = dir ++ SLASH :: name).
Proof.
  unfold safe_filename, rsplit1, py_last.
  destruct (rcut SLASH url) as [[a b]|] eqn:Hr.
  - apply rcut_Some in Hr as [-> Hb]. exists b. simpl.
    split; [done|]. split; [exists (a ++ [SLASH]); by rewrite <- app_assoc|].
    split; [done|]. right. by exists a.
  - apply rcut_None in Hr. exists url. simpl. split; [done|].
    split; [done|]. split; [done|]. by left.
Qed.

(** A suffix without a slash survives [safe_filename]. *)
Lemma safe_filename_suffix url name suf :
  safe_filename url = inr name → SLASH ∉ suf → suf `suffix_of` url →
  suf `suffix_of` name.
Proof.
  intros Hn Hsuf [k Hk].
  destruct (safe_filename_spec url) as (name' & Hn' & _ & _ & Hcase).
  rewrite Hn in Hn'. injection Hn' as <-.
  destruct Hcase as [Hc|[dir Hc]]; [exists k; congruence|].
  rewrite Hc in Hk.
  apply app_eq_inv in Hk as [(x & _ & ->)|(x & -> & Hx)].
  - exfalso. apply Hsuf. apply elem_of_app. right. left.
  - destruct x as [|y x]; simpl in Hx; simplify_eq.
    + exfalso. apply Hsuf. left.
    + by exists x.
Qed.


Lemma is_last_token_unique t1 t2 line :
  is_last_token t1 line → is_last_token t2 line → t1 = t2.
Proof.
  assert (Hgen : ∀ p1 p2 a b x,
    p1 = p2 ++ x → b = x ++ a → nospace b →
    (p1 = [] ∨ ∃ pre' c, p1 = pre' ++ [c] ∧ isspace c = true) → a = b).
  { intros p1 p2 a b x -> -> Hb Hp.
    destruct x as [|y x _] using rev_ind; [done|]. exfalso.
    apply Forall_app in Hb as [Hb _]. apply Forall_app in Hb as [_ Hb].
    inversion Hb; subst.
    destruct Hp as [Hp|(pre' & c & Hp & Hc)].
    - apply app_eq_nil in Hp as [_ Hp]. by destruct x.
    - rewrite app_assoc in Hp. apply app_inj_2 in Hp as [_ Hp]; [|done].
      congruence. }
  intros (_ & Hn1 & p1 & -> & Hp1) (_ & Hn2 & p2 & Heq & Hp2).
  apply app_eq_inv in Heq as [(x & Hx1 & Hx2)|(x & Hx1 & Hx2)].
  - by apply (Hgen p1 p2 t1 t2 x).
  - symmetry. by apply (Hgen p2 p1 t2 t1 x).
Qed.

Lemma GKG_SUFFIX_nospace : nospace GKG_SUFFIX.
Proof. unfold nospace. by repeat constructor. Qed.

Lemma GKG_SUFFIX_noslash : SLASH ∉ GKG_SUFFIX.
Proof. apply (bool_decide_eq_false_1 (SLASH ∈ GKG_SUFFIX)). by vm_compute. Qed.

(** The loop of [poll_once]: no exception; the last token of the first line
    that ends with the suffix, if there is such a line. *)
Lemma first_candidate_spec lines :
  ∃ r, first_candidate lines = inr r ∧
    match r with
    | None => Forall (λ l, ¬ GKG_SUFFIX `suffix_of` l) lines
    | Some tok =>
        ∃ pre line post, lines = pre ++ line :: post ∧
          Forall (λ l, ¬ GKG_SUFFIX `suffix_of` l) pre ∧
          (GKG_SUFFIX `suffix_of` line) ∧ is_last_token tok line
    end.
Proof.
  induction lines as [|line rest IH]; simpl.
  - by exists None.
  - destruct (endswith line GKG_SUFFIX) eqn:He.
    + apply endswith_suffix in He. pose proof He as [k Hk].
      change GKG_SUFFIX with (lit ".gkg.csv.zi" ++ [112%N]) in Hk.
      rewrite app_assoc in Hk.
      destruct (split_last_token (k ++ lit ".gkg.csv.zi") 112%N eq_refl)
        as (tok & Htok & Hlast).
      rewrite <- Hk in Htok, Hlast. rewrite Htok.
      exists (Some tok). split; [done|]. by exists [], line, rest.
    + apply endswith_not_suffix in He.
      destruct IH as (r & -> & Hr). exists r. split; [done|].
      destruct r as [tok|].
      * destruct Hr as (pre & l & post & -> & Hpre & Hl & Htok).
        exists (line :: pre), l, post. split; [done|]. split; [|done].
        by constructor.
      * by constructor.
Qed.

(** The token [poll_once] returns ends with the suffix and is not empty. *)
Lemma poll_text_link text link :
  poll_text text = inr (Some link) →
  (GKG_SUFFIX `suffix_of` link) ∧ truthy (Some link) = true.
Proof.
  unfold poll_text. intros H.
  destruct (first_candidate_spec (pointer_lines text)) as (r & Hr & Hspec).
  rewrite H in Hr. injection Hr as <-.
  destruct Hspec as (pre & line & post & _ & _ & Hl & Htok). split.
  - eapply last_token_suffix; eauto using GKG_SUFFIX_nospace.
  - destruct Htok as (Hne & _). by destruct link.
Qed.

Lemma splitlines_from_nobreak s : ∀ cur,
  Forall (λ c, islinebreak c = false) s →
  splitlines_from cur s = match rev cur ++ s with [] => [] | l => [l] end.
Proof.
  induction s as [|c s IH]; intros cur Hs; simpl.
  - rewrite app_nil_r. destruct cur as [|x cur]; [done|]. simpl.
    by destruct (rev cur).
  - inversion Hs as [|?? Hc Hs']; subst. rewrite Hc, IH by done.
    simpl. by rewrite <- app_assoc.
Qed.

Lemma strip_id s c0 s0 c1 s1 :
  s = c0 :: s0 → s = s1 ++ [c1] → isspace c0 = false → isspace c1 = false →
  strip s = s.
Proof.
  intros H0 H1 Hc0 Hc1. unfold strip, rstrip.
  assert (lstrip s = s) as -> by (rewrite H0; simpl; by rewrite Hc0).
  rewrite H1, rev_unit. simpl. rewrite Hc1. simpl.
  by rewrite rev_involutive.
Qed.

Lemma pointer_lines_single line :
  Forall (λ c, islinebreak c = false) line → strip line = line → line ≠ [] →
  pointer_lines line = [line].
Proof.
  intros Hb Hs Hne. unfold pointer_lines, splitlines.
  rewrite splitlines_from_nobreak by done. simpl.
  destruct line as [|c l] eqn:E; [done|]. rewrite <- E in *.
  change (omap ?f [line]) with
    (match f line with Some y => [y] | None => [] end).
  simpl. rewrite Hs. by rewrite E.
Qed.

(** A pointer of one line [<size> <hash> <url>]. *)
Lemma poll_text_three_fields size hash url :
  size ≠ [] → nospace size → hash ≠ [] → nospace hash → nospace url →
  GKG_SUFFIX `suffix_of` url →
  poll_text (size ++ [32%N] ++ hash ++ [32%N] ++ url) = inr (Some url).
Proof.
  intros Hs0 Hs Hh0 Hh Hu Hsuf.
  set (line := size ++ [32%N] ++ hash ++ [32%N] ++ url).
  assert (Hu0 : ∃ u0, url = u0 ++ [112%N]).
  { destruct Hsuf as [k ->]. exists (k ++ lit ".gkg.csv.zi").
    by rewrite <- app_assoc. }
  destruct Hu0 as [u0 Hu0].
  assert (Hbreak : Forall (λ c, islinebreak c = false) line).
  { assert (Hnb : ∀ t, nospace t → Forall (λ c, islinebreak c = false) t).
    { intros t Ht. eapply Forall_impl; [exact Ht|]. simpl. intros c Hc.
      destruct (islinebreak c) eqn:Hb; [|done].
      apply islinebreak_isspace in Hb. congruence. }
    unfold line. rewrite !Forall_app. repeat split; auto; repeat constructor. }
  assert (Hlines : pointer_lines line = [line]).
  { apply pointer_lines_single; [done| |by unfold line; destruct size].
    destruct size as [|c0 s0] eqn:E; [done|].
    eapply (strip_id _ c0 _ 112%N (size ++ [32%N] ++ hash ++ [32%N] ++ u0)).
    - unfold line. by rewrite E.
    - unfold line. rewrite Hu0, E. by rewrite <- ?app_assoc; simpl; rewrite <- ?app_assoc.
    - by inversion Hs.
    - done. }
  unfold poll_text. rewrite Hlines.
  destruct (first_candidate_spec [line]) as (r & Hr & Hspec). rewrite Hr.
  assert (Hline : GKG_SUFFIX `suffix_of` line).
  { destruct Hsuf as [k ->]. exists (size ++ [32%N] ++ hash ++ [32%N] ++ k).
    unfold line. by rewrite <- !app_assoc. }
  destruct r as [tok|].
  - destruct Hspec as (pre & l & post & Heq & Hpre & Hl & Htok).
    destruct pre as [|p pre].
    + injection Heq as <- _. f_equal. f_equal.
      apply (is_last_token_unique tok url line Htok).
      split; [by rewrite Hu0; destruct u0|]. split; [done|].
      exists (size ++ [32%N] ++ hash ++ [32%N]). split.
      * unfold line. by rewrite <- !app_assoc.
      * right. exists (size ++ [32%N] ++ hash), 32%N.
        split; [by rewrite <- !app_assoc|done].
    + injection Heq as <- Heq. inversion Hpre; subst. done.
  - inversion Hspec; subst. done.
Qed.

End str_facts.

(** ** Facts about paths *)

Section path_facts.

Implicit Types (p q : path) (x name : str).

(** A plain component: not empty, no separator, not [.]. *)
Definition plain (x : str) : Prop := x ≠ [] ∧ (SLASH ∉ x) ∧ x ≠ [DOT].

Lemma split_on_from_none sep s : ∀ cur,
  sep ∉ s → split_on_from sep cur s = [rev cur ++ s].
Proof.
  induction s as [|c s IH]; intros cur Hs; simpl.
  - by rewrite app_nil_r.
  - apply not_elem_of_cons in Hs as [Hc Hs].
    assert ((c =? sep)%N = false) as -> by (apply N.eqb_neq; congruence).
    rewrite IH by done. simpl. by rewrite <- app_assoc.
Qed.

Lemma parse_part_plain x : plain x → parse_part x = ([], [x]).
Proof.
  intros (Hne & Hs & Hd). unfold parse_part, splitroot.
  destruct x as [|c x]; [done|].
  assert ((c =? SLASH)%N = false) as ->.
  { apply N.eqb_neq. intros ->. apply Hs. left. }
  unfold split_on. rewrite split_on_from_none by done. simpl.
  destruct x as [|c' x]; [|done].
  assert ((c =? DOT)%N = false) as -> by (apply N.eqb_neq; congruence).
  done.
Qed.

Lemma joinpath_plain p x : plain x → p </> x = p ++ [x].
Proof. intros Hx. unfold joinpath. by rewrite parse_part_plain. Qed.


Lemma path_name_snoc q name : name ≠ [] → SLASH ∉ name →
  path_name (q ++ [name]) = name.
Proof.
  intros Hne Hs. unfold path_name. rewrite length_app, last_snoc. simpl.
  destruct q as [|x q]; simpl.
  - destruct name as [|c name]; [done|]. simpl.
    assert ((c =? SLASH)%N = false) as ->; [|done].
    apply N.eqb_neq. intros ->. apply Hs. left.
  - destruct (is_anchor x); simpl;
      destruct (length q + 1)%nat eqn:E; try done; lia.
Qed.

Lemma parent_snoc q name : name ≠ [] → SLASH ∉ name →
  parent (q ++ [name]) = q.
Proof.
  intros Hne Hs. unfold parent. rewrite length_app. cbn [length].
  destruct q as [|x q].
  - destruct name as [|c name]; [done|]. simpl.
    assert ((c =? SLASH)%N = false) as ->; [|done].
    apply N.eqb_neq. intros ->. apply Hs. left.
  - assert ((length (x :: q) + 1 =? 1)%nat = false) as ->
      by (apply Nat.eqb_neq; simpl; lia).
    cbn [andb]. apply removelast_last.
Qed.

Lemma rfind_last c a b : c ∉ b → rfind c (a ++ c :: b) = Some (length a).
Proof.
  intros Hb.
  assert (Hn : rfind c b = None).
  { induction b as [|x b IH]; [done|]. simpl.
    apply not_elem_of_cons in Hb as [Hx Hb]. rewrite IH by done.
    by assert ((x =? c)%N = false) as -> by (apply N.eqb_neq; congruence). }
  induction a as [|x a IH]; simpl.
  - rewrite Hn. by rewrite N.eqb_refl.
  - by rewrite IH.
Qed.

(** The temporary path of [download_zip] for an archive name. *)
Lemma with_suffix_zip q stem :
  SLASH ∉ stem → stem ≠ [] →
  with_suffix (q ++ [stem ++ lit ".zip"]) (lit ".part")
  = inr (q ++ [stem ++ lit ".part"]).
Proof.
  intros Hs Hne. unfold with_suffix.
  rewrite bool_decide_eq_false_2 by compute_done.
  replace (_ || _) with false by compute_done.
  assert (Hname : path_name (q ++ [stem ++ lit ".zip"]) = stem ++ lit ".zip").
  { apply path_name_snoc; [by destruct stem|].
    rewrite not_elem_of_app. split; [done|]. compute_done. }
  unfold path_suffix. rewrite Hname.
  change (lit ".zip") with (DOT :: lit "zip").
  rewrite rfind_last by compute_done.
  assert (Hlen : length (stem ++ DOT :: lit "zip") = (length stem + 4)%nat)
    by by rewrite length_app.
  assert (0 < length stem)%nat by (destruct stem; [done|simpl; lia]).
  rewrite Hlen.
  assert ((0 <? length stem)%nat = true) as -> by (apply Nat.ltb_lt; lia).
  assert ((length stem <? length stem + 4 - 1)%nat = true) as ->
    by (apply Nat.ltb_lt; lia).
  cbn [andb]. rewrite drop_app_length.
  destruct (stem ++ DOT :: lit "zip") eqn:E; [by destruct stem|].
  rewrite <- E. change (length (DOT :: lit "zip")) with 4%nat.
  replace (length stem + 4 - 4)%nat with (length stem) by lia.
  rewrite take_app_length. by rewrite removelast_last.
Qed.

End path_facts.

(** An archive name, as [run] gets it from a resolved link: it ends with
    the suffix and holds no separator. *)
Definition archive_name (name : str) : Prop :=
  (GKG_SUFFIX `suffix_of` name) ∧ (SLASH ∉ name).

Section archive_names.

Implicit Types (name stem : str) (a : Args) (k : kind).

Lemma archive_name_stem name :
  archive_name name →
  ∃ stem, name = stem ++ lit ".zip" ∧ stem ≠ [] ∧ (SLASH ∉ stem)
          ∧ (12 ≤ length name)%nat.
Proof.
  intros [[pre ->] Hs]. exists (pre ++ lit ".gkg.csv").
  split; [by rewrite <- app_assoc|]. split; [by destruct pre|]. split.
  - apply not_elem_of_app in Hs as [Hs _].
    apply not_elem_of_app. split; [done|]. compute_done.
  - rewrite length_app. change (length GKG_SUFFIX) with 12%nat. lia.
Qed.

Lemma archive_name_plain name : archive_name name → plain name.
Proof.
  intros Hn. destruct (archive_name_stem name Hn) as (stem & -> & Hne & _ & Hl).
  destruct Hn as [_ Hs]. split; [by destruct stem|]. split; [done|].
  intros E. rewrite E in Hl. simpl in Hl. lia.
Qed.


(** The archive path ends in the archive name, under the directory made of
    the output root, the year and the raw subdirectory. *)
Definition raw_dir_of a k name : path :=
  Path (output a) </> extract_year name </> raw_subdir a k.

Lemma zip_path_of_snoc a k name :
  archive_name name → zip_path_of a k name = raw_dir_of a k name ++ [name].
Proof.
  intros Hn. unfold zip_path_of, raw_dir_of.
  by rewrite (joinpath_plain _ name) by by apply archive_name_plain.
Qed.

End archive_names.

(** ** Facts about the file system *)

Section fs_facts.

Implicit Types (fs : FS) (p d pre : path).

Lemma mkdir_from_lookup rest : ∀ pre fs fs',
  mkdir_from pre rest fs = inr fs' →
  ∀ p, fs' !! p = fs !! p ∨
       (fs !! p = None ∧ fs' !! p = Some Dir ∧
        ∃ i, (0 < i ≤ length rest)%nat ∧ p = pre ++ take i rest).
Proof.
  induction rest as [|x rest IH]; intros pre fs fs'; simpl.
  - intros [= <-] p. by left.
  - intros H p.
    assert (Hshift : ∀ i, (pre ++ [x]) ++ take i rest = pre ++ take (S i) (x :: rest)).
    { intros i. by rewrite <- app_assoc. }
    destruct (fs !! (pre ++ [x])) as [[|c]|] eqn:Hd; [|done|].
    + destruct (IH _ _ _ H p) as [Hp|(Hn & Hs & i & Hi & ->)]; [by left|].
      right. split; [done|]. split; [done|]. exists (S i).
      split; [lia|]. apply Hshift.
    + destruct (IH _ _ _ H p) as [Hp|(Hn & Hs & i & Hi & ->)].
      * destruct (decide (p = pre ++ [x])) as [->|Hne].
        -- right. rewrite lookup_insert_eq in Hp. split; [done|].
           split; [done|]. exists 1%nat. split; [lia|]. simpl.
           by rewrite take_0.
        -- left. by rewrite lookup_insert_ne in Hp.
      * right. destruct (decide ((pre ++ [x]) ++ take i rest = pre ++ [x]))
          as [E|Hne].
        { rewrite E in Hn. by rewrite lookup_insert_eq in Hn. }
        rewrite lookup_insert_ne in Hn by done.
        split; [done|]. split; [done|]. exists (S i). split; [lia|].
        apply Hshift.
Qed.

Lemma mkdir_from_dirs rest : ∀ pre fs fs',
  mkdir_from pre rest fs = inr fs' →
  ∀ i, (0 < i ≤ length rest)%nat → fs' !! (pre ++ take i rest) = Some Dir.
Proof.
  induction rest as [|x rest IH]; intros pre fs fs'; simpl.
  - intros _ i Hi. lia.
  - intros H i Hi.
    assert (Hx : fs' !! (pre ++ [x]) = Some Dir).
    { destruct (fs !! (pre ++ [x])) as [[|c]|] eqn:Hd; [|done|].
      - destruct (mkdir_from_lookup _ _ _ _ H (pre ++ [x]))
          as [Hp|(Hn & _)]; congruence.
      - destruct (mkdir_from_lookup _ _ _ _ H (pre ++ [x]))
          as [Hp|(Hn & _)].
        + by rewrite lookup_insert_eq in Hp.
        + by rewrite lookup_insert_eq in Hn. }
    destruct i as [|i]; [lia|]. simpl.
    destruct i as [|i]; [by rewrite take_0|].
    replace (pre ++ x :: take (S i) rest) with ((pre ++ [x]) ++ take (S i) rest)
      by by rewrite <- app_assoc.
    destruct (fs !! (pre ++ [x])) as [[|c]|] eqn:Hd; [|done|];
      eapply IH; eauto; simpl in Hi; lia.
Qed.

Lemma mkdir_from_id rest : ∀ pre fs,
  (∀ i, (0 < i ≤ length rest)%nat → fs !! (pre ++ take i rest) = Some Dir) →
  mkdir_from pre rest fs = inr fs.
Proof.
  induction rest as [|x rest IH]; intros pre fs H; simpl; [done|].
  pose proof (H 1%nat) as Hx. simpl in Hx. rewrite take_0 in Hx.
  rewrite Hx by lia. apply IH. intros i Hi.
  rewrite <- app_assoc. apply (H (S i)). simpl. lia.
Qed.

(** [mkdir(parents=True, exist_ok=True)] is idempotent. *)
Lemma mkdir_p_idem d fs fs' : mkdir_p d fs = inr fs' → mkdir_p d fs' = inr fs'.
Proof.
  intros H. apply mkdir_from_id. by apply (mkdir_from_dirs _ _ _ _ H).
Qed.

Lemma mkdir_p_ready d fs fs' : mkdir_p d fs = inr fs' → dir_ready fs' d = true.
Proof.
  intros H. unfold dir_ready. destruct d as [|x d]; [done|].
  pose proof (mkdir_from_dirs _ _ _ _ H (length (x :: d))) as Hd.
  rewrite firstn_all in Hd. simpl in Hd. rewrite Hd; [done|lia].
Qed.

(** What [mkdir] leaves alone: every path that is not a prefix of [d], and
    every path that was there. *)
Lemma mkdir_p_other d fs fs' p :
  mkdir_p d fs = inr fs' → ¬ p `prefix_of` d → fs' !! p = fs !! p.
Proof.
  intros H Hp. destruct (mkdir_from_lookup _ _ _ _ H p)
    as [?|(_ & _ & i & _ & ->)]; [done|].
  exfalso. apply Hp. simpl. exists (drop i d). by rewrite take_drop.
Qed.

Lemma mkdir_p_Some d fs fs' p n :
  mkdir_p d fs = inr fs' → fs !! p = Some n → fs' !! p = Some n.
Proof.
  intros H Hp. destruct (mkdir_from_lookup _ _ _ _ H p) as [?|(? & _)];
    congruence.
Qed.

End fs_facts.

(** ** Running the helpers *)

Section running.

Implicit Types (w : world) (fs : FS) (t : list event).

Lemma with_fs_id w : with_fs (w_fs w) w = w.
Proof. by destruct w. Qed.

Lemma with_fs_with_fs fs fs' w : with_fs fs (with_fs fs' w) = with_fs fs w.
Proof. done. Qed.

Lemma bind_run {A B} (m : M A) (k : A → M B) w :
  (m ≫= k) w =
  match m w with
  | (t, w', inl e) => (t, w', inl e)
  | (t, w', inr a) =>
      match k a w' with
      | (t', w'', r) => (t ++ t', w'', r)
      end
  end.
Proof. done. Qed.

(** The events and the chunks written by the loop of [download_zip]. *)
Definition written (chunks : list bytes) : list bytes :=
  filter (λ c, c ≠ []) chunks.

Definition write_events (tmp : path) (chunks : list bytes) : list event :=
  (λ c, EvFs (OpWrite tmp c)) <$> written chunks.

Lemma concat_written chunks : concat (written chunks) = concat chunks.
Proof.
  induction chunks as [|c chunks IH]; [done|]. unfold written in *.
  rewrite filter_cons. destruct (decide (c ≠ [])) as [Hc|Hc]; simpl.
  - by rewrite IH.
  - by assert (c = []) as -> by (destruct c; [done|by exfalso; apply Hc]).
Qed.

Lemma write_chunks_run tmp chunks : ∀ w old,
  w_fs w !! tmp = Some (File old) →
  write_chunks tmp chunks w
  = (write_events tmp chunks,
     with_fs (<[tmp := File (old ++ concat chunks)]> (w_fs w)) w, inr tt).
Proof.
  induction chunks as [|c chunks IH]; intros w old Hw; simpl.
  - rewrite app_nil_r, insert_id by done. by rewrite with_fs_id.
  - rewrite bind_run. destruct c as [|b c].
    + unfold mret, M_ret. rewrite (IH w old Hw). done.
    + unfold do_op. simpl. rewrite Hw.
      rewrite (IH _ (old ++ b :: c)) by (simpl; by rewrite lookup_insert_eq).
      simpl. rewrite insert_insert_eq. unfold write_events, written.
      rewrite filter_cons, decide_True by done.
      by rewrite <- app_assoc.
Qed.


(** [download_zip] on an archive path [q ++ [stem ++ ".zip"]], case by
    case: the directories cannot be made; the request fails; the temporary
    path is a directory; the body stops early; the destination is a
    directory; the download completes. *)
Lemma download_zip_run net url q stem w :
  SLASH ∉ stem → stem ≠ [] →
  let dest := q ++ [stem ++ lit ".zip"] in
  let tmp := q ++ [stem ++ lit ".part"] in
  download_zip net url dest w =
  match mkdir_p q (w_fs w) with
  | inl e => ([], w, inl e)
  | inr fs1 =>
      let started := [EvFs (OpMkdir q); EvGet url true] in
      match net with
      | GetRaises e => (started, with_fs fs1 w, inl e)
      | GetResponse r =>
          let chunks := (iter_content r CHUNK_SIZE).1 in
          let err := (iter_content r CHUNK_SIZE).2 in
          match fs1 !! tmp with
          | Some Dir => (started, with_fs fs1 w, inl OSError)
          | _ =>
              let body := concat chunks in
              let fs3 := <[tmp := File body]> fs1 in
              let streamed :=
                started ++ EvFs (OpOpenW tmp) :: write_events tmp chunks
                        ++ [EvFs (OpClose tmp)] in
              match err with
              | Some e => (streamed, with_fs fs3 w, inl e)
              | None =>
                  match fs1 !! dest with
                  | Some Dir => (streamed, with_fs fs3 w, inl OSError)
                  | _ =>
                      (streamed ++ [EvFs (OpRename tmp dest)],
                       with_fs (<[dest := File body]> (delete tmp fs3)) w,
                       inr dest)
                  end
              end
          end
      end
  end.
Proof.
  intros Hs Hne dest tmp.
  assert (Hpart : stem ++ lit ".part" ≠ []) by by destruct stem.
  assert (Hzip : stem ++ lit ".zip" ≠ []) by by destruct stem.
  assert (Hstem : SLASH ∉ stem ++ lit ".part").
  { apply not_elem_of_app. split; [done|]. compute_done. }
  assert (Hstem' : SLASH ∉ stem ++ lit ".zip").
  { apply not_elem_of_app. split; [done|]. compute_done. }
  assert (Hneq : tmp ≠ dest).
  { unfold tmp, dest. intros E. apply app_inv_head in E.
    injection E as E. apply app_inv_head in E. done. }
  assert (Hpd : parent dest = q) by by apply parent_snoc.
  assert (Hpt : parent tmp = q) by by apply parent_snoc.
  assert (Hws : with_suffix dest (lit ".part") = inr tmp)
    by by apply with_suffix_zip.
  clearbody dest tmp.
  unfold download_zip. rewrite bind_run. unfold do_op at 1.
  rewrite Hpd. simpl.
  destruct (mkdir_p q (w_fs w)) as [e|fs1] eqn:Hmk; [done|].
  rewrite bind_run, Hws.
  unfold lift, mret, M_ret. rewrite !bind_run. unfold emit.
  destruct net as [e|r]; [done|].
  destruct (iter_content r CHUNK_SIZE) as [chunks err] eqn:Hit. simpl.
  rewrite !bind_run. unfold do_op at 1. simpl.
  rewrite Hpt, (mkdir_p_ready _ _ _ Hmk).
  destruct (fs1 !! tmp) as [[|old]|] eqn:Htmp; [done| |].
  all: rewrite !bind_run; unfold finally; rewrite !bind_run;
    rewrite (write_chunks_run tmp chunks _ [])
      by (simpl; by rewrite lookup_insert_eq);
    simpl; rewrite insert_insert_eq;
    destruct err as [e|]; simpl; [by rewrite <- !app_assoc|];
    rewrite bind_run; unfold do_op; simpl;
    rewrite lookup_insert_eq, lookup_insert_ne by done;
    destruct (fs1 !! dest) as [[|c]|]; simpl;
    by rewrite <- ?app_assoc.
Qed.

End running.

(** ** The trace determines the disk *)

(** The file system after the operations recorded in a trace. *)
Fixpoint replay (t : list event) (fs : FS) : FS :=
  match t with
  | [] => fs
  | EvFs op :: t' =>
      match apply_op op fs with
      | inr fs' => replay t' fs'
      | inl _ => replay t' fs
      end
  | _ :: t' => replay t' fs
  end.

Section traced.

Implicit Types (w : world) (fs : FS) (t : list event).

Lemma replay_app t1 t2 fs : replay (t1 ++ t2) fs = replay t2 (replay t1 fs).
Proof.
  revert fs. induction t1 as [|ev t1 IH]; intros fs; simpl; [done|].
  destruct ev; try done. by destruct (apply_op op fs).
Qed.

(** A statement whose effect on the disk is the one its trace records. *)
Definition traced {A} (m : M A) : Prop :=
  ∀ w t w' r, m w = (t, w', r) → w_fs w' = replay t (w_fs w).

Lemma traced_ret {A} (a : A) : traced (mret a).
Proof. by intros w t w' r [= <- <- <-]. Qed.

Lemma traced_raise {A} e : traced (@raise A e).
Proof. by intros w t w' r [= <- <- <-]. Qed.

Lemma traced_lift {A} (x : exn + A) : traced (lift x).
Proof. destruct x; [apply traced_raise|apply traced_ret]. Qed.

Lemma traced_emit ev : (∀ op, ev ≠ EvFs op) → traced (emit ev).
Proof.
  intros Hev w t w' r [= <- <- <-]. simpl. destruct ev; try done.
  by destruct (Hev op).
Qed.

Lemma traced_log lv m : traced (log lv m).
Proof. by apply traced_emit. Qed.

Lemma traced_get_world : traced get_world.
Proof. by intros w t w' r [= <- <- <-]. Qed.

Lemma traced_modify f : (∀ w, w_fs (f w) = w_fs w) → traced (modify f).
Proof. intros Hf w t w' r [= <- <- <-]. simpl. apply Hf. Qed.

Lemma traced_do_op op : traced (do_op op).
Proof.
  intros w t w' r. unfold do_op.
  destruct (apply_op op (w_fs w)) as [e|fs'] eqn:E.
  - by intros [= <- <- <-].
  - intros [= <- <- <-]. simpl. by rewrite E.
Qed.

Lemma traced_bind {A B} (m : M A) (k : A → M B) :
  traced m → (∀ a, traced (k a)) → traced (m ≫= k).
Proof.
  intros Hm Hk w t w' r. rewrite bind_run.
  destruct (m w) as [[t1 w1] [e|a]] eqn:E1.
  - intros [= <- <- <-]. by eapply Hm.
  - destruct (k a w1) as [[t2 w2] r2] eqn:E2. intros [= <- <- <-].
    rewrite replay_app, <- (Hm _ _ _ _ E1). by eapply Hk.
Qed.

Lemma traced_try {A} (m : M A) c h :
  traced m → (∀ e, traced (h e)) → traced (try_except m c h).
Proof.
  intros Hm Hh w t w' r. unfold try_except.
  destruct (m w) as [[t1 w1] [e|a]] eqn:E1.
  - destruct (c e).
    + destruct (h e w1) as [[t2 w2] r2] eqn:E2. intros [= <- <- <-].
      rewrite replay_app, <- (Hm _ _ _ _ E1). by eapply Hh.
    + intros [= <- <- <-]. by eapply Hm.
  - intros [= <- <- <-]. by eapply Hm.
Qed.

Lemma traced_finally {A} (m : M A) f :
  traced m → traced f → traced (finally m f).
Proof.
  intros Hm Hf w t w' r. unfold finally.
  destruct (m w) as [[t1 w1] r1] eqn:E1.
  destruct (f w1) as [[t2 w2] [e|[]]] eqn:E2; intros [= <- <- <-];
    rewrite replay_app, <- (Hm _ _ _ _ E1); by eapply Hf.
Qed.

Lemma traced_if {A} (b : bool) (m1 m2 : M A) :
  traced m1 → traced m2 → traced (if b then m1 else m2).
Proof. by destruct b. Qed.

Lemma traced_write_chunks tmp chunks : traced (write_chunks tmp chunks).
Proof.
  induction chunks as [|c chunks IH]; simpl; [apply traced_ret|].
  apply traced_bind; [|done].
  destruct c; [apply traced_ret|apply traced_do_op].
Qed.

Lemma traced_put_members out ms : traced (put_members out ms).
Proof.
  induction ms as [|[rel data] ms IH]; simpl; [apply traced_ret|].
  apply traced_bind; [apply traced_do_op|done].
Qed.

Local Ltac traced_step :=
  first
    [ apply traced_ret | apply traced_raise | apply traced_lift
    | apply traced_log | apply traced_do_op | apply traced_get_world
    | apply traced_write_chunks | apply traced_put_members
    | (apply traced_emit; done)
    | (apply traced_modify; by intros [])
    | (apply traced_bind; [|intros ?])
    | (apply traced_try; [|intros ?])
    | apply traced_finally
    | apply traced_if ].

Lemma traced_download_zip net url dest : traced (download_zip net url dest).
Proof.
  unfold download_zip. repeat traced_step.
  destruct net as [e|r]; [apply traced_raise|].
  destruct (iter_content r CHUNK_SIZE) as [chunks err].
  repeat traced_step. destruct err; traced_step.
Qed.

Lemma traced_extract_zip env zip out : traced (extract_zip env zip out).
Proof.
  unfold extract_zip. repeat traced_step.
  destruct (w_fs _ !! zip) as [[|c]|]; repeat traced_step.
  destruct (archive_error env); traced_step.
Qed.

Lemma traced_path_exists err p : traced (path_exists err p).
Proof.
  unfold path_exists. destruct err; [apply traced_raise|].
  apply traced_bind; [apply traced_get_world|intros w]. apply traced_ret.
Qed.

Lemma traced_obtain_zip k env link name zip :
  traced (obtain_zip k env link name zip).
Proof.
  unfold obtain_zip. apply traced_bind; [apply traced_path_exists|intros w].
  apply traced_if; [repeat traced_step|].
  apply traced_bind; [traced_step|intros _].
  apply traced_try; [|intros e; repeat traced_step].
  apply traced_bind; [apply traced_download_zip|intros _].
  repeat traced_step.
Qed.

Lemma traced_extract_step a k env name zip :
  traced (extract_step a k env name zip).
Proof.
  unfold extract_step. apply traced_if; [traced_step|].
  apply traced_try; [|intros e; traced_step].
  apply traced_bind; [apply traced_extract_zip|intros _]. traced_step.
Qed.

Lemma traced_stream_step a k env : traced (stream_step a k env).
Proof.
  unfold stream_step, poll_once.
  apply traced_bind; [apply traced_if; traced_step|intros _].
  apply traced_bind; [repeat traced_step|intros link].
  apply traced_if; [apply traced_if; traced_step|].
  apply traced_bind; [traced_step|intros name].
  apply traced_bind; [traced_step|intros w].
  apply traced_if; [traced_step|].
  apply traced_bind; [apply traced_obtain_zip|intros b].
  destruct b; [|traced_step].
  apply traced_bind; [apply traced_extract_step|intros _].
  apply traced_modify. by intros [] ; destruct k.
Qed.

Lemma traced_sleep secs i : traced (sleep secs i).
Proof.
  unfold sleep. apply traced_if; [traced_step|].
  apply traced_if; repeat traced_step.
Qed.

Lemma traced_cycle a env : traced (cycle a env).
Proof.
  unfold cycle, cycle_body, cycle_handler. apply traced_try.
  - apply traced_bind; [apply traced_stream_step|intros _].
    apply traced_bind; [apply traced_stream_step|intros _].
    apply traced_bind; [apply traced_sleep|intros _]. traced_step.
  - intros e. apply traced_if; [|apply traced_if].
    + apply traced_bind; [traced_step|intros w].
      apply traced_bind; [traced_step|intros _].
      apply traced_bind; [apply traced_sleep|intros _]. traced_step.
    + repeat traced_step.
    + apply traced_bind; [traced_step|intros _].
      apply traced_bind; [apply traced_if; traced_step|intros _].
      apply traced_bind; [traced_step|intros w]. apply traced_sleep.
Qed.

End traced.

(** ** One stream in one cycle, branch by branch *)

#[global] Arguments poll_text : simpl never.
#[global] Arguments safe_filename : simpl never.
#[global] Arguments zip_path_of : simpl never.
#[global] Arguments out_dir_of : simpl never.
#[global] Arguments download_zip : simpl never.
#[global] Arguments extract_zip : simpl never.
#[global] Arguments obtain_zip : simpl never.
#[global] Arguments extract_step : simpl never.
#[global] Arguments stream_step : simpl never.
#[global] Arguments pointer_url : simpl never.

Section stream_runs.

Implicit Types (a : Args) (k : kind) (env : stream_env) (w : world).

(** What every step starts with: the heartbeat when verbose, and the
    pointer request. *)
Definition polled a k : list event :=
  (if verbose a then [EvLog DEBUG (LogPolling (pointer_url k))] else [])
  ++ [EvGet (pointer_url k) false].

Lemma poll_text_total text : ∃ r, poll_text text = inr r.
Proof.
  destruct (first_candidate_spec (pointer_lines text)) as (r & Hr & _).
  by exists r.
Qed.

Lemma stream_step_poll_raises a k env w e :
  poll_result env = inl e →
  stream_step a k env w = (polled a k, w, inl e).
Proof.
  intros Hp. unfold stream_step, poll_once, polled.
  destruct (verbose a); repeat (rewrite bind_run; simpl); by rewrite Hp.
Qed.

Lemma stream_step_malformed a k env w text :
  poll_result env = inr text → poll_text text = inr None →
  stream_step a k env w
  = (polled a k
       ++ (if ignore_malformed a then []
           else [EvLog WARNING (LogUnexpected k)]),
     w, inr tt).
Proof.
  intros Hp Ht. unfold stream_step, poll_once, polled.
  destruct (verbose a); repeat (rewrite bind_run; simpl);
    rewrite Hp; simpl; rewrite Ht; simpl; by destruct (ignore_malformed a).
Qed.

Lemma obtain_zip_run k env link name zip w :
  obtain_zip k env link name zip w =
  match exists_error env with
  | Some e => ([], w, inl e)
  | None =>
  if fs_exists (w_fs w) zip then
    ([EvLog INFO (LogOnDisk k name)], w, inr true)
  else
    match download_zip (download_result env) link zip w with
    | (t, w1, inr _) =>
        (EvLog INFO (LogDownloading k name) :: t
           ++ [EvLog INFO (LogDownloaded k)], w1, inr true)
    | (t, w1, inl e) =>
        if is_Exception e then
          (EvLog INFO (LogDownloading k name) :: t
             ++ [EvLog ERROR (LogDownloadFailed k name e)], w1, inr false)
        else (EvLog INFO (LogDownloading k name) :: t, w1, inl e)
    end
  end.
Proof.
  unfold obtain_zip, path_exists. rewrite bind_run.
  destruct (exists_error env) as [e0|]; [done|]. simpl.
  destruct (fs_exists (w_fs w) zip); [done|].
  rewrite bind_run. simpl. unfold try_except. rewrite bind_run.
  destruct (download_zip (download_result env) link zip w)
    as [[t w1] [e|p]]; simpl; [by destruct (is_Exception e)|done].
Qed.

Lemma extract_step_run a k env name zip w :
  extract_step a k env name zip w =
  if skip_extract a then ([], w, inr tt)
  else
    match extract_zip env zip (out_dir_of a k name) w with
    | (t, w1, inr _) =>
        (t ++ [EvLog INFO (LogExtracted k (out_dir_of a k name))], w1, inr tt)
    | (t, w1, inl e) =>
        if is_Exception e then
          (t ++ [EvLog ERROR (LogExtractFail k e)], w1, inr tt)
        else (t, w1, inl e)
    end.
Proof.
  unfold extract_step. destruct (skip_extract a); [done|].
  unfold try_except. rewrite bind_run.
  destruct (extract_zip env zip (out_dir_of a k name) w)
    as [[t w1] [e|[]]]; simpl; [by destruct (is_Exception e)|done].
Qed.

Lemma stream_step_resolved a k env w text link name :
  poll_result env = inr text → poll_text text = inr (Some link) →
  safe_filename link = inr name →
  stream_step a k env w =
  if bool_decide (name ∈ seen_of k w) then (polled a k, w, inr tt)
  else
    match obtain_zip k env link name (zip_path_of a k name) w with
    | (t, w1, inl e) => (polled a k ++ t, w1, inl e)
    | (t, w1, inr false) => (polled a k ++ t, w1, inr tt)
    | (t, w1, inr true) =>
        match extract_step a k env name (zip_path_of a k name) w1 with
        | (t2, w2, inl e) => (polled a k ++ t ++ t2, w2, inl e)
        | (t2, w2, inr _) =>
            (polled a k ++ t ++ t2, add_seen k name w2, inr tt)
        end
    end.
Proof.
  intros Hp Ht Hn. destruct (poll_text_link _ _ Ht) as [_ Htr].
  destruct link as [|c link]; [done|].
  unfold stream_step, poll_once, polled.
  destruct (verbose a); repeat (rewrite bind_run; simpl);
    rewrite Hp; simpl; rewrite Ht; simpl;
    repeat (rewrite bind_run; simpl); rewrite Hn; simpl;
    repeat (rewrite bind_run; simpl);
    (destruct (bool_decide (name ∈ seen_of k w)); [done|]);
    rewrite ?bind_run;
    (destruct (obtain_zip k env (c :: link) name (zip_path_of a k name) w)
      as [[t w1] [e|[]]]; [done| |simpl; by rewrite ?app_nil_r]);
    rewrite ?bind_run;
    destruct (extract_step a k env name (zip_path_of a k name) w1)
      as [[t2 w2] [e|[]]]; simpl; by rewrite ?app_nil_r.
Qed.

End stream_runs.

(** ** What a statement leaves alone *)

(** [respects R P m]: running [m] relates the worlds by [R] and produces
    only events in [P]. *)
Section respects.

Context (R : world → world → Prop) (P : event → Prop).
Context `{!Reflexive R, !Transitive R}.

Definition respects {A} (m : M A) : Prop :=
  ∀ w t w' r, m w = (t, w', r) → R w w' ∧ Forall P t.

Lemma respects_ret {A} (a : A) : respects (mret a).
Proof. by intros w t w' r [= <- <- <-]. Qed.

Lemma respects_raise {A} e : respects (@raise A e).
Proof. by intros w t w' r [= <- <- <-]. Qed.

Lemma respects_lift {A} (x : exn + A) : respects (lift x).
Proof. destruct x; [apply respects_raise|apply respects_ret]. Qed.

Lemma respects_get_world : respects get_world.
Proof. by intros w t w' r [= <- <- <-]. Qed.

Lemma respects_emit ev : P ev → respects (emit ev).
Proof. intros Hev w t w' r [= <- <- <-]. split; [done|by constructor]. Qed.

Lemma respects_modify f : (∀ w, R w (f w)) → respects (modify f).
Proof. intros Hf w t w' r [= <- <- <-]. split; [apply Hf|done]. Qed.

Lemma respects_do_op op :
  P (EvFs op) →
  (∀ w fs', apply_op op (w_fs w) = inr fs' → R w (with_fs fs' w)) →
  respects (do_op op).
Proof.
  intros HP HR w t w' r. unfold do_op.
  destruct (apply_op op (w_fs w)) as [e|fs'] eqn:E.
  - by intros [= <- <- <-].
  - intros [= <- <- <-]. split; [by apply HR|by constructor].
Qed.

Lemma respects_bind {A B} (m : M A) (k : A → M B) :
  respects m → (∀ a, respects (k a)) → respects (m ≫= k).
Proof.
  intros Hm Hk w t w' r. rewrite bind_run.
  destruct (m w) as [[t1 w1] [e|a]] eqn:E1.
  - intros [= <- <- <-]. by eapply Hm.
  - destruct (k a w1) as [[t2 w2] r2] eqn:E2. intros [= <- <- <-].
    destruct (Hm _ _ _ _ E1) as [HR1 HP1].
    destruct (Hk _ _ _ _ _ E2) as [HR2 HP2].
    split; [by etrans|by apply Forall_app].
Qed.

Lemma respects_try {A} (m : M A) c h :
  respects m → (∀ e, respects (h e)) → respects (try_except m c h).
Proof.
  intros Hm Hh w t w' r. unfold try_except.
  destruct (m w) as [[t1 w1] [e|a]] eqn:E1.
  - destruct (Hm _ _ _ _ E1) as [HR1 HP1]. destruct (c e).
    + destruct (h e w1) as [[t2 w2] r2] eqn:E2. intros [= <- <- <-].
      destruct (Hh _ _ _ _ _ E2) as [HR2 HP2].
      split; [by etrans|by apply Forall_app].
    + by intros [= <- <- <-].
  - intros [= <- <- <-]. by eapply Hm.
Qed.

Lemma respects_finally {A} (m : M A) f :
  respects m → respects f → respects (finally m f).
Proof.
  intros Hm Hf w t w' r. unfold finally.
  destruct (m w) as [[t1 w1] r1] eqn:E1.
  destruct (Hm _ _ _ _ E1) as [HR1 HP1].
  destruct (f w1) as [[t2 w2] [e|[]]] eqn:E2; intros [= <- <- <-];
    destruct (Hf _ _ _ _ E2) as [HR2 HP2];
    (split; [by etrans|by apply Forall_app]).
Qed.

Lemma respects_if {A} (b : bool) (m1 m2 : M A) :
  respects m1 → respects m2 → respects (if b then m1 else m2).
Proof. by destruct b. Qed.

Lemma respects_path_exists err p : respects (path_exists err p).
Proof.
  unfold path_exists. destruct err; [apply respects_raise|].
  apply respects_bind; [apply respects_get_world|intros w].
  apply respects_ret.
Qed.

End respects.

(** The variables of [run] are as before. *)
Definition same_vars (w w' : world) : Prop :=
  seen_eng w' = seen_eng w ∧ seen_trans w' = seen_trans w
  ∧ backoff w' = backoff w.

(** Every path that was there is still there. *)
Definition keeps_paths (fs fs' : FS) : Prop :=
  ∀ p, is_Some (fs !! p) → is_Some (fs' !! p).

(** The paths a trace renames files to. *)
Definition renames (t : list event) : list path :=
  omap (λ ev, match ev with EvFs (OpRename _ d) => Some d | _ => None end) t.

(** Events of extraction: directories made and members written. *)
Definition extract_event (ev : event) : Prop :=
  match ev with
  | EvFs (OpMkdir _) | EvFs (OpPut _ _) => True
  | _ => False
  end.

Section frames.

Implicit Types (w : world) (fs : FS).

#[global] Instance same_vars_refl : Reflexive same_vars.
Proof. by intros w. Qed.

#[global] Instance same_vars_trans : Transitive same_vars.
Proof. intros w1 w2 w3 (?&?&?) (?&?&?). repeat split; congruence. Qed.

#[global] Instance keeps_paths_refl : Reflexive keeps_paths.
Proof. by intros fs p. Qed.

#[global] Instance keeps_paths_trans : Transitive keeps_paths.
Proof. intros f1 f2 f3 H1 H2 p Hp. by apply H2, H1. Qed.

Lemma keeps_paths_insert fs p n : keeps_paths fs (<[p := n]> fs).
Proof.
  intros p' Hp'. destruct (decide (p = p')) as [->|Hne].
  - by rewrite lookup_insert_eq.
  - by rewrite lookup_insert_ne.
Qed.

Lemma keeps_paths_mkdir d fs fs' : mkdir_p d fs = inr fs' → keeps_paths fs fs'.
Proof. intros H p [n Hn]. exists n. by eapply mkdir_p_Some. Qed.

(** Only a rename removes a path. *)
Lemma apply_op_keeps op fs fs' :
  apply_op op fs = inr fs' → (∀ s d, op ≠ OpRename s d) → keeps_paths fs fs'.
Proof.
  intros H Hop. destruct op as [d|p|p data|p|s d|p data]; simpl in H.
  - by eapply keeps_paths_mkdir.
  - destruct (dir_ready fs (parent p)); [|done].
    destruct (fs !! p) as [[|c]|]; simplify_eq; apply keeps_paths_insert.
  - destruct (fs !! p) as [[|c]|]; simplify_eq; apply keeps_paths_insert.
  - by simplify_eq.
  - by destruct (Hop s d).
  - destruct (mkdir_p (parent p) fs) as [e|fs1] eqn:E; [done|].
    etrans; [by eapply keeps_paths_mkdir|].
    destruct (fs1 !! p) as [[|c]|]; simplify_eq; apply keeps_paths_insert.
Qed.

(** The relation extraction keeps: variables as before, no path lost. *)
Definition grows (w w' : world) : Prop :=
  same_vars w w' ∧ keeps_paths (w_fs w) (w_fs w').

#[global] Instance grows_refl : Reflexive grows.
Proof. by intros w. Qed.

#[global] Instance grows_trans : Transitive grows.
Proof. intros w1 w2 w3 [??] [??]. split; by etrans. Qed.

Local Ltac rapply lem := apply lem; try (solve [apply _]).

Lemma do_op_grows op :
  (∀ s d, op ≠ OpRename s d) → extract_event (EvFs op) →
  respects grows extract_event (do_op op).
Proof.
  intros Hop Hev. rapply respects_do_op; [done|].
  intros w fs' H. split; [done|]. by eapply apply_op_keeps.
Qed.

Lemma put_members_grows out ms :
  respects grows extract_event (put_members out ms).
Proof.
  induction ms as [|[rel data] ms IH]; simpl.
  - rapply respects_ret.
  - rapply respects_bind; [by apply do_op_grows|intros ?; exact IH].
Qed.

Lemma extract_zip_grows env zip out :
  respects grows extract_event (extract_zip env zip out).
Proof.
  unfold extract_zip. rapply respects_bind; [by apply do_op_grows|].
  intros ?. rapply respects_bind; [rapply respects_get_world|].
  intros w. destruct (w_fs w !! zip) as [[|c]|]; try rapply respects_raise.
  rapply respects_bind; [apply put_members_grows|].
  intros ?. destruct (archive_error env);
    [rapply respects_raise|rapply respects_ret].
Qed.

(** An archive that cannot be read at all leaves the disk as [mkdir] left
    it. *)
Lemma extract_zip_unreadable env zip out w t w' r n :
  archive_members env = [] → w_fs w !! zip = Some n →
  extract_zip env zip out w = (t, w', r) → w_fs w' !! zip = Some n.
Proof.
  intros Hm Hz. unfold extract_zip. rewrite bind_run. unfold do_op at 1.
  simpl. destruct (mkdir_p out (w_fs w)) as [e|fs1] eqn:E.
  - by intros [= <- <- <-].
  - rewrite bind_run. simpl.
    assert (Hz1 : fs1 !! zip = Some n) by by eapply mkdir_p_Some.
    rewrite Hz1. destruct n as [|c].
    + by intros [= <- <- <-].
    + rewrite Hm, bind_run. simpl.
      destruct (archive_error env); by intros [= <- <- <-].
Qed.

End frames.

(** ** Consequences for a download *)

Section download_facts.

Implicit Types (w : world) (fs : FS) (q : path) (stem : str).

Lemma renames_app t1 t2 : renames (t1 ++ t2) = renames t1 ++ renames t2.
Proof. apply omap_app. Qed.

Lemma renames_write_events tmp chunks : renames (write_events tmp chunks) = [].
Proof.
  unfold write_events. induction (written chunks) as [|c cs IH]; [done|].
  done.
Qed.

Lemma renames_extract t : Forall extract_event t → renames t = [].
Proof.
  induction 1 as [|ev t Hev _ IH]; [done|].
  destruct ev as [| |[]|]; try done.
Qed.

Lemma snoc_not_prefix q (x : str) : ¬ (q ++ [x]) `prefix_of` q.
Proof.
  intros H. apply prefix_length in H. rewrite length_app in H. simpl in H. lia.
Qed.

Lemma zip_part_ne q q' stem stem' :
  q ++ [stem ++ lit ".zip"] ≠ q' ++ [stem' ++ lit ".part"].
Proof.
  intros E. apply app_inj_2 in E as [_ E]; [|done].
  injection E as E.
  change (lit ".zip") with (lit ".zi" ++ [112%N]) in E.
  change (lit ".part") with (lit ".par" ++ [116%N]) in E.
  rewrite !app_assoc in E. apply app_inj_2 in E as [_ E]; [|done]. done.
Qed.

(** A download that raises: the variables and the destination are as
    before, nothing is lost, nothing is renamed. *)
Lemma download_zip_raises net url q stem w t w1 e :
  SLASH ∉ stem → stem ≠ [] →
  download_zip net url (q ++ [stem ++ lit ".zip"]) w = (t, w1, inl e) →
  same_vars w w1
  ∧ w_fs w1 !! (q ++ [stem ++ lit ".zip"]) = w_fs w !! (q ++ [stem ++ lit ".zip"])
  ∧ keeps_paths (w_fs w) (w_fs w1)
  ∧ renames t = [].
Proof.
  intros Hs Hne. rewrite download_zip_run by done.
  set (dest := q ++ [stem ++ lit ".zip"]).
  set (tmp := q ++ [stem ++ lit ".part"]).
  assert (Hneq : tmp ≠ dest) by (symmetry; apply zip_part_ne).
  destruct (mkdir_p q (w_fs w)) as [e0|fs1] eqn:Hmk.
  { intros [= <- <- <-]. split_and!; done. }
  assert (Hd1 : fs1 !! dest = w_fs w !! dest).
  { eapply mkdir_p_other; [done|]. apply snoc_not_prefix. }
  assert (Hk1 : keeps_paths (w_fs w) fs1) by by eapply keeps_paths_mkdir.
  destruct net as [e0|r].
  { intros [= <- <- <-]. split_and!; done. }
  simpl. destruct (iter_content r CHUNK_SIZE) as [chunks err]. simpl.
  assert (Hk3 : keeps_paths (w_fs w) (<[tmp:=File (concat chunks)]> fs1)).
  { etrans; [done|]. apply keeps_paths_insert. }
  assert (Hren : renames
    (EvFs (OpMkdir q) :: EvGet url true :: EvFs (OpOpenW tmp)
       :: write_events tmp chunks ++ [EvFs (OpClose tmp)]) = []).
  { change (renames (write_events tmp chunks ++ [EvFs (OpClose tmp)]) = []).
    by rewrite renames_app, renames_write_events. }
  destruct (fs1 !! tmp) as [[|old]|] eqn:Htmp.
  { intros [= <- <- <-]. split_and!; done. }
  all: destruct err as [e0|];
    [ intros [= <- <- <-]; split_and!; try done;
      simpl; by rewrite lookup_insert_ne
    | destruct (fs1 !! dest) as [[|c]|] eqn:Hd; [|done|done];
      intros [= <- <- <-]; split_and!; try done;
      simpl; rewrite lookup_insert_ne by done; congruence ].
Qed.

(** A download that returns: the archive is at the destination with the
    whole body, the temporary path is gone, no other path is lost, and the
    trace holds exactly one rename, its last event. *)
Lemma download_zip_returns net url q stem w t w1 p :
  SLASH ∉ stem → stem ≠ [] →
  download_zip net url (q ++ [stem ++ lit ".zip"]) w = (t, w1, inr p) →
  let dest := q ++ [stem ++ lit ".zip"] in
  let tmp := q ++ [stem ++ lit ".part"] in
  p = dest ∧ same_vars w w1
  ∧ (∃ r t0, net = GetResponse r ∧ (iter_content r CHUNK_SIZE).2 = None
       ∧ w_fs w1 !! dest = Some (File (concat (iter_content r CHUNK_SIZE).1))
       ∧ t = t0 ++ [EvFs (OpRename tmp dest)] ∧ renames t0 = [])
  ∧ w_fs w1 !! tmp = None
  ∧ (∀ p', p' ≠ tmp → is_Some (w_fs w !! p') → is_Some (w_fs w1 !! p')).
Proof.
  intros Hs Hne. rewrite download_zip_run by done. intros H dest tmp.
  fold dest tmp in H.
  assert (Hneq : tmp ≠ dest) by (symmetry; apply zip_part_ne).
  destruct (mkdir_p q (w_fs w)) as [e0|fs1] eqn:Hmk; [done|].
  assert (Hk1 : keeps_paths (w_fs w) fs1) by by eapply keeps_paths_mkdir.
  destruct net as [e0|r]; [done|]. simpl in H.
  destruct (iter_content r CHUNK_SIZE) as [chunks err] eqn:Hit. simpl in H.
  assert (Hkeep : ∀ p', p' ≠ tmp → is_Some (w_fs w !! p') →
    is_Some ((<[dest:=File (concat chunks)]>
      (delete tmp (<[tmp:=File (concat chunks)]> fs1))) !! p')).
  { intros p' Hp' Hsome. apply Hk1 in Hsome.
    destruct (decide (dest = p')) as [<-|Hd]; [by rewrite lookup_insert_eq|].
    rewrite lookup_insert_ne, lookup_delete_ne, lookup_insert_ne by done.
    done. }
  assert (Hgone : (<[dest:=File (concat chunks)]>
      (delete tmp (<[tmp:=File (concat chunks)]> fs1))) !! tmp = None).
  { rewrite lookup_insert_ne by done. apply lookup_delete_eq. }
  destruct (fs1 !! tmp) as [[|old]|] eqn:Htmp; [done| |].
  all: destruct err as [e0|]; [done|];
    destruct (fs1 !! dest) as [[|c]|] eqn:Hd; [done| |];
    injection H as <- <- <-;
    (split; [done|]); (split; [done|]);
    (split; [|by split]);
    exists r, (EvFs (OpMkdir q) :: EvGet url true :: EvFs (OpOpenW tmp)
                 :: write_events tmp chunks ++ [EvFs (OpClose tmp)]);
    rewrite Hit; simpl;
    (split; [done|]); (split; [done|]);
    (split; [by rewrite lookup_insert_eq|]);
    (split; [by rewrite <- !app_assoc|]);
    change (renames (write_events tmp chunks ++ [EvFs (OpClose tmp)]) = []);
    by rewrite renames_app, renames_write_events.
Qed.

End download_facts.

(** ** The pointer resolver *)

Section resolver.

Implicit Types (text link name url : str) (w : world).

Lemma poll_once_run text url w :
  poll_once (inr text) url w = ([EvGet url false], w, poll_text text).
Proof.
  unfold poll_once. repeat (rewrite bind_run; simpl).
  by destruct (poll_text text).
Qed.

Lemma pointer_lines_elem text l :
  l ∈ pointer_lines text ↔ l ≠ [] ∧ ∃ ln, ln ∈ splitlines text ∧ l = strip ln.
Proof.
  unfold pointer_lines. rewrite list_elem_of_omap. split.
  - intros (ln & Hln & Hl). destruct (strip ln) as [|c s] eqn:E; [done|].
    injection Hl as <-. split; [done|]. by exists ln.
  - intros (Hne & ln & Hln & ->). exists ln. split; [done|].
    by destruct (strip ln).
Qed.

(** What [run] gets from a resolved link is an archive name. *)
Lemma resolved_archive_name text link name :
  poll_text text = inr (Some link) → safe_filename link = inr name →
  archive_name name.
Proof.
  intros Ht Hn. destruct (poll_text_link _ _ Ht) as [Hsuf _]. split.
  - eapply safe_filename_suffix; eauto using GKG_SUFFIX_noslash.
  - destruct (safe_filename_spec link) as (name' & Hn' & _ & Hs & _).
    congruence.
Qed.

(** The pointer file as it is published: three lines, the last one for the
    GKG archive. *)
Example poll_text_published :
  poll_text (lit "150383 297a16b493de7cf6ca809a7cc31d0b93 http://data.gdeltproject.org/gdeltv2/20150218230000.export.CSV.zip
318084 bb27f78ba45f69a17ea6ed7755e9f8ff http://data.gdeltproject.org/gdeltv2/20150218230000.mentions.CSV.zip
10768507 ea8dde0beb0ba98810a92db068c0ce99 http://data.gdeltproject.org/gdeltv2/20150218230000.gkg.csv.zip
")
  = inr (Some (lit "http://data.gdeltproject.org/gdeltv2/20150218230000.gkg.csv.zip")).
Proof. by vm_compute. Qed.

End resolver.

(** ** Pointer bodies, line by line *)

(** The line feed. *)
Definition LF : N := 10.

(** Whitespace only. *)
Definition blank (s : str) : Prop := Forall (λ c, isspace c = true) s.

(** No line boundary inside. *)
Definition oneline (s : str) : Prop := Forall (λ c, islinebreak c = false) s.

(** A line that, trailing whitespace aside, ends with the suffix. *)
Definition candidate (l : str) : Prop :=
  ∃ core pad, l = core ++ pad ∧ blank pad ∧ GKG_SUFFIX `suffix_of` core.

(** The text of the lines [ls], each one ended by a line feed. *)
Definition lines_text (ls : list str) : str :=
  concat ((λ l, l ++ [LF]) <$> ls).

Section pointer_bodies.

Implicit Types (s t l cur : str) (ls : list str) (c : N).

Lemma splitlines_from_line l rest : ∀ cur,
  oneline l →
  splitlines_from cur (l ++ LF :: rest)
  = (rev cur ++ l) :: splitlines_from [] rest.
Proof.
  induction l as [|c l IH]; intros cur Hl.
  - rewrite app_nil_r. simpl. by destruct rest.
  - inversion Hl as [|?? Hc Hl']; subst. simpl. rewrite Hc, IH by done.
    simpl. by rewrite <- app_assoc.
Qed.

Lemma splitlines_lines ls tail :
  Forall oneline ls →
  splitlines (lines_text ls ++ tail) = ls ++ splitlines tail.
Proof.
  induction 1 as [|l ls Hl _ IH]; [done|].
  change (lines_text (l :: ls)) with ((l ++ [LF]) ++ lines_text ls).
  rewrite <- !app_assoc. unfold splitlines in *.
  change ([LF] ++ lines_text ls ++ tail) with (LF :: lines_text ls ++ tail).
  rewrite splitlines_from_line by done. simpl. by rewrite IH.
Qed.

Lemma lstrip_blank_app a s : blank a → lstrip (a ++ s) = lstrip s.
Proof. induction 1 as [|c a Hc _ IH]; [done|]. simpl. by rewrite Hc. Qed.

Lemma lstrip_decompose s :
  ∃ a, s = a ++ lstrip s ∧ blank a.
Proof.
  induction s as [|c s (a & Hs & Ha)].
  { exists []. split; [done|constructor]. }
  simpl. destruct (isspace c) eqn:Hc.
  - exists (c :: a). split; [by rewrite Hs at 1|]. by constructor.
  - exists []. split; [done|constructor].
Qed.

Lemma rstrip_app_blank s b : blank b → rstrip (s ++ b) = rstrip s.
Proof.
  intros Hb. unfold rstrip. rewrite rev_app_distr.
  rewrite lstrip_blank_app; [done|]. by apply Forall_rev.
Qed.

Lemma rstrip_snoc s c : isspace c = false → rstrip (s ++ [c]) = s ++ [c].
Proof.
  intros Hc. unfold rstrip. rewrite rev_unit. simpl. rewrite Hc. simpl.
  by rewrite rev_involutive.
Qed.

Lemma rstrip_decompose s : ∃ b, s = rstrip s ++ b ∧ blank b.
Proof.
  destruct (lstrip_decompose (rev s)) as (a & Hs & Ha).
  exists (rev a). split; [|by apply Forall_rev].
  unfold rstrip. rewrite <- rev_app_distr, <- Hs. by rewrite rev_involutive.
Qed.

(** The suffix ends in a character that is not whitespace. *)
Lemma suffix_last link :
  GKG_SUFFIX `suffix_of` link → ∃ l0, link = l0 ++ [112%N].
Proof.
  intros [k ->]. exists (k ++ lit ".gkg.csv.zi"). by rewrite <- app_assoc.
Qed.

(** A line that is not a candidate is passed over by the loop. *)
Lemma not_candidate_strip l :
  ¬ candidate l → endswith (strip l) GKG_SUFFIX = false.
Proof.
  intros Hl. apply endswith_not_suffix. intros [k Hk]. apply Hl.
  destruct (lstrip_decompose l) as (a & Ha & _).
  destruct (rstrip_decompose (lstrip l)) as (b & Hb & Hblank).
  exists (a ++ strip l), b. split_and!; [|done|].
  - rewrite <- app_assoc. unfold strip. by rewrite <- Hb.
  - exists (a ++ k). rewrite Hk. by rewrite <- app_assoc.
Qed.

(** Candidates are decided on the line without its trailing whitespace. *)
Lemma candidate_rstrip l :
  endswith (rstrip l) GKG_SUFFIX = false → ¬ candidate l.
Proof.
  intros He (core & pad & -> & Hpad & Hsuf).
  apply endswith_not_suffix in He. apply He.
  rewrite rstrip_app_blank by done.
  destruct (suffix_last _ Hsuf) as [c0 Hc0]. rewrite Hc0.
  rewrite rstrip_snoc by done. by rewrite <- Hc0.
Qed.

Lemma first_candidate_skip pre rest :
  Forall (λ l, endswith l GKG_SUFFIX = false) pre →
  first_candidate (pre ++ rest) = first_candidate rest.
Proof. induction 1 as [|l pre Hl _ IH]; [done|]. simpl. by rewrite Hl. Qed.

Lemma first_candidate_none lines :
  Forall (λ l, endswith l GKG_SUFFIX = false) lines →
  first_candidate lines = inr None.
Proof. induction 1 as [|l lines Hl _ IH]; [done|]. simpl. by rewrite Hl. Qed.

Lemma pointer_lines_skipped ls :
  Forall (λ l, ¬ candidate l) ls →
  Forall (λ l, endswith l GKG_SUFFIX = false)
    (omap (λ ln, match strip ln with [] => None | l => Some l end) ls).
Proof.
  induction 1 as [|l ls Hl _ IH]; [done|].
  pose proof (not_candidate_strip _ Hl) as He.
  change (omap ?f (l :: ls)) with
    (match f l with Some y => y :: omap f ls | None => omap f ls end).
  simpl. destruct (strip l) as [|c s]; [done|]. by constructor.
Qed.

(** The candidate line: whatever precedes the link ends in whitespace, the
    link holds none, whitespace follows. Trimmed, it ends with the link. *)
Lemma strip_candidate front link trail :
  (front = [] ∨ ∃ f c, front = f ++ [c] ∧ isspace c = true) →
  nospace link → GKG_SUFFIX `suffix_of` link → blank trail →
  ∃ x, strip (front ++ link ++ trail) = x ++ link
       ∧ (x = [] ∨ ∃ x' c, x = x' ++ [c] ∧ isspace c = true).
Proof.
  intros Hfront Hlink Hsuf Htrail.
  destruct (suffix_last _ Hsuf) as [l0 Hl0].
  destruct (lstrip_decompose front) as (a & Ha & Hblank).
  exists (lstrip front). split.
  - unfold strip.
    assert (lstrip (front ++ link ++ trail) = lstrip front ++ link ++ trail)
      as ->.
    { rewrite Ha at 1. rewrite <- app_assoc, lstrip_blank_app by done.
      destruct (lstrip front) as [|c s] eqn:E.
      - simpl. destruct link as [|c link]; [by destruct l0|].
        inversion Hlink; subst. simpl. by rewrite H1.
      - assert (isspace c = false) as Hc.
        { clear -E. induction front as [|d front IH]; [done|].
          simpl in E. destruct (isspace d) eqn:Hd; [by apply IH|].
          by injection E as <- _. }
        simpl. by rewrite Hc. }
    rewrite !app_assoc, rstrip_app_blank by done.
    rewrite Hl0, app_assoc, rstrip_snoc by done. done.
  - assert (Hcases : lstrip front = [] ∨ ∃ x d, lstrip front = x ++ [d]).
    { destruct (lstrip front) as [|d x _] using rev_ind; [by left|].
      right. by exists x, d. }
    destruct Hcases as [->|(x & d & Hxd)]; [by left|].
    right. exists x, d. split; [done|].
    destruct Hfront as [->|(f & c & Hf & Hc)].
    + simpl in Hxd. by destruct x.
    + rewrite Hxd, Hf in Ha. rewrite app_assoc in Ha.
      by apply app_inj_2 in Ha as [_ [= ->]].
Qed.

(** The body of a pointer, read as [poll_once] reads it: lines ended by a
    line feed that are not candidates, then a candidate line. *)
Lemma poll_text_lines before front link trail rest :
  Forall oneline before → Forall (λ l, ¬ candidate l) before →
  (front = [] ∨ ∃ f c, front = f ++ [c] ∧ isspace c = true) →
  nospace link → GKG_SUFFIX `suffix_of` link → blank trail →
  oneline (front ++ link ++ trail) →
  (rest = [] ∨ ∃ rest', rest = LF :: rest') →
  poll_text (lines_text before ++ (front ++ link ++ trail) ++ rest)
  = inr (Some link).
Proof.
  intros Hone Hnot Hfront Hlink Hsuf Htrail Hline Hrest.
  destruct (suffix_last _ Hsuf) as [l0 Hl0].
  destruct (strip_candidate _ _ _ Hfront Hlink Hsuf Htrail) as (x & Hx & Hxs).
  set (line := front ++ link ++ trail) in *.
  assert (Hne : line ≠ []).
  { unfold line. rewrite Hl0. intros E.
    apply app_eq_nil in E as [_ E]. apply app_eq_nil in E as [E _].
    by destruct l0. }
  assert (Hsplit : ∃ more, splitlines (line ++ rest) = line :: more).
  { destruct Hrest as [->|[rest' ->]].
    - exists []. rewrite app_nil_r. unfold splitlines.
      rewrite splitlines_from_nobreak by done. simpl. by destruct line.
    - eexists. unfold splitlines. by rewrite splitlines_from_line. }
  destruct Hsplit as [more Hsplit].
  unfold poll_text, pointer_lines.
  rewrite splitlines_lines, Hsplit, omap_app by done.
  rewrite first_candidate_skip by by apply pointer_lines_skipped.
  change (omap ?f (line :: more)) with
    (match f line with Some y => y :: omap f more | None => omap f more end).
  simpl. rewrite Hx.
  assert (Hxl : x ++ link ≠ []).
  { rewrite Hl0. intros E. apply app_eq_nil in E as [_ E]. by destruct l0. }
  destruct (x ++ link) as [|c0 s0] eqn:E; [done|]. rewrite <- E. simpl.
  assert (endswith (x ++ link) GKG_SUFFIX = true) as ->.
  { apply endswith_suffix. destruct Hsuf as [k ->]. exists (x ++ k).
    by rewrite <- app_assoc. }
  rewrite Hl0, app_assoc.
  destruct (split_last_token (x ++ l0) 112%N eq_refl) as (tok & -> & Htok).
  f_equal. f_equal. rewrite <- app_assoc, <- Hl0 in Htok. rewrite <- Hl0.
  apply (is_last_token_unique tok link (x ++ link) Htok).
  split; [rewrite Hl0; by destruct l0|]. split; [done|]. by exists x.
Qed.

(** A body without a candidate line. *)
Lemma poll_text_no_candidate ls l :
  Forall oneline ls → oneline l → Forall (λ x, ¬ candidate x) (ls ++ [l]) →
  poll_text (lines_text ls ++ l) = inr None.
Proof.
  intros Hone Hl Hnot. unfold poll_text, pointer_lines.
  rewrite splitlines_lines by done. unfold splitlines at 1.
  rewrite splitlines_from_nobreak by done. simpl.
  apply first_candidate_none, pointer_lines_skipped.
  destruct l; [|done]. rewrite app_nil_r.
  by apply Forall_app in Hnot as [? _].
Qed.

End pointer_bodies.

(** C3. For every pointer body, [poll_once] issues the request, raises
    nothing and changes nothing; over the non-empty trimmed lines of the
    body it returns the last whitespace-separated token of the first line
    that ends with [.gkg.csv.zip], and [None] when no line does; a line
    [<size> <hash> <url>] yields its [<url>]; the same body gives the same
    result. Read character by character: when the body is a sequence of
    lines ended by line feeds, none of which ends with the suffix once its
    trailing whitespace is left out, followed by a line made of anything
    that ends in whitespace (or of nothing), a link without whitespace that
    ends with the suffix, and whitespace, the result is that link, whatever
    follows on later lines; and when no line of the body ends with the
    suffix once its trailing whitespace is left out, the result is
    [None]. *)
Theorem poll_once_resolves (text url : str) (w : world) :
  (∃ r, poll_once (inr text) url w = ([EvGet url false], w, inr r) ∧
     match r with
     | None => ∀ l, l ∈ pointer_lines text → ¬ GKG_SUFFIX `suffix_of` l
     | Some tok =>
         ∃ pre line post, pointer_lines text = pre ++ line :: post ∧
           (∀ l, l ∈ pre → ¬ GKG_SUFFIX `suffix_of` l) ∧
           (GKG_SUFFIX `suffix_of` line) ∧ is_last_token tok line
     end)
  ∧ (∀ l, l ∈ pointer_lines text ↔
          l ≠ [] ∧ ∃ ln, ln ∈ splitlines text ∧ l = strip ln)
  ∧ (∀ size hash link,
       text = size ++ [32%N] ++ hash ++ [32%N] ++ link →
       size ≠ [] → nospace size → hash ≠ [] → nospace hash →
       nospace link → GKG_SUFFIX `suffix_of` link →
       poll_once (inr text) url w = ([EvGet url false], w, inr (Some link)))
  ∧ (∀ text', text' = text →
       poll_once (inr text') url w = poll_once (inr text) url w)
  ∧ (∀ before front link trail rest,
       text = lines_text before ++ (front ++ link ++ trail) ++ rest →
       Forall oneline before → Forall (λ l, ¬ candidate l) before →
       (front = [] ∨ ∃ f c, front = f ++ [c] ∧ isspace c = true) →
       nospace link → GKG_SUFFIX `suffix_of` link → blank trail →
       oneline (front ++ link ++ trail) →
       (rest = [] ∨ ∃ rest', rest = LF :: rest') →
       poll_once (inr text) url w = ([EvGet url false], w, inr (Some link)))
  ∧ (∀ ls l,
       text = lines_text ls ++ l →
       Forall oneline ls → oneline l →
       Forall (λ x, ¬ candidate x) (ls ++ [l]) →
       poll_once (inr text) url w = ([EvGet url false], w, inr None)).
Proof.
  split_and!.
  - rewrite poll_once_run. unfold poll_text.
    destruct (first_candidate_spec (pointer_lines text)) as (r & -> & Hr).
    exists r. split; [done|]. destruct r as [tok|].
    + destruct Hr as (pre & line & post & Heq & Hpre & Hl & Htok).
      exists pre, line, post. split_and!; try done.
      intros l Hl'. by eapply Forall_forall in Hpre.
    + intros l Hl. by eapply Forall_forall in Hr.
  - apply pointer_lines_elem.
  - intros size hash link -> ? ? ? ? ? ?. rewrite poll_once_run.
    by rewrite poll_text_three_fields.
  - by intros text' ->.
  - intros before front link trail rest -> ? ? ? ? ? ? ? ?.
    rewrite poll_once_run. by rewrite poll_text_lines.
  - intros ls l -> ? ? ?. rewrite poll_once_run.
    by rewrite poll_text_no_candidate.
Qed.

(** A pointer body of four lines: one for another archive, one of
    whitespace, the padded line of the GKG archive, and a later line that
    ends with the suffix too. *)
Definition padded_before : list str :=
  [lit "150383 297a16b4 http://host/gdeltv2/20250724144500.export.CSV.zip ";
   lit "   "].
Definition padded_front : str := [9%N] ++ lit " 318084  bb27f78b ".
Definition padded_link : str :=
  lit "http://host/gdeltv2/20250724144500.gkg.csv.zip".
Definition padded_trail : str := lit "  " ++ [9%N].
Definition padded_rest : str :=
  LF :: lit "http://host/gdeltv2/20250724150000.gkg.csv.zip".

Lemma padded_before_lines :
  Forall oneline padded_before ∧ Forall (λ l, ¬ candidate l) padded_before.
Proof.
  split.
  - repeat constructor.
  - repeat constructor; apply candidate_rstrip; by vm_compute.
Qed.

Lemma padded_line_shape :
  (padded_front = [] ∨ ∃ f c, padded_front = f ++ [c] ∧ isspace c = true)
  ∧ nospace padded_link ∧ (GKG_SUFFIX `suffix_of` padded_link)
  ∧ blank padded_trail
  ∧ oneline (padded_front ++ padded_link ++ padded_trail).
Proof.
  split_and!.
  - right. by exists ([9%N] ++ lit " 318084  bb27f78b"), 32%N.
  - repeat constructor.
  - by exists (lit "http://host/gdeltv2/20250724144500").
  - repeat constructor.
  - repeat constructor.
Qed.

Lemma poll_once_resolves_witness :
  poll_once
    (inr (lines_text padded_before
          ++ (padded_front ++ padded_link ++ padded_trail) ++ padded_rest))
    ENG_URL (init_world default_args ∅)
  = ([EvGet ENG_URL false], init_world default_args ∅,
     inr (Some padded_link)).
Proof.
  destruct padded_before_lines as [Hone Hnot].
  destruct padded_line_shape as (Hfront & Hlink & Hsuf & Htrail & Hline).
  apply (proj1 (proj2 (proj2 (proj2 (proj2 (poll_once_resolves _ ENG_URL _)))))
           padded_before padded_front padded_link padded_trail padded_rest
           eq_refl Hone Hnot Hfront Hlink Hsuf Htrail Hline).
  right. by eexists.
Defined.

(** ** The shape of a download *)

(** The events of [download_zip] before its rename: the directories, the
    request, and the temporary file opened, written chunk by chunk, and
    closed. *)
Definition streaming_event (net : get_result) (url : str) (q tmp : path)
    (ev : event) : Prop :=
  ev = EvFs (OpMkdir q) ∨ ev = EvGet url true ∨ ev = EvFs (OpOpenW tmp)
  ∨ ev = EvFs (OpClose tmp)
  ∨ ∃ data r, ev = EvFs (OpWrite tmp data) ∧ data ≠ [] ∧ net = GetResponse r
              ∧ data ∈ (iter_content r CHUNK_SIZE).1.

Section download_shape.

Implicit Types (w : world) (fs : FS) (q : path) (stem : str).

Lemma write_events_streaming r url q tmp :
  Forall (streaming_event (GetResponse r) url q tmp)
         (write_events tmp (iter_content r CHUNK_SIZE).1).
Proof.
  unfold write_events, written. apply Forall_fmap, Forall_forall.
  intros c Hc. apply list_elem_of_filter in Hc as [Hne Hc].
  do 4 right. by exists c, r.
Qed.

Lemma download_zip_shape net url q stem w t w1 r :
  SLASH ∉ stem → stem ≠ [] →
  let dest := q ++ [stem ++ lit ".zip"] in
  let tmp := q ++ [stem ++ lit ".part"] in
  download_zip net url dest w = (t, w1, r) →
  ∃ T, Forall (streaming_event net url q tmp) T ∧
    ((t = T ∧ ∃ e, r = inl e) ∨
     (t = T ++ [EvFs (OpRename tmp dest)] ∧ r = inr dest ∧
      ∃ r0 T0, net = GetResponse r0 ∧ (iter_content r0 CHUNK_SIZE).2 = None ∧
        T = T0 ++ [EvFs (OpClose tmp)] ∧
        replay T (w_fs w) !! tmp
        = Some (File (concat (iter_content r0 CHUNK_SIZE).1)))).
Proof.
  intros Hs Hne dest tmp H.
  pose proof H as Hrun. unfold dest in Hrun.
  rewrite download_zip_run in Hrun by done. fold dest tmp in Hrun.
  destruct (mkdir_p q (w_fs w)) as [e0|fs1] eqn:Hmk.
  { injection Hrun as <- <- <-. exists []. split; [done|]. left. eauto. }
  assert (Hstart : Forall (streaming_event net url q tmp)
                     [EvFs (OpMkdir q); EvGet url true]).
  { constructor; [by left|]. constructor; [right; by left|]. constructor. }
  destruct net as [e0|r0].
  { injection Hrun as <- <- <-. eexists. split; [exact Hstart|]. left. eauto. }
  simpl in Hrun.
  set (chunks := (iter_content r0 CHUNK_SIZE).1) in *.
  set (T := [EvFs (OpMkdir q); EvGet url true] ++
            EvFs (OpOpenW tmp) :: write_events tmp chunks
            ++ [EvFs (OpClose tmp)]) in *.
  assert (HT : Forall (streaming_event (GetResponse r0) url q tmp) T).
  { unfold T. apply Forall_app. split; [done|]. constructor.
    { right. right. by left. }
    apply Forall_app. split; [apply write_events_streaming|].
    constructor; [|constructor]. do 3 right. by left. }
  assert (Hreplay : ∀ old, fs1 !! tmp = old → old ≠ Some Dir →
    replay T (w_fs w) !! tmp = Some (File (concat chunks))).
  { intros old Hold Hdir.
    pose (r1 := {| iter_content := λ _, (chunks, Some OSError) |}).
    pose proof (download_zip_run (GetResponse r1) url q stem w Hs Hne) as H1.
    simpl in H1. fold dest tmp in H1. rewrite Hmk in H1. simpl in H1.
    fold T in H1.
    assert (H1' : download_zip (GetResponse r1) url dest w
                  = (T, with_fs (<[tmp:=File (concat chunks)]> fs1) w,
                     inl OSError)).
    { rewrite H1. rewrite Hold. destruct old as [[|c]|]; done. }
    apply traced_download_zip in H1'.
    change (<[tmp:=File (concat chunks)]> fs1 = replay T (w_fs w)) in H1'.
    rewrite <- H1'. by rewrite lookup_insert_eq. }
  destruct (fs1 !! tmp) as [[|old]|] eqn:Htmp.
  { injection Hrun as <- <- <-. eexists. split; [exact Hstart|]. left. eauto. }
  all: destruct ((iter_content r0 CHUNK_SIZE).2) as [e0|] eqn:Herr;
    [ injection Hrun as <- <- <-; exists T; split; [done|]; left; eauto
    | destruct (fs1 !! dest) as [[|c]|] eqn:Hd;
      [ injection Hrun as <- <- <-; exists T; split; [done|]; left; eauto
      | injection Hrun as <- <- <-; exists T; split; [done|]; right;
        split; [done|]; split; [done|];
        exists r0, ([EvFs (OpMkdir q); EvGet url true] ++
                    EvFs (OpOpenW tmp) :: write_events tmp chunks);
        split; [done|]; split; [done|];
        split; [by unfold T; rewrite <- !app_assoc|];
        eapply Hreplay; [reflexivity|done]
      | injection Hrun as <- <- <-; exists T; split; [done|]; right;
        split; [done|]; split; [done|];
        exists r0, ([EvFs (OpMkdir q); EvGet url true] ++
                    EvFs (OpOpenW tmp) :: write_events tmp chunks);
        split; [done|]; split; [done|];
        split; [by unfold T; rewrite <- !app_assoc|];
        eapply Hreplay; [reflexivity|done] ] ].
Qed.

End download_shape.

Section atomicity.

Implicit Types (w : world) (fs : FS) (q : path) (stem : str).

Lemma streaming_not_rename net url q tmp T s d :
  Forall (streaming_event net url q tmp) T → EvFs (OpRename s d) ∉ T.
Proof.
  intros HT Hin. eapply Forall_forall in HT; [|exact Hin].
  destruct HT as [?|[?|[?|[?|(?&?&?&_)]]]]; done.
Qed.

Lemma streaming_renames net url q tmp T :
  Forall (streaming_event net url q tmp) T → renames T = [].
Proof.
  induction 1 as [|ev T Hev _ IH]; [done|].
  destruct Hev as [->|[->|[->|[->|(?&?&->&_)]]]]; done.
Qed.

(** The events before the rename leave the destination as it was. *)
Lemma replay_streaming_dest net url q stem T : ∀ fs,
  Forall (streaming_event net url q (q ++ [stem ++ lit ".part"])) T →
  replay T fs !! (q ++ [stem ++ lit ".zip"])
  = fs !! (q ++ [stem ++ lit ".zip"]).
Proof.
  set (dest := q ++ [stem ++ lit ".zip"]).
  set (tmp := q ++ [stem ++ lit ".part"]).
  assert (Hneq : tmp ≠ dest) by (symmetry; apply zip_part_ne).
  induction T as [|ev T IH]; intros fs HT; [done|].
  inversion HT as [|?? Hev HT']; subst.
  destruct Hev as [->|[->|[->|[->|(data&r&->&_)]]]]; simpl.
  - destruct (mkdir_p q fs) as [e|fs'] eqn:E; [by apply IH|].
    rewrite IH by done. eapply mkdir_p_other; [done|apply snoc_not_prefix].
  - by apply IH.
  - destruct (dir_ready fs (parent tmp)); [|by apply IH].
    destruct (fs !! tmp) as [[|c]|]; rewrite IH by done;
      by rewrite ?lookup_insert_ne.
  - by apply IH.
  - destruct (fs !! tmp) as [[|c]|]; rewrite IH by done;
      by rewrite ?lookup_insert_ne.
Qed.

Lemma snoc_split {A} (t1 t2 T : list A) x :
  t1 ++ t2 = T ++ [x] →
  (t2 = [] ∧ t1 = T ++ [x]) ∨ (∃ t2', t2 = t2' ++ [x] ∧ t1 ++ t2' = T).
Proof.
  intros H. destruct t2 as [|y t2 _] using rev_ind.
  - left. by rewrite app_nil_r in H.
  - right. rewrite app_assoc in H. apply app_inj_2 in H as [H ->]; [|done].
    by exists t2.
Qed.

End atomicity.

(** C2. [download_zip] on an archive path: the temporary path is the
    destination with [.zip] replaced by [.part], in the same directory;
    every write goes to the temporary path and is one non-empty chunk of
    [iter_content(1 << 20)]; a rename happens at most once, as the last
    event, from the temporary path to the destination, right after the file
    was closed holding the whole body; after any prefix of the events,
    also of a download that raises, the destination is either as it was
    before the call or holds the whole body; a call that returns has
    closed the temporary file and renamed it, as its last two events, and
    leaves the whole body at the destination and nothing at the temporary
    path; and a call that raises has renamed nothing and leaves the
    destination as it was. *)
Theorem download_zip_atomic net url q stem w t w1 r :
  SLASH ∉ stem → stem ≠ [] →
  let dest := q ++ [stem ++ lit ".zip"] in
  let tmp := q ++ [stem ++ lit ".part"] in
  download_zip net url dest w = (t, w1, r) →
  (with_suffix dest (lit ".part") = inr tmp ∧ parent tmp = parent dest
   ∧ tmp ≠ dest)
  ∧ CHUNK_SIZE = 1048576%N
  ∧ (∀ p data, EvFs (OpWrite p data) ∈ t →
       p = tmp ∧ data ≠ [] ∧
       ∃ r0, net = GetResponse r0 ∧ data ∈ (iter_content r0 CHUNK_SIZE).1)
  ∧ (∀ t1 s d t2, t = t1 ++ EvFs (OpRename s d) :: t2 →
       s = tmp ∧ d = dest ∧ t2 = [] ∧ renames t1 = [] ∧ r = inr dest ∧
       ∃ r0 t0, net = GetResponse r0 ∧ (iter_content r0 CHUNK_SIZE).2 = None ∧
         t1 = t0 ++ [EvFs (OpClose tmp)] ∧
         replay t1 (w_fs w) !! tmp
         = Some (File (concat (iter_content r0 CHUNK_SIZE).1)))
  ∧ (∀ t1 t2, t = t1 ++ t2 →
       replay t1 (w_fs w) !! dest = w_fs w !! dest ∨
       (t2 = [] ∧ ∃ r0, net = GetResponse r0 ∧
          (iter_content r0 CHUNK_SIZE).2 = None ∧
          replay t1 (w_fs w) !! dest
          = Some (File (concat (iter_content r0 CHUNK_SIZE).1))))
  ∧ (∀ p, r = inr p →
       p = dest
       ∧ ∃ r0 t0, net = GetResponse r0
           ∧ (iter_content r0 CHUNK_SIZE).2 = None
           ∧ t = t0 ++ [EvFs (OpClose tmp); EvFs (OpRename tmp dest)]
           ∧ renames t0 = []
           ∧ w_fs w1 !! dest
             = Some (File (concat (iter_content r0 CHUNK_SIZE).1))
           ∧ w_fs w1 !! tmp = None)
  ∧ (∀ e, r = inl e → renames t = [] ∧ w_fs w1 !! dest = w_fs w !! dest).
Proof.
  intros Hs Hne dest tmp H.
  assert (Hpart : stem ++ lit ".part" ≠ []) by by destruct stem.
  assert (Hzip : stem ++ lit ".zip" ≠ []) by by destruct stem.
  assert (Hstem : SLASH ∉ stem ++ lit ".part").
  { apply not_elem_of_app. split; [done|]. compute_done. }
  assert (Hstem' : SLASH ∉ stem ++ lit ".zip").
  { apply not_elem_of_app. split; [done|]. compute_done. }
  destruct (download_zip_shape _ _ _ _ _ _ _ _ Hs Hne H) as (T & HT & Hcase).
  fold dest tmp in Hcase, HT.
  split_and!.
  - by apply with_suffix_zip.
  - unfold tmp, dest. by rewrite !parent_snoc.
  - symmetry. apply zip_part_ne.
  - done.
  - intros p data Hin.
    assert (HinT : EvFs (OpWrite p data) ∈ T).
    { destruct Hcase as [[-> _]|[-> _]]; [done|].
      apply elem_of_app in Hin as [?|Hin]; [done|].
      apply list_elem_of_singleton in Hin. done. }
    eapply Forall_forall in HT; [|exact HinT].
    destruct HT as [?|[?|[?|[?|(data'&r0&E&Hd&Hn&Hc)]]]]; try done.
    injection E as -> ->. split; [done|]. split; [done|]. by exists r0.
  - intros t1 s d t2 Ht. destruct Hcase as [[-> _]|(-> & -> & Hok)].
    + exfalso. eapply (streaming_not_rename _ _ _ _ _ s d HT).
      rewrite Ht. apply elem_of_app. right. left.
    + change (t1 ++ EvFs (OpRename s d) :: t2)
        with (t1 ++ [EvFs (OpRename s d)] ++ t2) in Ht.
      rewrite app_assoc in Ht. symmetry in Ht.
      apply snoc_split in Ht as [[-> Ht]|(t2' & -> & Ht)].
      * apply app_inj_2 in Ht as [-> [= -> ->]]; [|done].
        destruct Hok as (r0 & T0 & ? & ? & ? & ?).
        split_and!; try done; [by eapply streaming_renames|].
        by exists r0, T0.
      * exfalso. eapply (streaming_not_rename _ _ _ _ _ s d HT).
        rewrite <- Ht. apply elem_of_app. left. apply elem_of_app. right. left.
  - intros t1 t2 Ht. destruct Hcase as [[-> _]|(-> & -> & Hok)].
    + left. subst T. apply Forall_app in HT as [HT _].
      by eapply replay_streaming_dest.
    + symmetry in Ht. apply snoc_split in Ht as [[-> ->]|(t2' & -> & <-)].
      * right. split; [done|].
        destruct (download_zip_returns _ _ _ _ _ _ _ _ Hs Hne H)
          as (_ & _ & (r0 & t0 & ? & ? & Hd & _) & _).
        exists r0. split_and!; try done.
        by rewrite <- (traced_download_zip _ _ _ _ _ _ _ H).
      * left. apply Forall_app in HT as [HT _].
        by eapply replay_streaming_dest.
  - intros p ->.
    destruct (download_zip_returns _ _ _ _ _ _ _ _ Hs Hne H)
      as (-> & _ & (r0 & t0 & Hnet & Herr & Hbody & _ & _) & Hgone & _).
    split; [done|]. fold dest tmp in Hbody, Hgone.
    destruct Hcase as [[_ [e ?]]|(-> & _ & r1 & T0 & Hnet' & _ & -> & _)];
      [done|].
    exists r0, T0. split_and!; try done.
    + by rewrite <- app_assoc.
    + apply Forall_app in HT as [HT _]. by eapply streaming_renames.
  - intros e ->.
    destruct (download_zip_raises _ _ _ _ _ _ _ _ Hs Hne H)
      as (_ & Hdest & _ & Hren).
    done.
Qed.

(** A download of the archive of the end-to-end scenario whose body stops
    after two chunks. *)
Definition broken_response : response :=
  {| iter_content := λ _,
       ([["P"%byte; "K"%byte]; ["x"%byte]], Some RequestException) |}.

(** A complete body of three chunks, the second one empty. *)
Definition scenario_response : response :=
  {| iter_content := λ _, ([["P"%byte; "K"%byte]; []; ["x"%byte]], None) |}.

Definition scenario_dir : path := [lit "data"; lit "2025"; lit "rawdata_en"].
Definition scenario_stem : str := lit "20250724144500.gkg.csv".
Definition scenario_url : str :=
  lit "http://host/gdeltv2/20250724144500.gkg.csv.zip".

Lemma triple_eta {A B C} (x : A * B * C) : x = (x.1.1, x.1.2, x.2).
Proof. by destruct x as [[??]?]. Qed.

Lemma triple_with {A B C} (x : A * B * C) (c : C) :
  x.2 = c → x = (x.1.1, x.1.2, c).
Proof. intros <-. apply triple_eta. Qed.

Lemma scenario_download_returns :
  (download_zip (GetResponse scenario_response) scenario_url
     (scenario_dir ++ [scenario_stem ++ lit ".zip"])
     (init_world default_args ∅)).2
  = inr (scenario_dir ++ [scenario_stem ++ lit ".zip"]).
Proof. by vm_compute. Qed.

Lemma download_zip_atomic_witness :
  let w := init_world default_args ∅ in
  let dest := scenario_dir ++ [scenario_stem ++ lit ".zip"] in
  let tmp := scenario_dir ++ [scenario_stem ++ lit ".part"] in
  let out := download_zip (GetResponse broken_response) scenario_url dest w in
  let ok := download_zip (GetResponse scenario_response) scenario_url dest w in
  (replay out.1.1 (w_fs w) !! dest = None
   ∧ replay out.1.1 (w_fs w) !! tmp
     = Some (File ["P"%byte; "K"%byte; "x"%byte]))
  ∧ (w_fs ok.1.2 !! dest = Some (File ["P"%byte; "K"%byte; "x"%byte])
     ∧ w_fs ok.1.2 !! tmp = None).
Proof.
  intros w dest tmp out ok.
  assert (Hs : SLASH ∉ scenario_stem) by compute_done.
  assert (Hne : scenario_stem ≠ []) by discriminate.
  split.
  - destruct (download_zip_atomic (GetResponse broken_response) scenario_url
                scenario_dir scenario_stem w _ _ _ Hs Hne (triple_eta out))
      as (_ & _ & _ & _ & Hprefix & _).
    destruct (Hprefix out.1.1 [] (eq_sym (app_nil_r _)))
      as [Hl|(_ & r0 & E & He & _)].
    + split; [exact Hl|]. by vm_compute.
    + injection E as <-. discriminate He.
  - destruct (download_zip_atomic (GetResponse scenario_response) scenario_url
                scenario_dir scenario_stem w _ _ _ Hs Hne (triple_eta ok))
      as (_ & _ & _ & _ & _ & Hret & _).
    destruct (Hret _ scenario_download_returns)
      as (_ & r0 & t0 & E & _ & _ & _ & Hbody & Hgone).
    injection E as <-. exact (conj Hbody Hgone).
Defined.

(** ** Where a step reads and writes *)


(** Events of an extraction into [out]. *)
Definition extract_under (out : path) (ev : event) : Prop :=
  match ev with
  | EvFs (OpMkdir d) => d = out
  | EvFs (OpPut p _) => out `prefix_of` p
  | _ => False
  end.

Definition any_world : world → world → Prop := λ _ _, True.

Section layout.

Implicit Types (a : Args) (k : kind) (w : world) (name link : str).

#[global] Instance any_world_refl : Reflexive any_world.
Proof. done. Qed.

#[global] Instance any_world_trans : Transitive any_world.
Proof. done. Qed.

Local Ltac rapply lem := apply lem; try (solve [apply _]).

Lemma extract_zip_under env zip out :
  respects any_world (extract_under out) (extract_zip env zip out).
Proof.
  assert (Hput : ∀ ms,
    respects any_world (extract_under out) (put_members out ms)).
  { induction ms as [|[rel data] ms IH]; simpl; [rapply respects_ret|].
    rapply respects_bind; [|intros ?; exact IH].
    rapply respects_do_op; [|done]. simpl. by exists rel. }
  unfold extract_zip. rapply respects_bind; [by rapply respects_do_op|].
  intros ?. rapply respects_bind; [rapply respects_get_world|].
  intros w. destruct (w_fs w !! zip) as [[|c]|]; try rapply respects_raise.
  rapply respects_bind; [exact (Hput _)|].
  intros ?. destruct (archive_error env);
    [rapply respects_raise|rapply respects_ret].
Qed.





End layout.

Section layout_strings.

Implicit Types (x y z : str).



End layout_strings.

Section stored.

Implicit Types (a : Args) (k : kind) (w : world) (name link : str)
  (fs : FS) (p z : path).


Lemma joinpath_anchored p rest :
  p </> (SLASH :: rest) = Path (SLASH :: rest).
Proof.
  unfold joinpath, Path, parse_part, splitroot.
  rewrite N.eqb_refl.
  by destruct (length (SLASH :: rest) - length (lstrip_sep (SLASH :: rest))
               =? 2)%nat.
Qed.






End stored.

(** The end-to-end scenario of the specification: the English pointer
    names one archive, which downloads and extracts. *)
Definition scenario_env : stream_env :=
  {| poll_result :=
       inr (lit "1234 abcd1234 http://host/gdeltv2/20250724144500.gkg.csv.zip");
     exists_error := None;
     download_result := GetResponse scenario_response;
     archive_members := [([lit "20250724144500.gkg.csv"], ["r"%byte])];
     archive_error := None |}.

Definition scenario_name : str := lit "20250724144500.gkg.csv.zip".









(** ** Malformed pointers *)

Definition malformed_env : stream_env :=
  {| poll_result := inr (lit "no archive listed here");
     exists_error := None;
     download_result := GetRaises RequestException;
     archive_members := [];
     archive_error := None |}.

Definition malformed_cycle : cycle_env :=
  {| eng_env := malformed_env; trans_env := malformed_env;
     sleep_interrupted := false; handler_sleep_interrupted := false;
     external := id |}.

(** C5, as the code has it. When the resolver returns [None], the step of
    the stream ends normally with the state unchanged, whatever the
    configuration: with [ignore_malformed] nothing is logged, without it a
    warning is logged; in both cases the stream is skipped and nothing is
    raised. *)
Theorem malformed_pointer_skipped a k env w text :
  poll_result env = inr text → poll_text text = inr None →
  stream_step a k env w
  = (polled a k
       ++ (if ignore_malformed a then []
           else [EvLog WARNING (LogUnexpected k)]),
     w, inr tt).
Proof. apply stream_step_malformed. Qed.

Lemma malformed_pointer_skipped_witness :
  stream_step default_args ENG malformed_env (init_world default_args ∅)
  = ([EvGet ENG_URL false; EvLog WARNING (LogUnexpected ENG)],
     init_world default_args ∅, inr tt).
Proof.
  apply (malformed_pointer_skipped default_args ENG malformed_env
           (init_world default_args ∅) (lit "no archive listed here")).
  - reflexivity.
  - by vm_compute.
Defined.

(** C5 as stated fails: without [ignore_malformed], two cycles in which
    both pointers are malformed run to their end; the process logs the two
    warnings, sleeps, polls again, and is still running. *)
Lemma malformed_not_fatal_counterexample :
  ignore_malformed default_args = false
  ∧ poll_text (lit "no archive listed here") = inr None
  ∧ run default_args ∅ [malformed_cycle; malformed_cycle]
    = ([EvGet ENG_URL false; EvLog WARNING (LogUnexpected ENG);
        EvGet TRANS_URL false; EvLog WARNING (LogUnexpected TRANS);
        EvSleep 120;
        EvGet ENG_URL false; EvLog WARNING (LogUnexpected ENG);
        EvGet TRANS_URL false; EvLog WARNING (LogUnexpected TRANS);
        EvSleep 120],
       init_world default_args ∅, inr tt).
Proof. split_and!; by vm_compute. Qed.

(** ** Seen sets only grow *)

Definition seen_grows (w w' : world) : Prop :=
  seen_eng w ⊆ seen_eng w' ∧ seen_trans w ⊆ seen_trans w'.

Definition any_event : event → Prop := λ _, True.

Section seen.

Implicit Types (a : Args) (k : kind) (w : world) (name : str).

#[global] Instance seen_grows_refl : Reflexive seen_grows.
Proof. by intros w. Qed.

#[global] Instance seen_grows_trans : Transitive seen_grows.
Proof. intros w1 w2 w3 [??] [??]. split; by etrans. Qed.

Lemma seen_grows_elem k name w w' :
  seen_grows w w' → name ∈ seen_of k w → name ∈ seen_of k w'.
Proof. intros [??]. destruct k; set_solver. Qed.

Lemma add_seen_elem k name w : name ∈ seen_of k (add_seen k name w).
Proof. destruct k; set_solver. Qed.

Lemma add_seen_other k name w x :
  x ∈ seen_of k (add_seen k name w) ↔ x = name ∨ x ∈ seen_of k w.
Proof. destruct k; set_solver. Qed.

Lemma same_vars_seen w w' k : same_vars w w' → seen_of k w' = seen_of k w.
Proof. intros (?&?&?). by destruct k. Qed.

Lemma same_vars_grows w w' : same_vars w w' → seen_grows w w'.
Proof. intros (H1 & H2 & _). unfold seen_grows. by rewrite H1, H2. Qed.

Local Ltac rapply lem := apply lem; try (solve [apply _]).

Lemma respects_weaken {A} (R R' : world → world → Prop) (P P' : event → Prop)
    (m : M A) :
  (∀ w w', R w w' → R' w w') → (∀ ev, P ev → P' ev) →
  respects R P m → respects R' P' m.
Proof.
  intros HR HP Hm w t w' r H. destruct (Hm _ _ _ _ H) as [? Ht].
  split; [by apply HR|]. eapply Forall_impl; [exact Ht|]. done.
Qed.

(** [download_zip] changes nothing but the disk. *)
Lemma download_zip_same_vars net url dest :
  respects same_vars any_event (download_zip net url dest).
Proof.
  assert (Hop : ∀ op, respects same_vars any_event (do_op op)).
  { intros op. by rapply respects_do_op. }
  assert (Hw : ∀ tmp chunks,
    respects same_vars any_event (write_chunks tmp chunks)).
  { intros tmp chunks. induction chunks as [|c chunks IH]; simpl.
    - rapply respects_ret.
    - rapply respects_bind; [|intros ?; exact IH].
      destruct c; [rapply respects_ret|apply Hop]. }
  unfold download_zip. rapply respects_bind; [apply Hop|]. intros ?.
  rapply respects_bind; [rapply respects_lift|]. intros tmp.
  rapply respects_bind; [by rapply respects_emit|]. intros ?.
  destruct net as [e|r]; [rapply respects_raise|].
  destruct (iter_content r CHUNK_SIZE) as [chunks err].
  rapply respects_bind; [apply Hop|]. intros ?.
  rapply respects_bind.
  - rapply respects_finally; [|apply Hop].
    rapply respects_bind; [apply Hw|]. intros ?.
    destruct err; [rapply respects_raise|rapply respects_ret].
  - intros ?. rapply respects_bind; [apply Hop|]. intros ?.
    rapply respects_ret.
Qed.

Lemma obtain_zip_same_vars k env link name zip :
  respects same_vars any_event (obtain_zip k env link name zip).
Proof.
  unfold obtain_zip. rapply respects_bind; [rapply respects_path_exists|].
  intros w. rapply respects_if.
  - rapply respects_bind; [by rapply respects_emit|]. intros ?.
    rapply respects_ret.
  - rapply respects_bind; [by rapply respects_emit|]. intros ?.
    rapply respects_try.
    + rapply respects_bind; [apply download_zip_same_vars|]. intros ?.
      rapply respects_bind; [by rapply respects_emit|]. intros ?.
      rapply respects_ret.
    + intros e. rapply respects_bind; [by rapply respects_emit|]. intros ?.
      rapply respects_ret.
Qed.

Lemma extract_step_same_vars a k env name zip :
  respects same_vars any_event (extract_step a k env name zip).
Proof.
  unfold extract_step. rapply respects_if; [rapply respects_ret|].
  rapply respects_try.
  - rapply respects_bind.
    + eapply respects_weaken; [| |apply extract_zip_grows].
      * by intros w w' [? _].
      * done.
    + intros ?. by rapply respects_emit.
  - intros e. by rapply respects_emit.
Qed.

(** A step keeps [backoff] and never forgets a name. *)
Definition step_frame (w w' : world) : Prop :=
  seen_grows w w' ∧ backoff w' = backoff w.

#[global] Instance step_frame_refl : Reflexive step_frame.
Proof. by intros w. Qed.

#[global] Instance step_frame_trans : Transitive step_frame.
Proof. intros w1 w2 w3 [??] [??]. split; [by etrans|congruence]. Qed.

Lemma same_vars_step_frame w w' : same_vars w w' → step_frame w w'.
Proof. intros H. split; [by apply same_vars_grows|by destruct H as (_&_&?)]. Qed.

Lemma stream_step_frame a k env :
  respects step_frame any_event (stream_step a k env).
Proof.
  unfold stream_step, poll_once.
  rapply respects_bind.
  { rapply respects_if; [by rapply respects_emit|rapply respects_ret]. }
  intros ?. rapply respects_bind.
  { rapply respects_bind; [by rapply respects_emit|]. intros ?.
    rapply respects_bind; [rapply respects_lift|]. intros ?.
    rapply respects_lift. }
  intros zip_link. rapply respects_if.
  { rapply respects_if; [rapply respects_ret|by rapply respects_emit]. }
  rapply respects_bind; [rapply respects_lift|]. intros name.
  rapply respects_bind; [rapply respects_get_world|]. intros w.
  rapply respects_if; [rapply respects_ret|].
  rapply respects_bind.
  { eapply respects_weaken; [apply same_vars_step_frame| |
      apply obtain_zip_same_vars]. done. }
  intros [].
  - rapply respects_bind.
    { eapply respects_weaken; [apply same_vars_step_frame| |
        apply extract_step_same_vars]. done. }
    intros ?. rapply respects_modify. intros w0.
    split; [|by destruct k]. split; destruct k; set_solver.
  - rapply respects_ret.
Qed.

End seen.

Section seen_cycles.

Implicit Types (a : Args) (k : kind) (w : world) (name : str).

Local Ltac rapply lem := apply lem; try (solve [apply _]).

Lemma sleep_same_vars secs i : respects same_vars any_event (sleep secs i).
Proof.
  unfold sleep. rapply respects_if; [rapply respects_raise|].
  rapply respects_if; [rapply respects_raise|].
  rapply respects_bind; [by rapply respects_emit|]. intros ?.
  rapply respects_if; [rapply respects_raise|rapply respects_ret].
Qed.

Lemma cycle_seen_grows a env : respects seen_grows any_event (cycle a env).
Proof.
  assert (Hstep : ∀ k e, respects seen_grows any_event (stream_step a k e)).
  { intros k e. eapply respects_weaken; [| |apply stream_step_frame].
    - by intros w w' [? _].
    - done. }
  assert (Hsleep : ∀ s i, respects seen_grows any_event (sleep s i)).
  { intros s i. eapply respects_weaken; [| |apply sleep_same_vars].
    - apply same_vars_grows.
    - done. }
  unfold cycle, cycle_body, cycle_handler. rapply respects_try.
  - rapply respects_bind; [apply Hstep|]. intros ?.
    rapply respects_bind; [apply Hstep|]. intros ?.
    rapply respects_bind; [apply Hsleep|]. intros ?.
    by rapply respects_modify.
  - intros e. rapply respects_if; [|rapply respects_if].
    + rapply respects_bind; [rapply respects_get_world|]. intros w.
      rapply respects_bind; [by rapply respects_emit|]. intros ?.
      rapply respects_bind; [apply Hsleep|]. intros ?.
      by rapply respects_modify.
    + rapply respects_bind; [by rapply respects_emit|]. intros ?.
      rapply respects_raise.
    + rapply respects_bind; [by rapply respects_emit|]. intros ?.
      rapply respects_bind.
      { rapply respects_if; [rapply respects_raise|rapply respects_ret]. }
      intros ?. rapply respects_bind; [rapply respects_get_world|].
      intros w. apply Hsleep.
Qed.

(** Whatever the loop does, and whatever others do to the disk, a name
    once seen stays seen. *)
Lemma run_cycles_seen_grows a envs :
  respects seen_grows any_event (run_cycles a envs).
Proof.
  induction envs as [|env envs IH]; simpl; [rapply respects_ret|].
  rapply respects_bind; [by rapply respects_modify|]. intros ?.
  rapply respects_bind; [apply cycle_seen_grows|]. intros ?. exact IH.
Qed.

(** A name that is seen: the step polls and does nothing else. *)
Lemma stream_step_seen a k env w text link name :
  poll_result env = inr text → poll_text text = inr (Some link) →
  safe_filename link = inr name → name ∈ seen_of k w →
  stream_step a k env w = (polled a k, w, inr tt).
Proof.
  intros Hp Ht Hn Hseen.
  rewrite (stream_step_resolved _ _ _ _ _ _ _ Hp Ht Hn).
  by rewrite bool_decide_eq_true_2.
Qed.

End seen_cycles.

(** C6. When the download of an unseen artifact whose archive is not on
    disk ([exists()] answers that it is not there) raises an exception of
    class [Exception]: the step logs the error
    and ends normally; the seen sets and [backoff] are as before, so the
    name is still unseen; the archive path is still absent and nothing was
    renamed into place; and in any later state where the name is unseen and
    the archive path absent, a step that resolves the same pointer calls
    [download_zip] again. *)
Theorem download_failure_retried a k env w text link name td wd e :
  poll_result env = inr text → poll_text text = inr (Some link) →
  safe_filename link = inr name →
  name ∉ seen_of k w →
  exists_error env = None → w_fs w !! zip_path_of a k name = None →
  download_zip (download_result env) link (zip_path_of a k name) w
  = (td, wd, inl e) →
  is_Exception e = true →
  stream_step a k env w
  = (polled a k ++ EvLog INFO (LogDownloading k name) :: td
       ++ [EvLog ERROR (LogDownloadFailed k name e)], wd, inr tt)
  ∧ same_vars w wd ∧ (name ∉ seen_of k wd)
  ∧ w_fs wd !! zip_path_of a k name = None ∧ renames td = []
  ∧ ∀ env' w2, poll_result env' = inr text →
      name ∉ seen_of k w2 →
      exists_error env' = None → w_fs w2 !! zip_path_of a k name = None →
      ∃ td' wd' rd' rest w' r',
        download_zip (download_result env') link (zip_path_of a k name) w2
        = (td', wd', rd')
        ∧ stream_step a k env' w2
          = (polled a k ++ EvLog INFO (LogDownloading k name) :: td' ++ rest,
             w', r').
Proof.
  intros Hp Ht Hn Hseen Hex Habs Hd He.
  pose proof (resolved_archive_name _ _ _ Ht Hn) as Harch.
  destruct (archive_name_stem _ Harch) as (stem & Hstem & Hne & Hs & _).
  assert (Hfail : same_vars w wd ∧ w_fs wd !! zip_path_of a k name = None
                  ∧ renames td = []).
  { revert Hd Habs. rewrite zip_path_of_snoc by done. rewrite Hstem.
    intros Hd Habs.
    destruct (download_zip_raises _ _ _ _ _ _ _ _ Hs Hne Hd)
      as (Hv & Hdest & _ & Hren).
    split; [done|]. split; [congruence|done]. }
  destruct Hfail as (Hv & Hdest & Hren).
  split_and!; try done.
  - rewrite (stream_step_resolved _ _ _ _ _ _ _ Hp Ht Hn).
    rewrite bool_decide_eq_false_2 by done. rewrite obtain_zip_run, Hex.
    unfold fs_exists. rewrite Habs, Hd, He. done.
  - by rewrite (same_vars_seen _ _ k Hv).
  - intros env' w2 Hp' Hseen' Hex' Habs'.
    destruct (download_zip (download_result env') link (zip_path_of a k name)
                w2) as [[td' wd'] rd'] eqn:Hd'.
    rewrite (stream_step_resolved _ _ _ _ _ _ _ Hp' Ht Hn).
    rewrite bool_decide_eq_false_2 by done. rewrite obtain_zip_run, Hex'.
    unfold fs_exists. rewrite Habs', Hd'.
    exists td', wd', rd'.
    destruct rd' as [e'|p].
    + destruct (is_Exception e').
      * eexists _, _, _. split; [done|]. done.
      * exists [], wd', (inl e'). split; [done|]. by rewrite app_nil_r.
    + destruct (extract_step a k env' name (zip_path_of a k name) wd')
        as [[t2 w2'] [e2|[]]]; eexists _, _, _; (split; [done|]);
        simpl; by rewrite <- app_assoc.
Qed.

Definition broken_env : stream_env :=
  {| poll_result :=
       inr (lit "1234 abcd1234 http://host/gdeltv2/20250724144500.gkg.csv.zip");
     exists_error := None;
     download_result := GetResponse broken_response;
     archive_members := [];
     archive_error := None |}.

Lemma scenario_resolves :
  poll_text
    (lit "1234 abcd1234 http://host/gdeltv2/20250724144500.gkg.csv.zip")
  = inr (Some scenario_url).
Proof. by vm_compute. Qed.

Lemma scenario_filename : safe_filename scenario_url = inr scenario_name.
Proof. by vm_compute. Qed.

Lemma broken_download_raises :
  (download_zip (GetResponse broken_response) scenario_url
     (zip_path_of default_args ENG scenario_name)
     (init_world default_args ∅)).2
  = inl RequestException.
Proof. by vm_compute. Qed.

Lemma download_failure_retried_witness :
  let d := download_zip (GetResponse broken_response) scenario_url
             (zip_path_of default_args ENG scenario_name)
             (init_world default_args ∅) in
  (scenario_name ∉ seen_of ENG d.1.2)
  ∧ w_fs d.1.2 !! zip_path_of default_args ENG scenario_name = None.
Proof.
  intros d.
  destruct (download_failure_retried default_args ENG broken_env
              (init_world default_args ∅)
              (lit "1234 abcd1234 http://host/gdeltv2/20250724144500.gkg.csv.zip")
              scenario_url scenario_name d.1.1 d.1.2 RequestException)
    as (_ & _ & Hseen & Hdest & _).
  - reflexivity.
  - exact scenario_resolves.
  - exact scenario_filename.
  - apply not_elem_of_empty.
  - reflexivity.
  - apply lookup_empty.
  - rewrite <- broken_download_raises. apply triple_eta.
  - reflexivity.
  - exact (conj Hseen Hdest).
Defined.

(** ** Extraction failures *)

Section extract_failure.

Implicit Types (a : Args) (k : kind) (w : world) (name : str).

(** When [obtain_zip] says the archive is there, it is. *)
Lemma obtain_zip_true k env link q stem w t1 w1 :
  SLASH ∉ stem → stem ≠ [] →
  obtain_zip k env link (stem ++ lit ".zip") (q ++ [stem ++ lit ".zip"]) w
  = (t1, w1, inr true) →
  same_vars w w1 ∧ is_Some (w_fs w1 !! (q ++ [stem ++ lit ".zip"])).
Proof.
  intros Hs Hne. rewrite obtain_zip_run.
  destruct (exists_error env) as [e0|]; [done|]. unfold fs_exists.
  destruct (w_fs w !! (q ++ [stem ++ lit ".zip"])) as [n|] eqn:E.
  - intros [= <- <-]. split; [done|]. rewrite E. by eexists.
  - destruct (download_zip (download_result env) link
                (q ++ [stem ++ lit ".zip"]) w) as [[td wd] [e|p]] eqn:Hd.
    + by destruct (is_Exception e).
    + intros [= <- <-].
      destruct (download_zip_returns _ _ _ _ _ _ _ _ Hs Hne Hd)
        as (_ & Hv & (r & t0 & _ & _ & Hfile & _) & _).
      split; [done|]. rewrite Hfile. by eexists.
Qed.

End extract_failure.

(** C7. When the extraction of an artifact whose archive is at hand (found
    on disk or just downloaded) raises an exception of class [Exception]:
    the step logs the error, adds the name to the seen set of the stream,
    and ends normally; the archive path still exists, untouched when the
    archive could not be read at all; and in every later state of the
    process a step that resolves the same name does nothing beyond polling,
    so the extraction is not tried again. *)
Theorem extract_failure_marks_seen a k env w text link name t1 w1 te we e :
  poll_result env = inr text → poll_text text = inr (Some link) →
  safe_filename link = inr name →
  name ∉ seen_of k w → skip_extract a = false →
  obtain_zip k env link name (zip_path_of a k name) w = (t1, w1, inr true) →
  extract_zip env (zip_path_of a k name) (out_dir_of a k name) w1
  = (te, we, inl e) →
  is_Exception e = true →
  stream_step a k env w
  = (polled a k ++ t1 ++ te ++ [EvLog ERROR (LogExtractFail k e)],
     add_seen k name we, inr tt)
  ∧ name ∈ seen_of k (add_seen k name we)
  ∧ is_Some (w_fs (add_seen k name we) !! zip_path_of a k name)
  ∧ (archive_members env = [] →
     w_fs (add_seen k name we) !! zip_path_of a k name
     = w_fs w1 !! zip_path_of a k name)
  ∧ (∀ envs tl wl rl env',
       run_cycles a envs (add_seen k name we) = (tl, wl, rl) →
       poll_result env' = inr text →
       stream_step a k env' wl = (polled a k, wl, inr tt)).
Proof.
  intros Hp Ht Hn Hseen Hskip Ho Hx He.
  pose proof (resolved_archive_name _ _ _ Ht Hn) as Harch.
  destruct (archive_name_stem _ Harch) as (stem & Hstem & Hne & Hs & _).
  assert (Hthere : is_Some (w_fs w1 !! zip_path_of a k name)).
  { revert Ho. rewrite zip_path_of_snoc by done. rewrite Hstem. intros Ho.
    by destruct (obtain_zip_true _ _ _ _ _ _ _ _ Hs Hne Ho). }
  destruct (extract_zip_grows _ _ _ _ _ _ _ Hx) as [[_ Hkeep] _].
  assert (Hfs : w_fs (add_seen k name we) = w_fs we) by by destruct k.
  split_and!.
  - rewrite (stream_step_resolved _ _ _ _ _ _ _ Hp Ht Hn).
    rewrite bool_decide_eq_false_2 by done. rewrite Ho.
    rewrite extract_step_run, Hskip, Hx, He. by rewrite <- ?app_assoc.
  - apply add_seen_elem.
  - rewrite Hfs. by apply Hkeep.
  - intros Hm. rewrite Hfs. destruct Hthere as [n Hn1]. rewrite Hn1.
    by eapply extract_zip_unreadable.
  - intros envs tl wl rl env' Hrun Hp'.
    eapply stream_step_seen; eauto.
    destruct (run_cycles_seen_grows _ _ _ _ _ _ Hrun) as [Hg _].
    eapply seen_grows_elem; [exact Hg|]. apply add_seen_elem.
Qed.

Definition corrupt_env : stream_env :=
  {| poll_result :=
       inr (lit "1234 abcd1234 http://host/gdeltv2/20250724144500.gkg.csv.zip");
     exists_error := None;
     download_result := GetResponse scenario_response;
     archive_members := [];
     archive_error := Some BadZipFile |}.

Lemma corrupt_obtained :
  (obtain_zip ENG corrupt_env scenario_url scenario_name
     (zip_path_of default_args ENG scenario_name)
     (init_world default_args ∅)).2
  = inr true.
Proof. by vm_compute. Qed.

Lemma corrupt_extract_raises :
  (extract_zip corrupt_env (zip_path_of default_args ENG scenario_name)
     (out_dir_of default_args ENG scenario_name)
     (obtain_zip ENG corrupt_env scenario_url scenario_name
        (zip_path_of default_args ENG scenario_name)
        (init_world default_args ∅)).1.2).2
  = inl BadZipFile.
Proof. by vm_compute. Qed.

Lemma extract_failure_marks_seen_witness :
  let o := obtain_zip ENG corrupt_env scenario_url scenario_name
             (zip_path_of default_args ENG scenario_name)
             (init_world default_args ∅) in
  let x := extract_zip corrupt_env
             (zip_path_of default_args ENG scenario_name)
             (out_dir_of default_args ENG scenario_name) o.1.2 in
  scenario_name ∈ seen_of ENG (add_seen ENG scenario_name x.1.2)
  ∧ is_Some (w_fs (add_seen ENG scenario_name x.1.2)
               !! zip_path_of default_args ENG scenario_name).
Proof.
  intros o x.
  destruct (extract_failure_marks_seen default_args ENG corrupt_env
              (init_world default_args ∅)
              (lit "1234 abcd1234 http://host/gdeltv2/20250724144500.gkg.csv.zip")
              scenario_url scenario_name o.1.1 o.1.2 x.1.1 x.1.2 BadZipFile)
    as (_ & Hseen & Hthere & _).
  - reflexivity.
  - exact scenario_resolves.
  - exact scenario_filename.
  - apply not_elem_of_empty.
  - reflexivity.
  - rewrite <- corrupt_obtained. apply triple_eta.
  - rewrite <- corrupt_extract_raises. apply triple_eta.
  - reflexivity.
  - exact (conj Hseen Hthere).
Defined.

(** ** The scheduler *)

(** The interval after [n] consecutive retryable failures, from [b]. *)
Definition next_backoff (b : Z) : Z := Z.min (b * 2) 1800.


(** The lengths of the sleeps of a trace, in order. *)
Definition sleeps (t : list event) : list Z :=
  omap (λ ev, match ev with EvSleep s => Some s | _ => None end) t.


Section scheduler.

Implicit Types (a : Args) (env : cycle_env) (w : world).

Lemma cycle_run a env w :
  cycle a env w =
  match cycle_body a env w with
  | (t, w1, inr _) => (t, w1, inr tt)
  | (t, w1, inl e) =>
      if is_retryable e || bool_decide (e = KeyboardInterrupt)
         || is_Exception e
      then
        match cycle_handler a env e w1 with
        | (t', w', r) => (t ++ t', w', r)
        end
      else (t, w1, inl e)
  end.
Proof.
  unfold cycle, try_except.
  by destruct (cycle_body a env w) as [[t w1] [e|[]]].
Qed.

Lemma sleep_run secs i w :
  sleep secs i w =
  if (secs <? - SLEEP_MAX) || (SLEEP_MAX <? secs)
  then ([], w, inl OverflowError)
  else if secs <? 0 then ([], w, inl ValueError)
  else if i then ([EvSleep secs], w, inl KeyboardInterrupt)
  else ([EvSleep secs], w, inr tt).
Proof.
  unfold sleep. destruct ((secs <? - SLEEP_MAX) || (SLEEP_MAX <? secs)); [done|].
  destruct (secs <? 0); [done|]. by destruct i.
Qed.

(** A length [time.sleep] takes. *)
Lemma sleep_in_range secs i w :
  0 ≤ secs ≤ SLEEP_MAX →
  sleep secs i w
  = if i then ([EvSleep secs], w, inl KeyboardInterrupt)
    else ([EvSleep secs], w, inr tt).
Proof.
  intros H. rewrite sleep_run.
  assert ((secs <? - SLEEP_MAX) = false) as -> by (unfold SLEEP_MAX in *; lia).
  assert ((SLEEP_MAX <? secs) = false) as -> by lia.
  assert ((secs <? 0) = false) as -> by lia. done.
Qed.

(** A length [time.sleep] refuses: the exception it raises. *)
Definition sleep_refusal (secs : Z) : exn :=
  if (secs <? - SLEEP_MAX) || (SLEEP_MAX <? secs) then OverflowError
  else ValueError.

Lemma sleep_refusal_class secs :
  is_retryable (sleep_refusal secs) = false
  ∧ sleep_refusal secs ≠ KeyboardInterrupt
  ∧ is_Exception (sleep_refusal secs) = true.
Proof.
  unfold sleep_refusal.
  destruct ((secs <? - SLEEP_MAX) || (SLEEP_MAX <? secs)); by split_and!.
Qed.

Lemma sleep_out_of_range secs i w :
  secs < 0 ∨ SLEEP_MAX < secs →
  sleep secs i w = ([], w, inl (sleep_refusal secs)).
Proof.
  intros H. rewrite sleep_run. unfold sleep_refusal.
  destruct ((secs <? - SLEEP_MAX) || (SLEEP_MAX <? secs)) eqn:E; [done|].
  apply orb_false_iff in E as [_ E].
  assert ((secs <? 0) = true) as -> by lia. done.
Qed.

Lemma sleep_world secs i w t w' r : sleep secs i w = (t, w', r) → w' = w.
Proof.
  rewrite sleep_run.
  destruct ((secs <? - SLEEP_MAX) || (SLEEP_MAX <? secs));
    [by intros [= <- <- <-]|].
  destruct (secs <? 0); [by intros [= <- <- <-]|].
  by destruct i; intros [= <- <- <-].
Qed.

Lemma sleep_returns secs i w t w' :
  sleep secs i w = (t, w', inr tt) →
  0 ≤ secs ≤ SLEEP_MAX ∧ i = false ∧ t = [EvSleep secs] ∧ w' = w.
Proof.
  rewrite sleep_run.
  destruct ((secs <? - SLEEP_MAX) || (SLEEP_MAX <? secs)) eqn:E; [done|].
  apply orb_false_iff in E as [_ E].
  destruct (secs <? 0) eqn:E0; [done|].
  destruct i; [done|]. intros [= <- <-]. split; [lia|done].
Qed.

(** The body of a cycle that raises has left [backoff] alone; the body of
    a cycle that completes ends with the sleep and the reset. *)
Lemma cycle_body_raises a env w t w1 e :
  cycle_body a env w = (t, w1, inl e) → backoff w1 = backoff w.
Proof.
  unfold cycle_body. rewrite bind_run.
  destruct (stream_step a ENG (eng_env env) w) as [[t1 w2] [e1|[]]] eqn:E1.
  { intros [= <- <- <-]. by destruct (stream_step_frame _ _ _ _ _ _ _ E1) as [[_ ?] _]. }
  destruct (stream_step_frame _ _ _ _ _ _ _ E1) as [[_ Hb1] _].
  rewrite bind_run.
  destruct (stream_step a TRANS (trans_env env) w2) as [[t2 w3] [e2|[]]] eqn:E2.
  { intros [= <- <- <-].
    destruct (stream_step_frame _ _ _ _ _ _ _ E2) as [[_ ?] _]. congruence. }
  destruct (stream_step_frame _ _ _ _ _ _ _ E2) as [[_ Hb2] _].
  rewrite bind_run.
  destruct (sleep (interval a) (sleep_interrupted env) w3)
    as [[ts ws] [es|[]]] eqn:Es; [|done].
  apply sleep_world in Es as ->. intros [= <- <- <-]. congruence.
Qed.

Lemma cycle_body_returns a env w t w1 :
  cycle_body a env w = (t, w1, inr tt) →
  backoff w1 = interval a ∧ (0 ≤ interval a ≤ SLEEP_MAX)
  ∧ ∃ t0, t = t0 ++ [EvSleep (interval a)].
Proof.
  unfold cycle_body. rewrite bind_run.
  destruct (stream_step a ENG (eng_env env) w) as [[t1 w2] [e1|[]]]; [done|].
  rewrite bind_run.
  destruct (stream_step a TRANS (trans_env env) w2) as [[t2 w3] [e2|[]]];
    [done|].
  rewrite bind_run.
  destruct (sleep (interval a) (sleep_interrupted env) w3)
    as [[ts ws] [es|[]]] eqn:Es; [done|].
  destruct (sleep_returns _ _ _ _ _ Es) as (Hr & _ & -> & ->).
  intros [= <- <-]. split; [done|]. split; [done|].
  exists (t1 ++ t2). by rewrite <- !app_assoc.
Qed.


Lemma cycle_handler_unhandled a env e w :
  is_retryable e = false → e ≠ KeyboardInterrupt →
  cycle_handler a env e w
  = if ignore_malformed a then
      match sleep (backoff w) (handler_sleep_interrupted env) w with
      | (ts, w', r) => (EvLog ERROR (LogUnhandled e) :: ts, w', r)
      end
    else ([EvLog ERROR (LogUnhandled e)], w, inl (SystemExit 1)).
Proof.
  intros He Hk. unfold cycle_handler. rewrite He.
  rewrite bool_decide_eq_false_2 by done.
  destruct (ignore_malformed a); repeat (rewrite bind_run; simpl); [|done].
  by destruct (sleep (backoff w) (handler_sleep_interrupted env) w)
    as [[ts w'] r].
Qed.

Lemma next_backoff_le b : next_backoff b ≤ 1800.
Proof. unfold next_backoff. lia. Qed.

Lemma next_backoff_nonneg b : 0 ≤ b → 0 ≤ next_backoff b.
Proof. unfold next_backoff. lia. Qed.





End scheduler.

(** A cycle whose English pointer request fails with [e]. *)
Definition failing_cycle (e : exn) : cycle_env :=
  {| eng_env := {| poll_result := inl e;
                   exists_error := None;
                   download_result := GetRaises e;
                   archive_members := [];
                   archive_error := None |};
     trans_env := malformed_env;
     sleep_interrupted := false; handler_sleep_interrupted := false;
     external := id |}.






(** ** Unrecognised exceptions *)

(** The arguments with [--ignore-malformed]. *)
Definition tolerant_args : Args :=
  {| output := lit "data";
     interval := DEFAULT_INTERVAL;
     skip_extract := false;
     raw_subdir_eng := lit "rawdata_en";
     raw_subdir_trans := lit "rawdata_tr";
     csv_subdir_eng := lit "csv_en";
     csv_subdir_trans := lit "csv_tr";
     retries := 3;
     verbose := false;
     ignore_malformed := true |}.





(** ** What a failed download leaves behind *)

Section leftovers.

Implicit Types (w : world) (fs : FS) (q p : path) (stem : str).

(** Replaying a trace, a path disappears only by being renamed away. *)
Lemma replay_keeps t : ∀ fs p,
  is_Some (fs !! p) →
  is_Some (replay t fs !! p) ∨ ∃ d, EvFs (OpRename p d) ∈ t.
Proof.
  induction t as [|ev t IH]; intros fs p Hp; [by left|].
  assert (Hcons : ∀ fs', is_Some (fs' !! p) →
    is_Some (replay t fs' !! p) ∨ ∃ d, EvFs (OpRename p d) ∈ ev :: t).
  { intros fs' Hp'. destruct (IH fs' p Hp') as [?|[d Hd]]; [by left|].
    right. exists d. by right. }
  destruct ev as [| |op|]; simpl; try by apply Hcons.
  destruct (apply_op op fs) as [e|fs'] eqn:E; [by apply Hcons|].
  destruct op as [d|p'|p' data|p'|s d|p' data];
    try (apply Hcons; eapply apply_op_keeps; [exact E|done|done]).
  destruct (decide (s = p)) as [->|Hsp].
  { right. exists d. left. }
  apply Hcons. simpl in E. destruct (fs !! s) as [n|] eqn:Es; [|done].
  destruct (fs !! d) as [[|c]|] eqn:Ed; simplify_eq.
  all: destruct (decide (d = p)) as [->|Hd]; [by rewrite lookup_insert_eq|];
    by rewrite lookup_insert_ne, lookup_delete_ne.
Qed.

End leftovers.

(** C10. When [download_zip] on an archive path raises after it has opened
    its temporary file: the request had been answered; the directories of
    the destination were made, and making them again changes nothing; the
    disk is the one [mkdir] left, with the temporary path, which is the
    destination with [.zip] replaced by [.part], holding the chunks received;
    the destination is as it was, every other path that is not one of the
    directories made is as it was, and no variable of [run] changed. No
    cycle removes a path other than by renaming it into place. A retry over
    the stale temporary file opens it empty, and it ends holding the chunks
    of the retry alone, or renamed to the destination. *)
Theorem failed_download_leftover net url q stem w t w1 e :
  SLASH ∉ stem → stem ≠ [] →
  let dest := q ++ [stem ++ lit ".zip"] in
  let tmp := q ++ [stem ++ lit ".part"] in
  download_zip net url dest w = (t, w1, inl e) →
  EvFs (OpOpenW tmp) ∈ t →
  (∃ r0 fs1,
     net = GetResponse r0
     ∧ mkdir_p (parent dest) (w_fs w) = inr fs1
     ∧ mkdir_p (parent dest) fs1 = inr fs1
     ∧ w_fs w1 = <[tmp := File (concat (iter_content r0 CHUNK_SIZE).1)]> fs1)
  ∧ with_suffix dest (lit ".part") = inr tmp
  ∧ w_fs w1 !! dest = w_fs w !! dest
  ∧ (∀ p, p ≠ tmp → ¬ p `prefix_of` parent dest →
          w_fs w1 !! p = w_fs w !! p)
  ∧ (∀ p n, p ≠ tmp → w_fs w !! p = Some n → w_fs w1 !! p = Some n)
  ∧ same_vars w w1
  ∧ (∀ a env w2 t2 w3 r2 p,
       cycle a env w2 = (t2, w3, r2) → is_Some (w_fs w2 !! p) →
       is_Some (w_fs w3 !! p) ∨ ∃ d, EvFs (OpRename p d) ∈ t2)
  ∧ (∀ r1 w2 old fs2,
       w_fs w2 !! tmp = Some (File old) →
       mkdir_p (parent dest) (w_fs w2) = inr fs2 →
       ∃ ta tb w3 r',
         download_zip (GetResponse r1) url dest w2
         = (ta ++ EvFs (OpOpenW tmp) :: tb, w3, r')
         ∧ replay (ta ++ [EvFs (OpOpenW tmp)]) (w_fs w2) !! tmp
           = Some (File [])
         ∧ (w_fs w3 !! tmp
            = Some (File (concat (iter_content r1 CHUNK_SIZE).1))
            ∨ (w_fs w3 !! tmp = None
               ∧ w_fs w3 !! dest
                 = Some (File (concat (iter_content r1 CHUNK_SIZE).1))))).
Proof.
  intros Hs Hne dest tmp Hd Hopen.
  assert (Hpart : stem ++ lit ".part" ≠ []) by by destruct stem.
  assert (Hzip : stem ++ lit ".zip" ≠ []) by by destruct stem.
  assert (Hstem : SLASH ∉ stem ++ lit ".part").
  { apply not_elem_of_app. split; [done|]. compute_done. }
  assert (Hstem' : SLASH ∉ stem ++ lit ".zip").
  { apply not_elem_of_app. split; [done|]. compute_done. }
  assert (Hneq : tmp ≠ dest) by (symmetry; apply zip_part_ne).
  assert (Hpd : parent dest = q) by by apply parent_snoc.
  assert (Hpt : parent tmp = q) by by apply parent_snoc.
  rewrite Hpd.
  destruct (download_zip_raises _ _ _ _ _ _ _ _ Hs Hne Hd)
    as (Hv & Hdest & _ & _).
  assert (Hfirst : ∃ r0 fs1, net = GetResponse r0
    ∧ mkdir_p q (w_fs w) = inr fs1
    ∧ w_fs w1 = <[tmp := File (concat (iter_content r0 CHUNK_SIZE).1)]> fs1).
  { pose proof Hd as Hrun. unfold dest in Hrun.
    rewrite download_zip_run in Hrun by done. fold dest tmp in Hrun.
    destruct (mkdir_p q (w_fs w)) as [e0|fs1] eqn:Hmk.
    { injection Hrun as <- <- <-. by apply elem_of_nil in Hopen. }
    assert (Hno : EvFs (OpOpenW tmp) ∉ [EvFs (OpMkdir q); EvGet url true]).
    { intros Hin. apply elem_of_cons in Hin as [?|Hin]; [done|].
      apply elem_of_cons in Hin as [?|Hin]; [done|].
      by apply elem_of_nil in Hin. }
    destruct net as [e0|r0].
    { by injection Hrun as <- <- <-. }
    simpl in Hrun. exists r0, fs1.
    destruct (fs1 !! tmp) as [[|old]|] eqn:Htmp.
    { by injection Hrun as <- <- <-. }
    all: destruct ((iter_content r0 CHUNK_SIZE).2) as [e0|];
      [ by injection Hrun as <- <- <-
      | destruct (fs1 !! dest) as [[|c]|]; try done;
        by injection Hrun as <- <- <- ]. }
  destruct Hfirst as (r0 & fs1 & -> & Hmk & Hw1).
  split_and!.
  - exists r0, fs1. split_and!; try done. by eapply mkdir_p_idem.
  - by apply with_suffix_zip.
  - done.
  - intros p Hp Hpre. rewrite Hw1, lookup_insert_ne by done.
    by eapply mkdir_p_other.
  - intros p n Hp Hn. rewrite Hw1, lookup_insert_ne by done.
    by eapply mkdir_p_Some.
  - done.
  - intros a env w2 t2 w3 r2 p Hc Hp.
    rewrite (traced_cycle _ _ _ _ _ _ Hc). by apply replay_keeps.
  - intros r1 w2 old fs2 Hold Hmk2.
    pose proof (download_zip_run (GetResponse r1) url q stem w2 Hs Hne) as Hrun.
    simpl in Hrun. fold dest tmp in Hrun. rewrite Hmk2 in Hrun.
    assert (Hold2 : fs2 !! tmp = Some (File old)) by by eapply mkdir_p_Some.
    rewrite Hold2 in Hrun.
    exists [EvFs (OpMkdir q); EvGet url true].
    assert (Hre : replay ([EvFs (OpMkdir q); EvGet url true]
                          ++ [EvFs (OpOpenW tmp)]) (w_fs w2) !! tmp
                  = Some (File [])).
    { simpl. rewrite Hmk2, Hpt, (mkdir_p_ready _ _ _ Hmk2), Hold2.
      by rewrite lookup_insert_eq. }
    destruct ((iter_content r1 CHUNK_SIZE).2) as [e1|].
    { eexists _, _, _. split; [exact Hrun|]. split; [done|]. left.
      simpl. by rewrite lookup_insert_eq. }
    destruct (fs2 !! dest) as [[|c]|] eqn:Hd2.
    + eexists _, _, _. split; [exact Hrun|]. split; [done|]. left.
      simpl. by rewrite lookup_insert_eq.
    + eexists _, _, _. split.
      { rewrite Hrun. by rewrite <- app_assoc. }
      split; [done|]. right. simpl.
      rewrite lookup_insert_ne, lookup_delete_eq, lookup_insert_eq by done.
      done.
    + eexists _, _, _. split.
      { rewrite Hrun. by rewrite <- app_assoc. }
      split; [done|]. right. simpl.
      rewrite lookup_insert_ne, lookup_delete_eq, lookup_insert_eq by done.
      done.
Qed.

Lemma broken_download_opened :
  EvFs (OpOpenW (scenario_dir ++ [scenario_stem ++ lit ".part"]))
  ∈ (download_zip (GetResponse broken_response) scenario_url
       (scenario_dir ++ [scenario_stem ++ lit ".zip"])
       (init_world default_args ∅)).1.1.
Proof.
  assert (H : (download_zip (GetResponse broken_response) scenario_url
                 (scenario_dir ++ [scenario_stem ++ lit ".zip"])
                 (init_world default_args ∅)).1.1
              = let tmp := scenario_dir ++ [scenario_stem ++ lit ".part"] in
                [EvFs (OpMkdir scenario_dir); EvGet scenario_url true;
                 EvFs (OpOpenW tmp);
                 EvFs (OpWrite tmp ["P"%byte; "K"%byte]);
                 EvFs (OpWrite tmp ["x"%byte]); EvFs (OpClose tmp)])
    by by vm_compute.
  rewrite H. cbv zeta. rewrite !elem_of_cons. auto.
Qed.

Lemma failed_download_leftover_witness :
  let w := init_world default_args ∅ in
  let dest := scenario_dir ++ [scenario_stem ++ lit ".zip"] in
  let out := download_zip (GetResponse broken_response) scenario_url dest w in
  w_fs out.1.2 !! dest = w_fs w !! dest
  ∧ with_suffix dest (lit ".part")
    = inr (scenario_dir ++ [scenario_stem ++ lit ".part"]).
Proof.
  intros w dest out.
  assert (Hs : SLASH ∉ scenario_stem) by compute_done.
  assert (Hne : scenario_stem ≠ []) by discriminate.
  destruct (failed_download_leftover (GetResponse broken_response)
              scenario_url scenario_dir scenario_stem w out.1.1 out.1.2
              RequestException Hs Hne)
    as (_ & Hws & Hdest & _).
  - rewrite <- broken_download_raises. apply triple_eta.
  - exact broken_download_opened.
  - exact (conj Hdest Hws).
Defined.

(** ** At most one download *)

(** A path whose last component ends in [.zip]. *)
Definition zip_shaped (d : path) : Prop :=
  ∃ q stem, d = q ++ [stem ++ lit ".zip"].

(** The destinations renamed to so far are distinct archive paths, and all
    of them are on disk. *)
Definition archives_kept (ds : list path) (fs : FS) : Prop :=
  NoDup ds ∧ ∀ d, d ∈ ds → is_Some (fs !! d) ∧ zip_shaped d.

Definition keeps_archives {A} (m : M A) : Prop :=
  ∀ ds w t w' r,
    archives_kept ds (w_fs w) → m w = (t, w', r) →
    archives_kept (ds ++ renames t) (w_fs w').

(** An event that is not a rename; a step that loses no path. *)
Definition quiet_event (ev : event) : Prop :=
  ∀ s d, ev ≠ EvFs (OpRename s d).

Definition fs_kept (w w' : world) : Prop := keeps_paths (w_fs w) (w_fs w').

Section once.

Implicit Types (a : Args) (k : kind) (w : world) (name : str).

#[global] Instance fs_kept_refl : Reflexive fs_kept.
Proof. by intros w p. Qed.

#[global] Instance fs_kept_trans : Transitive fs_kept.
Proof. intros w1 w2 w3 H1 H2 p Hp. by apply H2, H1. Qed.

Local Ltac rapply lem := apply lem; try (solve [apply _]).

Lemma renames_quiet t : Forall quiet_event t → renames t = [].
Proof.
  induction 1 as [|ev t Hev _ IH]; [done|].
  destruct ev as [| |[]|]; try done. by destruct (Hev src dst).
Qed.

Lemma archives_kept_quiet ds fs fs' :
  archives_kept ds fs → keeps_paths fs fs' → archives_kept ds fs'.
Proof.
  intros [Hnd Hds] Hk. split; [done|]. intros d Hd.
  destruct (Hds d Hd). split; [by apply Hk|done].
Qed.

Lemma keeps_archives_quiet {A} (m : M A) :
  respects fs_kept quiet_event m → keeps_archives m.
Proof.
  intros Hm ds w t w' r Hinv H. destruct (Hm _ _ _ _ H) as [Hk Hq].
  rewrite (renames_quiet _ Hq), app_nil_r. by eapply archives_kept_quiet.
Qed.

Lemma keeps_archives_bind {A B} (m : M A) (f : A → M B) :
  keeps_archives m → (∀ x, keeps_archives (f x)) → keeps_archives (m ≫= f).
Proof.
  intros Hm Hf ds w t w' r Hinv. rewrite bind_run.
  destruct (m w) as [[t1 w1] [e|x]] eqn:E1.
  - intros [= <- <- <-]. by eapply Hm.
  - destruct (f x w1) as [[t2 w2] r2] eqn:E2. intros [= <- <- <-].
    rewrite renames_app, app_assoc. eapply Hf; [|exact E2]. by eapply Hm.
Qed.

Lemma keeps_archives_try {A} (m : M A) c h :
  keeps_archives m → (∀ e, keeps_archives (h e)) →
  keeps_archives (try_except m c h).
Proof.
  intros Hm Hh ds w t w' r Hinv. unfold try_except.
  destruct (m w) as [[t1 w1] [e|x]] eqn:E1.
  - destruct (c e).
    + destruct (h e w1) as [[t2 w2] r2] eqn:E2. intros [= <- <- <-].
      rewrite renames_app, app_assoc. eapply Hh; [|exact E2]. by eapply Hm.
    + intros [= <- <- <-]. by eapply Hm.
  - intros [= <- <- <-]. by eapply Hm.
Qed.

Lemma renames_polled a k : renames (polled a k) = [].
Proof. unfold polled. by destruct (verbose a). Qed.

Lemma extract_step_quiet a k env name zip w t2 w2 r2 :
  extract_step a k env name zip w = (t2, w2, r2) →
  (∀ op, EvFs op ∈ t2 → extract_event (EvFs op))
  ∧ renames t2 = [] ∧ keeps_paths (w_fs w) (w_fs w2)
  ∧ ∀ u s, EvGet u s ∉ t2.
Proof.
  rewrite extract_step_run. destruct (skip_extract a).
  { intros [= <- <- <-]. split_and!; try done.
    - intros op H. by apply elem_of_nil in H.
    - intros u s H. by apply elem_of_nil in H. }
  destruct (extract_zip env zip (out_dir_of a k name) w)
    as [[te we] re] eqn:He.
  destruct (extract_zip_grows _ _ _ _ _ _ _ He) as [[_ Hk] Hev].
  assert (Hget : ∀ u s, EvGet u s ∉ te).
  { intros u s Hin. eapply Forall_forall in Hev; [|exact Hin]. done. }
  assert (Hfs : ∀ op, EvFs op ∈ te → extract_event (EvFs op)).
  { intros op Hin. by eapply Forall_forall in Hev. }
  assert (Hfs' : ∀ lv m op,
    EvFs op ∈ te ++ [EvLog lv m] → extract_event (EvFs op)).
  { intros lv m op Hin. apply elem_of_app in Hin as [Hin|Hin]; [by apply Hfs|].
    by apply list_elem_of_singleton in Hin. }
  assert (Hlog : ∀ lv m u s, EvGet u s ∉ te ++ [EvLog lv m]).
  { intros lv m u s Hin. apply elem_of_app in Hin as [Hin|Hin].
    - by eapply Hget.
    - by apply list_elem_of_singleton in Hin. }
  destruct re as [e|[]].
  - destruct (is_Exception e); intros [= <- <- <-].
    + split_and!; try done.
      * apply Hfs'.
      * by rewrite renames_app, (renames_extract _ Hev).
    + split_and!; try done. by apply renames_extract.
  - intros [= <- <- <-]. split_and!; try done.
    + apply Hfs'.
    + by rewrite renames_app, (renames_extract _ Hev).
Qed.

End once.

Section once_steps.

Implicit Types (a : Args) (k : kind) (w : world) (name : str).

Local Ltac rapply lem := apply lem; try (solve [apply _]).

Lemma zip_shaped_not_part d q stem :
  zip_shaped d → d ≠ q ++ [stem ++ lit ".part"].
Proof. intros (q' & stem' & ->). apply zip_part_ne. Qed.

(** [obtain_zip] on an archive path keeps the archives renamed so far and
    adds at most its own destination, which was absent. *)
Lemma obtain_zip_keeps_archives k env link q stem :
  SLASH ∉ stem → stem ≠ [] →
  keeps_archives
    (obtain_zip k env link (stem ++ lit ".zip") (q ++ [stem ++ lit ".zip"])).
Proof.
  intros Hs Hne ds w t w' r Hinv. rewrite obtain_zip_run. unfold fs_exists.
  set (dest := q ++ [stem ++ lit ".zip"]).
  destruct (exists_error env) as [e0|].
  { intros [= <- <- <-]. simpl. by rewrite app_nil_r. }
  destruct (w_fs w !! dest) as [n|] eqn:Hd.
  { intros [= <- <- <-]. simpl. by rewrite app_nil_r. }
  destruct (download_zip (download_result env) link dest w)
    as [[td wd] [e|p]] eqn:Hdl.
  - destruct (download_zip_raises _ _ _ _ _ _ _ _ Hs Hne Hdl)
      as (_ & _ & Hk & Hren).
    assert (Hq : archives_kept ds (w_fs wd))
      by by eapply archives_kept_quiet.
    destruct (is_Exception e); intros [= <- <- <-]; simpl;
      rewrite ?renames_app, Hren; simpl; by rewrite app_nil_r.
  - intros [= <- <- <-].
    destruct (download_zip_returns _ _ _ _ _ _ _ _ Hs Hne Hdl)
      as (_ & _ & (r0 & t0 & _ & _ & Hfile & -> & Hren0) & _ & Hkeep).
    fold dest in Hfile, Hkeep.
    assert (Hren : renames
      (EvLog INFO (LogDownloading k (stem ++ lit ".zip"))
         :: (t0 ++ [EvFs (OpRename (q ++ [stem ++ lit ".part"]) dest)])
         ++ [EvLog INFO (LogDownloaded k)]) = [dest]).
    { change (renames ((t0 ++ [EvFs (OpRename (q ++ [stem ++ lit ".part"]) dest)])
                       ++ [EvLog INFO (LogDownloaded k)]) = [dest]).
      rewrite !renames_app, Hren0. done. }
    unfold dest in *. rewrite Hren. destruct Hinv as [Hnd Hds]. split.
    + apply NoDup_app. split; [done|]. split; [|apply NoDup_singleton].
      intros d Hin Hin'. apply list_elem_of_singleton in Hin' as ->.
      destruct (Hds _ Hin) as [[n Hn] _]. congruence.
    + intros d Hin. apply elem_of_app in Hin as [Hin|Hin].
      * destruct (Hds _ Hin) as [Hsome Hz]. split; [|done].
        apply Hkeep; [|done]. by apply zip_shaped_not_part.
      * apply list_elem_of_singleton in Hin as ->. split.
        -- rewrite Hfile. by eexists.
        -- by exists q, stem.
Qed.

Lemma extract_step_keeps_archives a k env name zip :
  keeps_archives (extract_step a k env name zip).
Proof.
  intros ds w t w' r Hinv H.
  destruct (extract_step_quiet _ _ _ _ _ _ _ _ _ H) as (_ & -> & Hk & _).
  rewrite app_nil_r. by eapply archives_kept_quiet.
Qed.

Lemma keeps_archives_same_fs {A} (m : M A) :
  (∀ w t w' r, m w = (t, w', r) → renames t = [] ∧ w_fs w' = w_fs w) →
  keeps_archives m.
Proof.
  intros Hm ds w t w' r Hinv H. destruct (Hm _ _ _ _ H) as [-> ->].
  by rewrite app_nil_r.
Qed.

Lemma stream_step_keeps_archives a k env : keeps_archives (stream_step a k env).
Proof.
  intros ds w t w' r Hinv.
  destruct (poll_result env) as [e|text] eqn:Hp.
  { rewrite (stream_step_poll_raises _ _ _ _ _ Hp). intros [= <- <- <-].
    by rewrite renames_polled, app_nil_r. }
  destruct (poll_text_total text) as [[link|] Ht].
  2:{ rewrite (stream_step_malformed _ _ _ _ _ Hp Ht). intros [= <- <- <-].
      rewrite renames_app, renames_polled.
      destruct (ignore_malformed a); simpl; by rewrite app_nil_r. }
  destruct (safe_filename_spec link) as (name & Hn & _).
  pose proof (resolved_archive_name _ _ _ Ht Hn) as Harch.
  destruct (archive_name_stem _ Harch) as (stem & Hstem & Hne & Hs & _).
  rewrite (stream_step_resolved _ _ _ _ _ _ _ Hp Ht Hn).
  destruct (bool_decide (name ∈ seen_of k w)).
  { intros [= <- <- <-]. by rewrite renames_polled, app_nil_r. }
  destruct (obtain_zip k env link name (zip_path_of a k name) w)
    as [[t1 w1] r1] eqn:Ho.
  assert (Hinv1 : archives_kept (ds ++ renames t1) (w_fs w1)).
  { revert Ho. rewrite zip_path_of_snoc by done. rewrite Hstem. intros Ho.
    by eapply obtain_zip_keeps_archives. }
  destruct r1 as [e|[]].
  - intros [= <- <- <-]. by rewrite renames_app, renames_polled.
  - destruct (extract_step a k env name (zip_path_of a k name) w1)
      as [[t2 w2] r2] eqn:Hx.
    pose proof (extract_step_keeps_archives _ _ _ _ _ _ _ _ _ _ Hinv1 Hx)
      as Hinv2.
    assert (Hfs : w_fs (add_seen k name w2) = w_fs w2) by by destruct k.
    destruct r2 as [e|[]]; intros [= <- <- <-];
      rewrite !renames_app, renames_polled; simpl; rewrite ?Hfs;
      by rewrite app_assoc.
  - intros [= <- <- <-]. by rewrite renames_app, renames_polled.
Qed.

Lemma sleep_keeps_archives secs i : keeps_archives (sleep secs i).
Proof.
  apply keeps_archives_same_fs. intros w t w' r. rewrite sleep_run.
  destruct ((secs <? - SLEEP_MAX) || (SLEEP_MAX <? secs));
    [by intros [= <- <- <-]|].
  destruct (secs <? 0); [by intros [= <- <- <-]|].
  destruct i; by intros [= <- <- <-].
Qed.

Lemma cycle_keeps_archives a env : keeps_archives (cycle a env).
Proof.
  unfold cycle. apply keeps_archives_try.
  - unfold cycle_body.
    apply keeps_archives_bind; [apply stream_step_keeps_archives|intros ?].
    apply keeps_archives_bind; [apply stream_step_keeps_archives|intros ?].
    apply keeps_archives_bind; [apply sleep_keeps_archives|intros ?].
    apply keeps_archives_same_fs. by intros w t w' r [= <- <- <-].
  - intros e. unfold cycle_handler.
    destruct (is_retryable e); [|destruct (bool_decide _)].
    + apply keeps_archives_bind; [|intros w].
      { apply keeps_archives_same_fs. by intros w t w' r [= <- <- <-]. }
      apply keeps_archives_bind; [|intros ?].
      { apply keeps_archives_same_fs. by intros w0 t w' r [= <- <- <-]. }
      apply keeps_archives_bind; [apply sleep_keeps_archives|intros ?].
      apply keeps_archives_same_fs. by intros w0 t w' r [= <- <- <-].
    + apply keeps_archives_same_fs. by intros w t w' r [= <- <- <-].
    + apply keeps_archives_bind; [|intros ?].
      { apply keeps_archives_same_fs. by intros w t w' r [= <- <- <-]. }
      apply keeps_archives_bind; [|intros ?].
      { apply keeps_archives_same_fs.
        destruct (negb (ignore_malformed a)); by intros w t w' r [= <- <- <-]. }
      apply keeps_archives_bind; [|intros w].
      { apply keeps_archives_same_fs. by intros w t w' r [= <- <- <-]. }
      apply sleep_keeps_archives.
Qed.

(** The loop, when what others do to the disk removes nothing. *)
Lemma run_cycles_keeps_archives a envs :
  Forall (λ env, ∀ fs, keeps_paths fs (external env fs)) envs →
  keeps_archives (run_cycles a envs).
Proof.
  induction 1 as [|env envs Hext _ IH]; simpl.
  { apply keeps_archives_same_fs. by intros w t w' r [= <- <- <-]. }
  apply keeps_archives_bind; [|intros ?].
  { intros ds w t w' r Hinv [= <- <- <-]. rewrite app_nil_r. simpl.
    eapply archives_kept_quiet; [exact Hinv|apply Hext]. }
  apply keeps_archives_bind; [apply cycle_keeps_archives|intros ?]. exact IH.
Qed.

End once_steps.

(** The disk of the end-to-end scenario once the archive is there. *)
Definition disk_with_archive : FS :=
  {[ scenario_dir ++ [scenario_name] := File ["P"%byte; "K"%byte] ]}.

(** C1. For a resolved artifact whose name is not in the seen set of the
    stream and whose archive path exists when the step checks it
    ([exists()] raises nothing and the path is on the disk): the step
    logs that the archive is on disk and goes on with the extraction block;
    its trace holds no streamed request, and its only events on the disk
    are those of the extraction. Over a whole run in which what others do
    to the disk removes no path, no destination is renamed to twice: each
    archive is downloaded to completion at most once. *)
Theorem at_most_one_download a k env w text link name :
  poll_result env = inr text → poll_text text = inr (Some link) →
  safe_filename link = inr name →
  name ∉ seen_of k w →
  exists_error env = None →
  fs_exists (w_fs w) (zip_path_of a k name) = true →
  (∃ t2 w2 r2,
     extract_step a k env name (zip_path_of a k name) w = (t2, w2, r2)
     ∧ stream_step a k env w
       = (polled a k ++ EvLog INFO (LogOnDisk k name) :: t2,
          match r2 with inr _ => add_seen k name w2 | inl _ => w2 end, r2)
     ∧ (∀ u, EvGet u true ∉ polled a k ++ EvLog INFO (LogOnDisk k name) :: t2)
     ∧ (∀ op, EvFs op ∈ polled a k ++ EvLog INFO (LogOnDisk k name) :: t2 →
              extract_event (EvFs op)))
  ∧ (∀ a0 fs0 envs tl wl rl,
       Forall (λ env, ∀ fs, keeps_paths fs (external env fs)) envs →
       run a0 fs0 envs = (tl, wl, rl) → NoDup (renames tl)).
Proof.
  intros Hp Ht Hn Hseen Hstat Hex. split.
  - destruct (extract_step a k env name (zip_path_of a k name) w)
      as [[t2 w2] r2] eqn:Hx.
    exists t2, w2, r2. split; [done|].
    destruct (extract_step_quiet _ _ _ _ _ _ _ _ _ Hx) as (Hfs & _ & _ & Hget).
    split_and!.
    + rewrite (stream_step_resolved _ _ _ _ _ _ _ Hp Ht Hn).
      rewrite bool_decide_eq_false_2 by done.
      rewrite obtain_zip_run, Hstat, Hex, Hx. by destruct r2 as [e|[]].
    + intros u Hin. apply elem_of_app in Hin as [Hin|Hin].
      * unfold polled in Hin. destruct (verbose a).
        -- apply elem_of_cons in Hin as [?|Hin]; [done|].
           by apply list_elem_of_singleton in Hin.
        -- by apply list_elem_of_singleton in Hin.
      * apply elem_of_cons in Hin as [?|Hin]; [done|]. by eapply Hget.
    + intros op Hin. apply elem_of_app in Hin as [Hin|Hin].
      * unfold polled in Hin. destruct (verbose a).
        -- apply elem_of_cons in Hin as [?|Hin]; [done|].
           by apply list_elem_of_singleton in Hin.
        -- by apply list_elem_of_singleton in Hin.
      * apply elem_of_cons in Hin as [?|Hin]; [done|]. by apply Hfs.
  - intros a0 fs0 envs tl wl rl Hext Hrun.
    assert (Hinit : archives_kept [] (w_fs (init_world a0 fs0))).
    { split; [constructor|]. intros d Hd. by apply elem_of_nil in Hd. }
    by destruct (run_cycles_keeps_archives _ _ Hext _ _ _ _ _ Hinit Hrun).
Qed.

Lemma archive_on_disk :
  fs_exists (w_fs (init_world default_args disk_with_archive))
    (zip_path_of default_args ENG scenario_name)
  = true.
Proof. by vm_compute. Qed.

Lemma at_most_one_download_witness :
  ∃ t2 w2 r2,
    stream_step default_args ENG scenario_env
      (init_world default_args disk_with_archive)
    = ([EvGet ENG_URL false; EvLog INFO (LogOnDisk ENG scenario_name)] ++ t2,
       w2, r2)
    ∧ ∀ u, EvGet u true ∉
        [EvGet ENG_URL false; EvLog INFO (LogOnDisk ENG scenario_name)] ++ t2.
Proof.
  destruct (at_most_one_download default_args ENG scenario_env
              (init_world default_args disk_with_archive)
              (lit "1234 abcd1234 http://host/gdeltv2/20250724144500.gkg.csv.zip")
              scenario_url scenario_name)
    as [(t2 & w2 & r2 & _ & Hstep & Hno & _) _].
  - reflexivity.
  - exact scenario_resolves.
  - exact scenario_filename.
  - apply not_elem_of_empty.
  - reflexivity.
  - exact archive_on_disk.
  - eexists t2, _, r2. split; [exact Hstep|exact Hno].
Defined.

(** The end-to-end scenario: the first cycle downloads and extracts, the
    second one, with the same pointer, does neither. *)
Definition scenario_cycle : cycle_env :=
  {| eng_env := scenario_env; trans_env := malformed_env;
     sleep_interrupted := false; handler_sleep_interrupted := false;
     external := id |}.

Definition is_streamed_get (ev : event) : bool :=
  match ev with EvGet _ true => true | _ => false end.

Definition is_put (ev : event) : bool :=
  match ev with EvFs (OpPut _ _) => true | _ => false end.

Example scenario_two_polls :
  let out := run tolerant_args ∅ [scenario_cycle; scenario_cycle] in
  renames out.1.1 = [scenario_dir ++ [scenario_name]]
  ∧ w_fs out.1.2 !! (scenario_dir ++ [scenario_name])
    = Some (File ["P"%byte; "K"%byte; "x"%byte])
  ∧ w_fs out.1.2 !! [lit "data"; lit "2025"; lit "csv_en";
                     lit "20250724144500.gkg.csv"]
    = Some (File ["r"%byte])
  ∧ elements (seen_eng out.1.2) = [scenario_name]
  ∧ sleeps out.1.1 = [120; 120]
  ∧ length (List.filter is_streamed_get out.1.1) = 1%nat
  ∧ length (List.filter is_put out.1.1) = 1%nat.
Proof. by vm_compute. Qed.

(** * Further properties of the helpers *)

Section more_names.

Implicit Types (url dir name link text : str) (a : Args) (k : kind).

Lemma rcut_absent sep s : sep ∉ s → rcut sep s = None.
Proof.
  induction s as [|c s IH]; [done|]. intros Hs.
  apply not_elem_of_cons in Hs as [Hc Hs]. simpl. rewrite IH by done.
  by assert ((c =? sep)%N = false) as -> by (apply N.eqb_neq; congruence).
Qed.

Lemma rcut_last sep dir name :
  sep ∉ name → rcut sep (dir ++ sep :: name) = Some (dir, name).
Proof.
  intros Hn. induction dir as [|c dir IH]; simpl.
  - by rewrite rcut_absent, N.eqb_refl.
  - by rewrite IH.
Qed.

Lemma has_root_anchored rest : has_root (Path (SLASH :: rest)) = true.
Proof.
  unfold Path, parse_part, splitroot. rewrite N.eqb_refl.
  by destruct (length (SLASH :: rest) - length (lstrip_sep (SLASH :: rest))
               =? 2)%nat.
Qed.

End more_names.

(** X1. [safe_filename] takes what follows the last slash: it returns
    [name] on [dir/name] and on [name] alone when [name] holds no slash, it
    returns the empty string on a URL that ends with a slash, and it never
    raises. *)
Theorem safe_filename_last_segment :
  (∀ dir name, SLASH ∉ name → safe_filename (dir ++ SLASH :: name) = inr name)
  ∧ (∀ name, SLASH ∉ name → safe_filename name = inr name)
  ∧ (∀ dir, safe_filename (dir ++ [SLASH]) = inr [])
  ∧ (∀ url, ∃ name, safe_filename url = inr name ∧ (SLASH ∉ name)
                    ∧ (name `suffix_of` url)).
Proof.
  split_and!.
  - intros dir name Hn. unfold safe_filename, rsplit1.
    by rewrite rcut_last.
  - intros name Hn. unfold safe_filename, rsplit1.
    by rewrite rcut_absent.
  - intros dir. unfold safe_filename, rsplit1.
    by rewrite rcut_last by apply not_elem_of_nil.
  - intros url. destruct (safe_filename_spec url) as (name & ? & ? & ? & _).
    by exists name.
Qed.

Lemma safe_filename_last_segment_witness :
  safe_filename (lit "http://host/gdeltv2/20250724144500.gkg.csv.zip")
  = inr (lit "20250724144500.gkg.csv.zip").
Proof.
  apply (proj1 safe_filename_last_segment (lit "http://host/gdeltv2")).
  compute_done.
Defined.

(** X2. Whatever the pointer body, a link that [poll_once] returns is not
    empty, holds no whitespace and ends with [.gkg.csv.zip], so the test
    [if not zip_link] fails only for [None]; the name [run] derives from it
    ends with the suffix, holds no slash and has at least 12 characters; the
    year has exactly 4 characters; and the archive path has that name as
    its last component and a [.part] sibling, so [with_suffix] does not
    raise. *)
Theorem resolved_names_well_formed text link name a k :
  poll_text text = inr (Some link) → safe_filename link = inr name →
  (link ≠ [] ∧ nospace link ∧ (GKG_SUFFIX `suffix_of` link)
   ∧ truthy (Some link) = true)
  ∧ ((GKG_SUFFIX `suffix_of` name) ∧ (SLASH ∉ name) ∧ (12 ≤ length name)%nat
     ∧ (name `suffix_of` link))
  ∧ (length (extract_year name) = 4%nat ∧ extract_year name `prefix_of` name)
  ∧ (path_name (zip_path_of a k name) = name
     ∧ ∃ tmp, with_suffix (zip_path_of a k name) (lit ".part") = inr tmp
              ∧ parent tmp = parent (zip_path_of a k name)
              ∧ tmp ≠ zip_path_of a k name).
Proof.
  intros Ht Hn.
  pose proof (resolved_archive_name _ _ _ Ht Hn) as Harch.
  destruct (archive_name_stem _ Harch) as (stem & Hstem & Hne & Hs & Hlen).
  destruct (poll_text_link _ _ Ht) as [Hsuf Htr].
  assert (Htok : nospace link).
  { unfold poll_text in Ht.
    destruct (first_candidate_spec (pointer_lines text)) as (r & Hr & Hspec).
    rewrite Ht in Hr. injection Hr as <-.
    by destruct Hspec as (_ & _ & _ & _ & _ & _ & _ & Hns & _). }
  destruct (safe_filename_spec link) as (name' & Hn' & Hsufn & _).
  assert (name' = name) as -> by congruence.
  assert (Hzip : SLASH ∉ stem ++ lit ".zip") by (rewrite <- Hstem; apply Harch).
  assert (Hpart : SLASH ∉ stem ++ lit ".part").
  { apply not_elem_of_app. split; [done|]. compute_done. }
  split_and!; try done; try apply Harch.
  - by destruct link.
  - unfold extract_year. rewrite length_take. lia.
  - unfold extract_year. apply prefix_take.
  - rewrite zip_path_of_snoc by done. apply path_name_snoc; [|apply Harch].
    rewrite Hstem. by destruct stem.
  - rewrite zip_path_of_snoc by done. rewrite Hstem.
    exists (raw_dir_of a k (stem ++ lit ".zip") ++ [stem ++ lit ".part"]).
    split_and!.
    + by apply with_suffix_zip.
    + rewrite !parent_snoc; try done; by destruct stem.
    + symmetry. apply zip_part_ne.
Qed.

Lemma resolved_names_well_formed_witness :
  length (extract_year scenario_name) = 4%nat
  ∧ path_name (zip_path_of default_args TRANS scenario_name) = scenario_name.
Proof.
  destruct (resolved_names_well_formed
              (lit "1234 abcd1234 http://host/gdeltv2/20250724144500.gkg.csv.zip")
              scenario_url scenario_name default_args TRANS
              scenario_resolves scenario_filename)
    as (_ & _ & [Hy _] & [Hp _]).
  exact (conj Hy Hp).
Defined.

(** X3. The subdirectory options go through [pathlib]'s [/]: a raw or CSV
    subdirectory that starts with a slash replaces the output root and the
    year, so the archive is stored at [raw_subdir/name] and the extraction
    goes to [csv_subdir], both anchored at the root of the file system. *)
Theorem absolute_subdir_escapes_output a k name rest :
  archive_name name →
  (raw_subdir a k = SLASH :: rest →
   zip_path_of a k name = Path (raw_subdir a k) ++ [name]
   ∧ has_root (zip_path_of a k name) = true)
  ∧ (csv_subdir a k = SLASH :: rest →
     out_dir_of a k name = Path (csv_subdir a k)
     ∧ has_root (out_dir_of a k name) = true).
Proof.
  intros Harch. split.
  - intros Hr. rewrite zip_path_of_snoc by done. unfold raw_dir_of.
    rewrite Hr, joinpath_anchored. split; [done|].
    pose proof (has_root_anchored rest) as H.
    destruct (Path (SLASH :: rest)); done.
  - intros Hc. unfold out_dir_of. rewrite Hc, joinpath_anchored.
    split; [done|]. apply has_root_anchored.
Qed.

Lemma absolute_subdir_escapes_output_witness :
  let a := {| output := lit "data"; interval := 120; skip_extract := false;
              raw_subdir_eng := lit "/srv/raw"; raw_subdir_trans := lit "tr";
              csv_subdir_eng := lit "csv"; csv_subdir_trans := lit "csv_tr";
              retries := 3; verbose := false; ignore_malformed := false |} in
  path_str (zip_path_of a ENG scenario_name)
  = lit "/srv/raw/20250724144500.gkg.csv.zip".
Proof.
  intros a.
  destruct (absolute_subdir_escapes_output a ENG scenario_name (lit "srv/raw"))
    as [Hraw _].
  - split; [by exists (lit "20250724144500")|compute_done].
  - destruct (Hraw eq_refl) as [-> _]. by vm_compute.
Defined.

Section more_fs.

Implicit Types (fs : FS) (pre d : path).

Lemma mkdir_from_succeeds rest : ∀ pre fs,
  (∀ i c, (0 < i ≤ length rest)%nat →
          fs !! (pre ++ take i rest) ≠ Some (File c)) →
  ∃ fs', mkdir_from pre rest fs = inr fs'.
Proof.
  induction rest as [|x rest IH]; intros pre fs H; simpl; [by eexists|].
  pose proof (H 1%nat) as H1. simpl in H1. rewrite take_0 in H1.
  assert (Hshift : ∀ i, (pre ++ [x]) ++ take i rest
                        = pre ++ take (S i) (x :: rest)).
  { intros i. by rewrite <- app_assoc. }
  destruct (fs !! (pre ++ [x])) as [[|c]|] eqn:Hd.
  - apply IH. intros i c Hi. rewrite Hshift. apply H. simpl. lia.
  - destruct (H1 c); [lia|done].
  - apply IH. intros i c Hi.
    destruct (decide ((pre ++ [x]) ++ take i rest = pre ++ [x])) as [E|Hne].
    + rewrite E. by rewrite lookup_insert_eq.
    + rewrite lookup_insert_ne by done. rewrite Hshift. apply H. simpl. lia.
Qed.

(** On a disk without regular files every directory can be made. *)
Lemma mkdir_p_succeeds d fs :
  (∀ p c, fs !! p ≠ Some (File c)) → ∃ fs', mkdir_p d fs = inr fs'.
Proof. intros H. apply mkdir_from_succeeds. intros i c _. apply H. Qed.

End more_fs.

(** X4. A download that returns has returned the destination, and the
    response was complete: the destination then holds the concatenation of
    the chunks (an empty file for an empty body), whatever regular file was
    there before; the temporary path is gone; every other path is kept; the
    variables of the scheduler are as before; and the rename to the
    destination is the last event. *)
Theorem download_zip_stores_body net url q stem w t w1 p :
  SLASH ∉ stem → stem ≠ [] →
  let dest := q ++ [stem ++ lit ".zip"] in
  let tmp := q ++ [stem ++ lit ".part"] in
  download_zip net url dest w = (t, w1, inr p) →
  p = dest
  ∧ (∃ r, net = GetResponse r ∧ (iter_content r CHUNK_SIZE).2 = None
          ∧ w_fs w1 !! dest
            = Some (File (concat (iter_content r CHUNK_SIZE).1))
          ∧ ((iter_content r CHUNK_SIZE).1 = [] →
             w_fs w1 !! dest = Some (File [])))
  ∧ w_fs w1 !! tmp = None
  ∧ (∀ p', p' ≠ tmp → is_Some (w_fs w !! p') → is_Some (w_fs w1 !! p'))
  ∧ same_vars w w1
  ∧ last t = Some (EvFs (OpRename tmp dest)).
Proof.
  intros Hs Hne dest tmp Hd.
  destruct (download_zip_returns _ _ _ _ _ _ _ _ Hs Hne Hd)
    as (Hp & Hv & (r0 & t0 & Hnet & Hend & Hfile & -> & _) & Hgone & Hkeep).
  split_and!; try done.
  - exists r0. split_and!; try done. intros Hnil. fold dest in Hfile.
    by rewrite Hfile, Hnil.
  - apply last_snoc.
Qed.

Lemma download_zip_stores_body_witness :
  let out := download_zip (GetResponse scenario_response) scenario_url
               (scenario_dir ++ [scenario_stem ++ lit ".zip"])
               (init_world default_args ∅) in
  w_fs out.1.2 !! (scenario_dir ++ [scenario_stem ++ lit ".zip"])
  = Some (File ["P"%byte; "K"%byte; "x"%byte])
  ∧ w_fs out.1.2 !! (scenario_dir ++ [scenario_stem ++ lit ".part"]) = None.
Proof.
  intros out.
  assert (Hs : SLASH ∉ scenario_stem) by compute_done.
  assert (Hne : scenario_stem ≠ []) by discriminate.
  destruct (download_zip_stores_body (GetResponse scenario_response)
              scenario_url scenario_dir scenario_stem
              (init_world default_args ∅) out.1.1 out.1.2
              (scenario_dir ++ [scenario_stem ++ lit ".zip"]) Hs Hne)
    as (_ & (r & Hr & _ & Hfile & _) & Hgone & _).
  - apply triple_with, scenario_download_returns.
  - injection Hr as <-. split; [exact Hfile|exact Hgone].
Defined.

(** X5. A download that cannot get to the body: when a regular file is in
    the way of the directories, [download_zip] raises before any request is
    sent and leaves no trace; when the request fails, the directories have
    been made but no temporary file exists that was not there before. *)
Theorem download_zip_early_failure net url q stem w :
  SLASH ∉ stem → stem ≠ [] →
  let dest := q ++ [stem ++ lit ".zip"] in
  let tmp := q ++ [stem ++ lit ".part"] in
  (∀ e, mkdir_p q (w_fs w) = inl e →
        download_zip net url dest w = ([], w, inl e))
  ∧ (∀ e fs1, mkdir_p q (w_fs w) = inr fs1 → net = GetRaises e →
       download_zip net url dest w
       = ([EvFs (OpMkdir q); EvGet url true], with_fs fs1 w, inl e)
       ∧ fs1 !! tmp = w_fs w !! tmp ∧ fs1 !! dest = w_fs w !! dest
       ∧ dir_ready fs1 q = true).
Proof.
  intros Hs Hne dest tmp. split.
  - intros e Hmk. unfold dest. rewrite download_zip_run by done.
    by rewrite Hmk.
  - intros e fs1 Hmk ->. split_and!.
    + unfold dest. rewrite download_zip_run by done. by rewrite Hmk.
    + eapply mkdir_p_other; [done|apply snoc_not_prefix].
    + eapply mkdir_p_other; [done|apply snoc_not_prefix].
    + by eapply mkdir_p_ready.
Qed.

(** A disk on which the year directory of the scenario is a regular
    file. *)
Definition blocked_disk : FS :=
  {[ [lit "data"] := Dir; [lit "data"; lit "2025"] := File [] ]}.

Lemma blocked_mkdir :
  mkdir_p scenario_dir blocked_disk = inl OSError.
Proof. by vm_compute. Qed.

Lemma download_zip_early_failure_witness :
  download_zip (GetResponse scenario_response) scenario_url
    (scenario_dir ++ [scenario_stem ++ lit ".zip"])
    (init_world default_args blocked_disk)
  = ([], init_world default_args blocked_disk, inl OSError).
Proof.
  assert (Hs : SLASH ∉ scenario_stem) by compute_done.
  assert (Hne : scenario_stem ≠ []) by discriminate.
  apply (proj1 (download_zip_early_failure (GetResponse scenario_response)
                  scenario_url scenario_dir scenario_stem
                  (init_world default_args blocked_disk) Hs Hne)).
  exact blocked_mkdir.
Defined.

(** X6. [extract_zip] makes the output directory first: when the archive
    path is missing or is a directory, it raises [OSError] with the output
    directory already created; whatever happens, it removes no path, leaves
    the variables of [run] alone, and its events are directories made and
    members written under the output directory. *)
Theorem extract_zip_effects env zip out w t w1 r :
  extract_zip env zip out w = (t, w1, r) →
  (same_vars w w1 ∧ keeps_paths (w_fs w) (w_fs w1)
   ∧ Forall (extract_under out) t)
  ∧ (∀ fs1, mkdir_p out (w_fs w) = inr fs1 →
       (∀ c, w_fs w !! zip ≠ Some (File c)) →
       t = [EvFs (OpMkdir out)] ∧ w1 = with_fs fs1 w ∧ r = inl OSError
       ∧ dir_ready (w_fs w1) out = true)
  ∧ (∀ e, mkdir_p out (w_fs w) = inl e → t = [] ∧ w1 = w ∧ r = inl e).
Proof.
  intros H. split_and!.
  - by destruct (extract_zip_grows _ _ _ _ _ _ _ H) as [[? _] _].
  - by destruct (extract_zip_grows _ _ _ _ _ _ _ H) as [[_ ?] _].
  - by destruct (extract_zip_under _ _ _ _ _ _ _ H) as [_ ?].
  - intros fs1 Hmk Hzip. revert H. unfold extract_zip.
    rewrite bind_run. unfold do_op at 1. simpl. rewrite Hmk.
    rewrite bind_run. simpl.
    assert (Hz1 : ∀ c, fs1 !! zip ≠ Some (File c)).
    { intros c Hc. destruct (w_fs w !! zip) as [n|] eqn:E.
      - rewrite (mkdir_p_Some _ _ _ _ _ Hmk E) in Hc. by eapply Hzip.
      - destruct (mkdir_from_lookup _ _ _ _ Hmk zip) as [Hsame|(_ & Hd & _)];
          congruence. }
    destruct (fs1 !! zip) as [[|c]|] eqn:E.
    + intros [= <- <- <-]. split_and!; try done. by eapply mkdir_p_ready.
    + by destruct (Hz1 c).
    + intros [= <- <- <-]. split_and!; try done. by eapply mkdir_p_ready.
  - intros e Hmk. revert H. unfold extract_zip.
    rewrite bind_run. unfold do_op at 1. simpl. rewrite Hmk.
    by intros [= <- <- <-].
Qed.

Lemma extract_zip_effects_witness :
  let x := extract_zip scenario_env (scenario_dir ++ [scenario_name])
             [lit "data"; lit "2025"; lit "csv_en"]
             (init_world default_args ∅) in
  x.1.1 = [EvFs (OpMkdir [lit "data"; lit "2025"; lit "csv_en"])]
  ∧ x.2 = inl OSError.
Proof.
  intros x.
  destruct (mkdir_p_succeeds [lit "data"; lit "2025"; lit "csv_en"]
              (w_fs (init_world default_args ∅)))
    as [fs1 Hmk]; [intros p c; apply lookup_empty_Some|].
  destruct (extract_zip_effects scenario_env (scenario_dir ++ [scenario_name])
              [lit "data"; lit "2025"; lit "csv_en"]
              (init_world default_args ∅) x.1.1 x.1.2 x.2 (triple_eta _))
    as (_ & Hmissing & _).
  destruct (Hmissing fs1 Hmk) as (Ht & _ & Hr & _).
  - intros c. unfold init_world. cbn [w_fs]. by rewrite lookup_empty.
  - exact (conj Ht Hr).
Defined.

(** ** Which exceptions leave a step *)

Section error_sources.

Implicit Types (a : Args) (k : kind) (env : stream_env) (w : world).

Lemma mkdir_from_error rest : ∀ pre fs e,
  mkdir_from pre rest fs = inl e → e = OSError.
Proof.
  induction rest as [|x rest IH]; intros pre fs e; simpl; [done|].
  destruct (fs !! (pre ++ [x])) as [[|c]|]; [apply IH|congruence|apply IH].
Qed.

(** The operations on the disk raise nothing but [OSError]. *)
Lemma apply_op_error op fs e : apply_op op fs = inl e → e = OSError.
Proof.
  destruct op as [d|p|p data|p|s d|p data]; simpl.
  - apply mkdir_from_error.
  - destruct (dir_ready fs (parent p)); [|congruence].
    destruct (fs !! p) as [[|c]|]; congruence.
  - destruct (fs !! p) as [[|c]|]; congruence.
  - done.
  - destruct (fs !! s); [|congruence].
    destruct (fs !! d) as [[|c]|]; congruence.
  - destruct (mkdir_p (parent p) fs) as [e'|fs'] eqn:E.
    + intros [= <-]. by eapply mkdir_from_error.
    + destruct (fs' !! p) as [[|c]|]; congruence.
Qed.

Lemma download_zip_error_source net url q stem w t w1 e :
  SLASH ∉ stem → stem ≠ [] →
  download_zip net url (q ++ [stem ++ lit ".zip"]) w = (t, w1, inl e) →
  e = OSError ∨ net = GetRaises e
  ∨ ∃ r, net = GetResponse r ∧ (iter_content r CHUNK_SIZE).2 = Some e.
Proof.
  intros Hs Hne. rewrite download_zip_run by done.
  destruct (mkdir_p q (w_fs w)) as [e0|fs1] eqn:Hmk.
  { intros [= <- <- <-]. left. by eapply mkdir_from_error. }
  destruct net as [e0|r]; [intros [= <- <- <-]; by right; left|]. simpl.
  destruct (fs1 !! (q ++ [stem ++ lit ".part"])) as [[|old]|];
    [intros [= <- <- <-]; by left| |].
  all: destruct ((iter_content r CHUNK_SIZE).2) as [e0|] eqn:Herr;
    [ intros [= <- <- <-]; right; right; by exists r
    | destruct (fs1 !! (q ++ [stem ++ lit ".zip"])) as [[|c]|];
      [intros [= <- <- <-]; by left|done|done] ].
Qed.

Lemma put_members_error out ms : ∀ w t w1 e,
  put_members out ms w = (t, w1, inl e) → e = OSError.
Proof.
  induction ms as [|[rel data] ms IH]; intros w t w1 e; simpl; [done|].
  rewrite bind_run. unfold do_op at 1.
  destruct (apply_op (OpPut (out ++ rel) data) (w_fs w)) as [e0|fs'] eqn:E.
  - intros [= <- <- <-]. by eapply apply_op_error.
  - destruct (put_members out ms (with_fs fs' w)) as [[t2 w2] [e2|[]]] eqn:E2;
      [|done]. intros [= <- <- <-]. by eapply IH.
Qed.

Lemma extract_zip_error_source env zip out w t w1 e :
  extract_zip env zip out w = (t, w1, inl e) →
  e = OSError ∨ archive_error env = Some e.
Proof.
  unfold extract_zip. rewrite bind_run. unfold do_op at 1.
  destruct (apply_op (OpMkdir out) (w_fs w)) as [e0|fs1] eqn:Hmk.
  { intros [= <- <- <-]. left. by eapply apply_op_error. }
  rewrite bind_run. simpl.
  destruct (fs1 !! zip) as [[|c]|]; try (intros [= <- <- <-]; by left).
  rewrite bind_run.
  destruct (put_members out (archive_members env) (with_fs fs1 w))
    as [[t2 w2] [e2|[]]] eqn:Hput.
  - intros [= <- <- <-]. left. by eapply put_members_error.
  - destruct (archive_error env) as [e0|]; [|done].
    intros [= <- <- <-]. by right.
Qed.

End error_sources.

(** X7. Two calls of a step are outside its inner [try] blocks and can
    raise: the pointer request and [zip_path.exists()]. An exception that
    escapes the body of the [for] loop is the one either of them raised, or
    it is not of class [Exception] (an interrupt) and was raised by the
    archive request, by the streamed body or by the archive reader: no
    exception of class [Exception] leaves the download or the extraction. *)
Theorem step_raises_only_from_outside a k env w t w' e :
  stream_step a k env w = (t, w', inl e) →
  poll_result env = inl e
  ∨ exists_error env = Some e
  ∨ (is_Exception e = false
     ∧ (download_result env = GetRaises e
        ∨ (∃ r, download_result env = GetResponse r
                ∧ (iter_content r CHUNK_SIZE).2 = Some e)
        ∨ archive_error env = Some e)).
Proof.
  destruct (poll_result env) as [e0|text] eqn:Hp.
  { rewrite (stream_step_poll_raises _ _ _ _ _ Hp). intros [= <- <- <-].
    by left. }
  destruct (poll_text_total text) as [[link|] Ht].
  2:{ by rewrite (stream_step_malformed _ _ _ _ _ Hp Ht). }
  destruct (safe_filename_spec link) as (name & Hn & _).
  pose proof (resolved_archive_name _ _ _ Ht Hn) as Harch.
  destruct (archive_name_stem _ Harch) as (stem & Hstem & Hne & Hs & _).
  rewrite (stream_step_resolved _ _ _ _ _ _ _ Hp Ht Hn).
  destruct (bool_decide (name ∈ seen_of k w)); [done|].
  rewrite obtain_zip_run.
  destruct (exists_error env) as [e0|].
  { intros [= <- <- <-]. right. by left. }
  destruct (fs_exists (w_fs w) (zip_path_of a k name)).
  - rewrite extract_step_run. destruct (skip_extract a); [done|].
    destruct (extract_zip env (zip_path_of a k name) (out_dir_of a k name) w)
      as [[te we] [e1|[]]] eqn:Hx; [|done].
    destruct (is_Exception e1) eqn:He1; [done|]. intros [= <- <- <-].
    right. right. split; [done|]. right. right.
    destruct (extract_zip_error_source _ _ _ _ _ _ _ Hx) as [->|?]; done.
  - destruct (download_zip (download_result env) link (zip_path_of a k name) w)
      as [[td wd] [e1|p]] eqn:Hd.
    + destruct (is_Exception e1) eqn:He1; [done|]. intros [= <- <- <-].
      right. right. split; [done|]. revert Hd.
      rewrite zip_path_of_snoc by done. rewrite Hstem. intros Hd.
      destruct (download_zip_error_source _ _ _ _ _ _ _ _ Hs Hne Hd)
        as [->|[?|?]]; [done|by left|by right; left].
    + rewrite extract_step_run. destruct (skip_extract a); [done|].
      destruct (extract_zip env (zip_path_of a k name) (out_dir_of a k name) wd)
        as [[te we] [e1|[]]] eqn:Hx; [|done].
      destruct (is_Exception e1) eqn:He1; [done|]. intros [= <- <- <-].
      right. right. split; [done|]. right. right.
      destruct (extract_zip_error_source _ _ _ _ _ _ _ Hx) as [->|?]; done.
Qed.

(** A download interrupted from the keyboard. *)
Definition interrupted_env : stream_env :=
  {| poll_result :=
       inr (lit "1234 abcd1234 http://host/gdeltv2/20250724144500.gkg.csv.zip");
     exists_error := None;
     download_result :=
       GetResponse {| iter_content := λ _,
                        ([["P"%byte]], Some KeyboardInterrupt) |};
     archive_members := [];
     archive_error := None |}.

Lemma interrupted_step_raises :
  (stream_step default_args ENG interrupted_env
     (init_world default_args ∅)).2
  = inl KeyboardInterrupt.
Proof. by vm_compute. Qed.

Lemma step_raises_only_from_outside_witness :
  is_Exception KeyboardInterrupt = false
  ∧ ∃ r, download_result interrupted_env = GetResponse r
         ∧ (iter_content r CHUNK_SIZE).2 = Some KeyboardInterrupt.
Proof.
  pose (s := stream_step default_args ENG interrupted_env
               (init_world default_args ∅)).
  destruct (step_raises_only_from_outside default_args ENG interrupted_env
              (init_world default_args ∅) s.1.1 s.1.2 KeyboardInterrupt)
    as [Hp|[Hx|[He [Hg|[Hr|Ha]]]]].
  - rewrite <- interrupted_step_raises. apply triple_eta.
  - discriminate Hp.
  - discriminate Hx.
  - discriminate Hg.
  - exact (conj He Hr).
  - discriminate Ha.
Defined.

(** ** Marking names as seen *)

(** The other stream. *)
Definition other (k : kind) : kind :=
  match k with ENG => TRANS | TRANS => ENG end.

(** Events of [download_zip]: requests and operations on the archive and
    its temporary file, no log line, no extracted member. *)
Definition download_event (ev : event) : Prop :=
  match ev with
  | EvGet _ true => True
  | EvFs (OpMkdir _) | EvFs (OpOpenW _) | EvFs (OpWrite _ _)
  | EvFs (OpClose _) | EvFs (OpRename _ _) => True
  | _ => False
  end.

(** An event that belongs to extraction: a member written, or one of the
    two log lines of the extraction block. *)
Definition extraction_trace (ev : event) : Prop :=
  match ev with
  | EvFs (OpPut _ _) => True
  | EvLog _ (LogExtracted _ _) | EvLog _ (LogExtractFail _ _) => True
  | _ => False
  end.

(** The log lines that announce a download or an archive found on disk for
    [name] on stream [k]. *)
Definition fetches (k : kind) (name : str) (ev : event) : Prop :=
  ev = EvLog INFO (LogDownloading k name) ∨ ev = EvLog INFO (LogOnDisk k name).

(** [holds I P m]: from a world in [I], [m] ends in [I] and produces only
    events in [P]. *)
Definition holds (I : world → Prop) (P : event → Prop) {A} (m : M A) : Prop :=
  ∀ w t w' r, I w → m w = (t, w', r) → I w' ∧ Forall P t.

Section marking.

Implicit Types (a : Args) (k : kind) (env : stream_env) (w : world)
  (name : str).

Lemma download_zip_events net url q stem w t w1 r :
  SLASH ∉ stem → stem ≠ [] →
  download_zip net url (q ++ [stem ++ lit ".zip"]) w = (t, w1, r) →
  Forall download_event t.
Proof.
  intros Hs Hne H.
  destruct (download_zip_shape _ _ _ _ _ _ _ _ Hs Hne H) as (T & HT & Hcase).
  assert (HT' : Forall download_event T).
  { eapply Forall_impl; [exact HT|].
    intros ev [->|[->|[->|[->|(?&?&->&_)]]]]; done. }
  destruct Hcase as [[-> _]|(-> & _)]; [done|].
  apply Forall_app. split; [done|]. by repeat constructor.
Qed.

Lemma holds_bind I P {A B} (m : M A) (f : A → M B) :
  holds I P m → (∀ x, holds I P (f x)) → holds I P (m ≫= f).
Proof.
  intros Hm Hf w t w' r HI. rewrite bind_run.
  destruct (m w) as [[t1 w1] [e|x]] eqn:E1.
  - intros [= <- <- <-]. by eapply Hm.
  - destruct (f x w1) as [[t2 w2] r2] eqn:E2. intros [= <- <- <-].
    destruct (Hm _ _ _ _ HI E1) as [HI1 HP1].
    destruct (Hf _ _ _ _ _ HI1 E2) as [HI2 HP2].
    split; [done|by apply Forall_app].
Qed.

Lemma holds_try I P {A} (m : M A) c h :
  holds I P m → (∀ e, holds I P (h e)) → holds I P (try_except m c h).
Proof.
  intros Hm Hh w t w' r HI. unfold try_except.
  destruct (m w) as [[t1 w1] [e|x]] eqn:E1.
  - destruct (Hm _ _ _ _ HI E1) as [HI1 HP1]. destruct (c e).
    + destruct (h e w1) as [[t2 w2] r2] eqn:E2. intros [= <- <- <-].
      destruct (Hh _ _ _ _ _ HI1 E2) as [HI2 HP2].
      split; [done|by apply Forall_app].
    + by intros [= <- <- <-].
  - intros [= <- <- <-]. by eapply Hm.
Qed.

Lemma holds_quiet I P {A} (m : M A) :
  (∀ w t w' r, m w = (t, w', r) → Forall P t ∧ (I w → I w')) → holds I P m.
Proof. intros Hm w t w' r HI H. destruct (Hm _ _ _ _ H). auto. Qed.

End marking.

(** X8. With [--skip-extract] a step writes no member and logs nothing of
    an extraction; and when the archive of an unseen name is at hand (on
    disk or just downloaded) the step ends by adding the name to the seen
    set of the stream. *)
Theorem skip_extract_only_downloads a k env w t w' r :
  skip_extract a = true →
  stream_step a k env w = (t, w', r) →
  Forall (λ ev, ¬ extraction_trace ev) t
  ∧ (∀ text link name t1 w1,
       poll_result env = inr text → poll_text text = inr (Some link) →
       safe_filename link = inr name → name ∉ seen_of k w →
       obtain_zip k env link name (zip_path_of a k name) w
       = (t1, w1, inr true) →
       t = polled a k ++ t1 ∧ w' = add_seen k name w1 ∧ r = inr tt).
Proof.
  intros Hskip Hstep.
  assert (Hpolled : Forall (λ ev, ¬ extraction_trace ev) (polled a k)).
  { unfold polled. destruct (verbose a); repeat constructor; by intros []. }
  split.
  - revert Hstep. destruct (poll_result env) as [e0|text] eqn:Hp.
    { rewrite (stream_step_poll_raises _ _ _ _ _ Hp). by intros [= <- <- <-]. }
    destruct (poll_text_total text) as [[link|] Ht].
    2:{ rewrite (stream_step_malformed _ _ _ _ _ Hp Ht). intros [= <- <- <-].
        apply Forall_app. split; [done|].
        destruct (ignore_malformed a); repeat constructor. by intros []. }
    destruct (safe_filename_spec link) as (name & Hn & _).
    pose proof (resolved_archive_name _ _ _ Ht Hn) as Harch.
    destruct (archive_name_stem _ Harch) as (stem & Hstem & Hne & Hs & _).
    rewrite (stream_step_resolved _ _ _ _ _ _ _ Hp Ht Hn).
    destruct (bool_decide (name ∈ seen_of k w)); [by intros [= <- <- <-]|].
    assert (Hobtain : ∀ t1 w1 r1,
      obtain_zip k env link name (zip_path_of a k name) w = (t1, w1, r1) →
      Forall (λ ev, ¬ extraction_trace ev) t1).
    { intros t1 w1 r1. rewrite obtain_zip_run.
      destruct (exists_error env) as [e0|]; [by intros [= <- <- <-]|].
      destruct (fs_exists (w_fs w) (zip_path_of a k name)).
      { intros [= <- <- <-]. repeat constructor. by intros []. }
      destruct (download_zip (download_result env) link
                  (zip_path_of a k name) w) as [[td wd] rd] eqn:Hd.
      assert (Htd : Forall (λ ev, ¬ extraction_trace ev) td).
      { revert Hd. rewrite zip_path_of_snoc by done. rewrite Hstem. intros Hd.
        eapply Forall_impl;
          [exact (download_zip_events _ _ _ _ _ _ _ _ Hs Hne Hd)|].
        intros ev H1 H2. destruct ev as [? []|? []|[]|]; simpl in *; done. }
      destruct rd as [e|p]; [destruct (is_Exception e)|];
        intros [= <- <- <-]; constructor; try (by intros []);
        try done; apply Forall_app; (split; [done|]);
        repeat constructor; by intros []. }
    destruct (obtain_zip k env link name (zip_path_of a k name) w)
      as [[t1 w1] [e|[]]] eqn:Ho.
    + intros [= <- <- <-]. apply Forall_app. split; [done|]. by eapply Hobtain.
    + rewrite extract_step_run, Hskip. intros [= <- <- <-].
      rewrite app_nil_r. apply Forall_app. split; [done|]. by eapply Hobtain.
    + intros [= <- <- <-]. apply Forall_app. split; [done|]. by eapply Hobtain.
  - intros text link name t1 w1 Hp Ht Hn Hseen Ho. revert Hstep.
    rewrite (stream_step_resolved _ _ _ _ _ _ _ Hp Ht Hn).
    rewrite bool_decide_eq_false_2 by done. rewrite Ho.
    rewrite extract_step_run, Hskip. intros [= <- <- <-].
    by rewrite app_nil_r.
Qed.

(** The arguments with [--skip-extract]. *)
Definition download_only_args : Args :=
  {| output := lit "data";
     interval := DEFAULT_INTERVAL;
     skip_extract := true;
     raw_subdir_eng := lit "rawdata_en";
     raw_subdir_trans := lit "rawdata_tr";
     csv_subdir_eng := lit "csv_en";
     csv_subdir_trans := lit "csv_tr";
     retries := 3;
     verbose := false;
     ignore_malformed := false |}.

Lemma skip_extract_only_downloads_witness :
  Forall (λ ev, ¬ extraction_trace ev)
    (stream_step download_only_args ENG scenario_env
       (init_world download_only_args ∅)).1.1.
Proof.
  pose (s := stream_step download_only_args ENG scenario_env
               (init_world download_only_args ∅)).
  exact (proj1 (skip_extract_only_downloads download_only_args ENG
                  scenario_env (init_world download_only_args ∅)
                  s.1.1 s.1.2 s.2 eq_refl (triple_eta _))).
Defined.

(** X9. A step changes neither [backoff] nor the seen set of the other
    stream; it leaves the seen set of its stream as it was, or adds exactly
    one name to it, a name that was unseen, that ends with the suffix, and
    whose archive path exists on disk when the step ends. *)
Theorem seen_marks_archive_on_disk a k env w t w' r :
  stream_step a k env w = (t, w', r) →
  seen_of (other k) w' = seen_of (other k) w ∧ backoff w' = backoff w
  ∧ (seen_of k w' = seen_of k w
     ∨ ∃ name, archive_name name ∧ (name ∉ seen_of k w)
         ∧ seen_of k w' = {[name]} ∪ seen_of k w
         ∧ is_Some (w_fs w' !! zip_path_of a k name) ∧ r = inr tt).
Proof.
  assert (Hsame : ∀ w1, same_vars w w1 →
    seen_of (other k) w1 = seen_of (other k) w ∧ backoff w1 = backoff w
    ∧ seen_of k w1 = seen_of k w).
  { intros w1 (?&?&?). by destruct k. }
  destruct (poll_result env) as [e0|text] eqn:Hp.
  { rewrite (stream_step_poll_raises _ _ _ _ _ Hp). intros [= <- <- <-]. auto. }
  destruct (poll_text_total text) as [[link|] Ht].
  2:{ rewrite (stream_step_malformed _ _ _ _ _ Hp Ht). intros [= <- <- <-].
      auto. }
  destruct (safe_filename_spec link) as (name & Hn & _).
  pose proof (resolved_archive_name _ _ _ Ht Hn) as Harch.
  destruct (archive_name_stem _ Harch) as (stem & Hstem & Hne & Hs & _).
  rewrite (stream_step_resolved _ _ _ _ _ _ _ Hp Ht Hn).
  destruct (bool_decide (name ∈ seen_of k w)) eqn:Hseen.
  { intros [= <- <- <-]. auto. }
  apply bool_decide_eq_false_1 in Hseen.
  destruct (obtain_zip k env link name (zip_path_of a k name) w)
    as [[t1 w1] r1] eqn:Ho.
  destruct (obtain_zip_same_vars _ _ _ _ _ _ _ _ _ Ho) as [Hv1 _].
  destruct (Hsame _ Hv1) as (Ho1 & Hb1 & Hk1).
  destruct r1 as [e|[]].
  - intros [= <- <- <-]. auto.
  - assert (Hthere : is_Some (w_fs w1 !! zip_path_of a k name)).
    { revert Ho. rewrite zip_path_of_snoc by done. rewrite Hstem. intros Ho.
      by destruct (obtain_zip_true _ _ _ _ _ _ _ _ Hs Hne Ho). }
    destruct (extract_step a k env name (zip_path_of a k name) w1)
      as [[t2 w2] r2] eqn:Hx.
    destruct (extract_step_same_vars _ _ _ _ _ _ _ _ _ Hx) as [Hv2 _].
    destruct (extract_step_quiet _ _ _ _ _ _ _ _ _ Hx) as (_ & _ & Hk & _).
    assert (Hv : same_vars w w2) by by etrans.
    destruct (Hsame _ Hv) as (Ho2 & Hb2 & Hk2).
    destruct r2 as [e|[]]; intros [= <- <- <-]; [auto|].
    split_and!.
    + rewrite <- Ho2. by destruct k.
    + rewrite <- Hb2. by destruct k.
    + right. exists name. split_and!; try done.
      * rewrite <- Hk2. by destruct k.
      * replace (w_fs (add_seen k name w2)) with (w_fs w2) by by destruct k.
        by apply Hk.
  - intros [= <- <- <-]. auto.
Qed.

Lemma seen_marks_archive_on_disk_witness :
  seen_of TRANS (stream_step default_args ENG scenario_env
                   (init_world default_args ∅)).1.2 = ∅
  ∧ backoff (stream_step default_args ENG scenario_env
               (init_world default_args ∅)).1.2 = 120.
Proof.
  destruct (seen_marks_archive_on_disk default_args ENG scenario_env
              (init_world default_args ∅) _ _ _ (triple_eta _))
    as (Ho & Hb & _).
  exact (conj Ho Hb).
Defined.

(** ** The events of a step *)

(** What a step of stream [k] that starts with the seen set [seen] can
    produce: the poll, the warning of a malformed pointer, and, for a name
    that is not in [seen], the events of the download and of the
    extraction with their log lines. *)
Definition step_event (k : kind) (seen : gset str) (ev : event) : Prop :=
  ev = EvLog DEBUG (LogPolling (pointer_url k))
  ∨ ev = EvGet (pointer_url k) false
  ∨ ev = EvLog WARNING (LogUnexpected k)
  ∨ download_event ev ∨ extract_event ev
  ∨ ev = EvLog INFO (LogDownloaded k)
  ∨ (∃ d, ev = EvLog INFO (LogExtracted k d))
  ∨ (∃ e, ev = EvLog ERROR (LogExtractFail k e))
  ∨ ∃ name, (name ∉ seen)
      ∧ (ev = EvLog INFO (LogOnDisk k name)
         ∨ ev = EvLog INFO (LogDownloading k name)
         ∨ ∃ e, ev = EvLog ERROR (LogDownloadFailed k name e)).

Section step_events.

Implicit Types (a : Args) (k : kind) (env : stream_env) (w : world)
  (name : str).

Lemma polled_step_events a k seen : Forall (step_event k seen) (polled a k).
Proof.
  assert (Hget : step_event k seen (EvGet (pointer_url k) false)).
  { right. by left. }
  unfold polled. destruct (verbose a); simpl.
  - constructor; [by left|]. by constructor.
  - by constructor.
Qed.

Lemma stream_step_events a k env w t w' r :
  stream_step a k env w = (t, w', r) →
  Forall (step_event k (seen_of k w)) t.
Proof.
  pose proof (polled_step_events a k (seen_of k w)) as Hpolled.
  destruct (poll_result env) as [e0|text] eqn:Hp.
  { rewrite (stream_step_poll_raises _ _ _ _ _ Hp). by intros [= <- <- <-]. }
  destruct (poll_text_total text) as [[link|] Ht].
  2:{ rewrite (stream_step_malformed _ _ _ _ _ Hp Ht). intros [= <- <- <-].
      apply Forall_app. split; [done|].
      destruct (ignore_malformed a); [done|].
      constructor; [|done]. right. right. by left. }
  destruct (safe_filename_spec link) as (name & Hn & _).
  pose proof (resolved_archive_name _ _ _ Ht Hn) as Harch.
  destruct (archive_name_stem _ Harch) as (stem & Hstem & Hne & Hs & _).
  rewrite (stream_step_resolved _ _ _ _ _ _ _ Hp Ht Hn).
  destruct (bool_decide (name ∈ seen_of k w)) eqn:Hseen;
    [by intros [= <- <- <-]|].
  apply bool_decide_eq_false_1 in Hseen.
  assert (Hnamed : ∀ ev,
    ev = EvLog INFO (LogOnDisk k name)
    ∨ ev = EvLog INFO (LogDownloading k name)
    ∨ (∃ e, ev = EvLog ERROR (LogDownloadFailed k name e)) →
    step_event k (seen_of k w) ev).
  { intros ev Hev. do 8 right. by exists name. }
  assert (Hobtain : ∀ t1 w1 r1,
    obtain_zip k env link name (zip_path_of a k name) w = (t1, w1, r1) →
    Forall (step_event k (seen_of k w)) t1).
  { intros t1 w1 r1. rewrite obtain_zip_run.
    destruct (exists_error env) as [e0|]; [by intros [= <- <- <-]|].
    destruct (fs_exists (w_fs w) (zip_path_of a k name)).
    { intros [= <- <- <-]. constructor; [|done]. apply Hnamed. by left. }
    destruct (download_zip (download_result env) link
                (zip_path_of a k name) w) as [[td wd] rd] eqn:Hd.
    assert (Htd : Forall (step_event k (seen_of k w)) td).
    { revert Hd. rewrite zip_path_of_snoc by done. rewrite Hstem. intros Hd.
      eapply Forall_impl;
        [exact (download_zip_events _ _ _ _ _ _ _ _ Hs Hne Hd)|].
      intros ev Hev. do 3 right. by left. }
    assert (Hfirst : step_event k (seen_of k w)
                       (EvLog INFO (LogDownloading k name))).
    { apply Hnamed. right. by left. }
    destruct rd as [e|p]; [destruct (is_Exception e)|];
      intros [= <- <- <-]; constructor; try done;
      apply Forall_app; (split; [done|]); (constructor; [|done]).
    - apply Hnamed. right. right. by exists e.
    - do 5 right. by left. }
  assert (Hextract : ∀ w1 t2 w2 r2,
    extract_step a k env name (zip_path_of a k name) w1 = (t2, w2, r2) →
    Forall (step_event k (seen_of k w)) t2).
  { intros w1 t2 w2 r2. rewrite extract_step_run.
    destruct (skip_extract a); [by intros [= <- <- <-]|].
    destruct (extract_zip env (zip_path_of a k name) (out_dir_of a k name) w1)
      as [[te we] re] eqn:He.
    destruct (extract_zip_grows _ _ _ _ _ _ _ He) as [_ Hev].
    assert (Hte : Forall (step_event k (seen_of k w)) te).
    { eapply Forall_impl; [exact Hev|]. intros ev H. do 4 right. by left. }
    destruct re as [e|[]]; [destruct (is_Exception e)|];
      intros [= <- <- <-]; try done;
      apply Forall_app; (split; [done|]); (constructor; [|done]).
    - do 7 right. left. by exists e.
    - do 6 right. left. by eexists. }
  destruct (obtain_zip k env link name (zip_path_of a k name) w)
    as [[t1 w1] [e|[]]] eqn:Ho.
  - intros [= <- <- <-]. apply Forall_app. split; [done|]. by eapply Hobtain.
  - destruct (extract_step a k env name (zip_path_of a k name) w1)
      as [[t2 w2] r2] eqn:Hx.
    assert (Forall (step_event k (seen_of k w)) (polled a k ++ t1 ++ t2)).
    { apply Forall_app. split; [done|]. apply Forall_app.
      split; [by eapply Hobtain|by eapply Hextract]. }
    by destruct r2 as [e|[]]; intros [= <- <- <-].
  - intros [= <- <- <-]. apply Forall_app. split; [done|]. by eapply Hobtain.
Qed.

Lemma step_event_no_sleep k seen ev s : step_event k seen ev → ev ≠ EvSleep s.
Proof.
  intros H ->.
  destruct H as [?|[?|[?|[?|[?|[?|[[??]|[[??]|(?&_&[?|[?|[??]]])]]]]]]]];
    done.
Qed.

Lemma sleeps_app t1 t2 : sleeps (t1 ++ t2) = sleeps t1 ++ sleeps t2.
Proof. apply omap_app. Qed.

Lemma sleeps_none t :
  Forall (λ ev, ∀ s, ev ≠ EvSleep s) t → sleeps t = [].
Proof.
  induction 1 as [|ev t Hev _ IH]; [done|].
  destruct ev; try exact IH. by destruct (Hev secs).
Qed.

Lemma stream_step_no_sleep a k env w t w' r :
  stream_step a k env w = (t, w', r) → sleeps t = [].
Proof.
  intros H. apply sleeps_none.
  eapply Forall_impl; [exact (stream_step_events _ _ _ _ _ _ _ H)|].
  intros ev Hev s. by eapply step_event_no_sleep.
Qed.

Lemma step_event_not_fetches k k0 seen name ev :
  (k = k0 → name ∈ seen) → step_event k seen ev → ¬ fetches k0 name ev.
Proof.
  intros Hin H [->| ->].
  - destruct H as [?|[?|[?|[?|[?|[?|[[??]|[[??]|(n&Hn&[?|[?|[??]]])]]]]]]]];
      try done. simplify_eq. by apply Hn, Hin.
  - destruct H as [?|[?|[?|[?|[?|[?|[[??]|[[??]|(n&Hn&[?|[?|[??]]])]]]]]]]];
      try done. simplify_eq. by apply Hn, Hin.
Qed.

Lemma holds_ret I P {A} (x : A) : holds I P (mret x).
Proof. by intros w t w' r HI [= <- <- <-]. Qed.

Lemma holds_raise I P {A} e : holds I P (@raise A e).
Proof. by intros w t w' r HI [= <- <- <-]. Qed.

Lemma holds_emit I (P : event → Prop) ev : P ev → holds I P (emit ev).
Proof. intros HP w t w' r HI [= <- <- <-]. split; [done|]. by constructor. Qed.

Lemma holds_modify (I : world → Prop) P f :
  (∀ w, I w → I (f w)) → holds I P (modify f).
Proof. intros Hf w t w' r HI [= <- <- <-]. split; [by apply Hf|done]. Qed.

Lemma holds_get_world I P {A} (f : world → M A) :
  (∀ w, holds I P (f w)) → holds I P (get_world ≫= f).
Proof.
  intros Hf w t w' r HI. rewrite bind_run. simpl.
  destruct (f w w) as [[t2 w2] r2] eqn:E. intros [= <- <- <-].
  by eapply Hf.
Qed.

Lemma holds_sleep I (P : event → Prop) secs i :
  (∀ s, P (EvSleep s)) → holds I P (sleep secs i).
Proof.
  intros HP w t w' r HI. rewrite sleep_run.
  destruct ((secs <? - SLEEP_MAX) || (SLEEP_MAX <? secs));
    [by intros [= <- <- <-]|].
  destruct (secs <? 0); [by intros [= <- <- <-]|].
  destruct i; intros [= <- <- <-]; (split; [done|]); by repeat constructor.
Qed.

Lemma holds_handler (I : world → Prop) (P : event → Prop) a
    (env : cycle_env) e :
  (∀ lv m, (∀ k name, m ≠ LogOnDisk k name ∧ m ≠ LogDownloading k name) →
           P (EvLog lv m)) →
  (∀ s, P (EvSleep s)) →
  (∀ b w, I w → I (with_backoff b w)) →
  holds I P (cycle_handler a env e).
Proof.
  intros Hlog Hsl Hb. unfold cycle_handler.
  destruct (is_retryable e).
  { apply holds_get_world. intros w. apply holds_bind.
    { apply holds_emit, Hlog. done. }
    intros _. apply holds_bind; [by apply holds_sleep|].
    intros _. apply holds_modify. intros w0. apply Hb. }
  destruct (bool_decide (e = KeyboardInterrupt)).
  { apply holds_bind; [apply holds_emit, Hlog; done|].
    intros _. apply holds_raise. }
  apply holds_bind; [apply holds_emit, Hlog; done|]. intros _.
  apply holds_bind.
  { destruct (negb (ignore_malformed a));
      [apply holds_raise|apply holds_ret]. }
  intros _. apply holds_get_world. intros w. by apply holds_sleep.
Qed.

End step_events.

(** X10. Once a name is in the seen set of a stream, no later iteration
    announces a download of that name or finds its archive on disk for
    that stream, whatever happens to the disk in between; and the name
    stays in the set. *)
Theorem seen_name_never_fetched_again a k name envs : ∀ w t w' r,
  name ∈ seen_of k w →
  run_cycles a envs w = (t, w', r) →
  name ∈ seen_of k w' ∧ Forall (λ ev, ¬ fetches k name ev) t.
Proof.
  set (I := λ w : world, name ∈ seen_of k w).
  set (P := λ ev, ¬ fetches k name ev).
  assert (Hlog : ∀ lv m,
    (∀ k0 n, m ≠ LogOnDisk k0 n ∧ m ≠ LogDownloading k0 n) → P (EvLog lv m)).
  { intros lv m Hm [[= -> ->]|[= -> ->]]; by destruct (Hm k name). }
  assert (Hsl : ∀ s, P (EvSleep s)) by (by intros s [|]).
  assert (Hstep : ∀ k0 env, holds I P (stream_step a k0 env)).
  { intros k0 env w t w' r HI H. split.
    - destruct (stream_step_frame _ _ _ _ _ _ _ H) as [[[Hg1 Hg2] _] _].
      unfold I in *. destruct k; set_solver.
    - eapply Forall_impl; [exact (stream_step_events _ _ _ _ _ _ _ H)|].
      intros ev Hev. eapply step_event_not_fetches; [|exact Hev].
      by intros ->. }
  assert (Hcycle : ∀ env, holds I P (cycle a env)).
  { intros env. apply holds_try.
    - unfold cycle_body. apply holds_bind; [apply Hstep|]. intros _.
      apply holds_bind; [apply Hstep|]. intros _.
      apply holds_bind; [by apply holds_sleep|]. intros _.
      apply holds_modify. intros w. unfold I. by destruct k.
    - intros e. apply holds_handler; [exact Hlog|exact Hsl|].
      intros b w. unfold I. by destruct k. }
  change (holds I P (run_cycles a envs)).
  induction envs as [|env envs IH]; [apply holds_ret|].
  simpl. apply holds_bind.
  { apply holds_modify. intros w. unfold I. by destruct k. }
  intros _. apply holds_bind; [apply Hcycle|]. intros _. exact IH.
Qed.

(** A state in which the artifact of the scenario is already seen on the
    English stream. *)
Definition seen_world : world :=
  add_seen ENG scenario_name (init_world default_args ∅).

Lemma scenario_seen : scenario_name ∈ seen_of ENG seen_world.
Proof.
  change (scenario_name ∈ ({[scenario_name]} ∪ ∅ : gset str)).
  apply elem_of_union_l. by apply elem_of_singleton.
Qed.

Lemma seen_name_never_fetched_again_witness :
  scenario_name
    ∈ seen_of ENG (run_cycles default_args [scenario_cycle] seen_world).1.2
  ∧ Forall (λ ev, ¬ fetches ENG scenario_name ev)
      (run_cycles default_args [scenario_cycle] seen_world).1.1.
Proof.
  exact (seen_name_never_fetched_again default_args ENG scenario_name
           [scenario_cycle] seen_world _ _ _ scenario_seen (triple_eta _)).
Defined.

(** ** Exceptions in the loop *)

(** The events of the [except] clauses: log lines and sleeps. *)
Definition handler_event (ev : event) : Prop :=
  match ev with
  | EvLog _ _ | EvSleep _ => True
  | _ => False
  end.

Section loop_exceptions.

Implicit Types (a : Args) (env : cycle_env) (w : world).

Lemma stream_step_other_seen a k (env : stream_env) w t w' r :
  stream_step a k env w = (t, w', r) →
  seen_of (other k) w' = seen_of (other k) w.
Proof.
  assert (Hsame : ∀ w1, same_vars w w1 →
    seen_of (other k) w1 = seen_of (other k) w).
  { intros w1 (?&?&?). by destruct k. }
  destruct (poll_result env) as [e0|text] eqn:Hp.
  { rewrite (stream_step_poll_raises _ _ _ _ _ Hp). by intros [= <- <- <-]. }
  destruct (poll_text_total text) as [[link|] Ht].
  2:{ rewrite (stream_step_malformed _ _ _ _ _ Hp Ht). by intros [= <- <- <-]. }
  destruct (safe_filename_spec link) as (name & Hn & _).
  rewrite (stream_step_resolved _ _ _ _ _ _ _ Hp Ht Hn).
  destruct (bool_decide (name ∈ seen_of k w)); [by intros [= <- <- <-]|].
  destruct (obtain_zip k env link name (zip_path_of a k name) w)
    as [[t1 w1] r1] eqn:Ho.
  destruct (obtain_zip_same_vars _ _ _ _ _ _ _ _ _ Ho) as [Hv1 _].
  destruct r1 as [e|[]]; try (intros [= <- <- <-]; by apply Hsame).
  destruct (extract_step a k env name (zip_path_of a k name) w1)
    as [[t2 w2] r2] eqn:Hx.
  destruct (extract_step_same_vars _ _ _ _ _ _ _ _ _ Hx) as [Hv2 _].
  assert (Hv : same_vars w w2) by by etrans.
  destruct r2 as [e|[]]; intros [= <- <- <-]; [by apply Hsame|].
  rewrite <- (Hsame _ Hv). by destruct k.
Qed.

Lemma run_cycles_cons a env rest w :
  run_cycles a (env :: rest) w =
  match cycle a env (with_fs (external env (w_fs w)) w) with
  | (t, w1, inl e) => (t, w1, inl e)
  | (t, w1, inr _) =>
      match run_cycles a rest w1 with
      | (t', w', r) => (t ++ t', w', r)
      end
  end.
Proof.
  simpl. repeat (rewrite bind_run; simpl).
  destruct (cycle a env (with_fs (external env (w_fs w)) w))
    as [[t w1] [e|[]]]; [done|].
  by destruct (run_cycles a rest w1) as [[t' w'] r].
Qed.

Lemma handler_events a env e (I : world → Prop) :
  (∀ b w, I w → I (with_backoff b w)) →
  holds I handler_event (cycle_handler a env e).
Proof. intros Hb. by apply holds_handler. Qed.

End loop_exceptions.

(** X11. The two streams are polled inside one [try] block: when the step
    of the English stream raises, the iteration goes to the [except]
    clauses. The translation pointer is not requested in that iteration,
    the seen set of the translation stream is unchanged, and what the
    iteration adds to the trace of the English step are log lines and
    sleeps only. *)
Theorem english_failure_skips_translation a env w t1 w1 e t w' r :
  stream_step a ENG (eng_env env) w = (t1, w1, inl e) →
  cycle a env w = (t, w', r) →
  seen_of TRANS w' = seen_of TRANS w
  ∧ (EvGet (pointer_url TRANS) false ∉ t)
  ∧ ∃ th, t = t1 ++ th ∧ Forall handler_event th.
Proof.
  intros Hstep.
  pose proof (stream_step_other_seen _ _ _ _ _ _ _ Hstep) as Hseen.
  simpl in Hseen.
  assert (Ht1 : EvGet (pointer_url TRANS) false ∉ t1).
  { intros Hin.
    pose proof (stream_step_events _ _ _ _ _ _ _ Hstep) as Hev.
    eapply Forall_forall in Hev; [|exact Hin].
    destruct Hev as [?|[?|[?|[?|[?|[?|[[??]|[[??]|(?&_&[?|[?|[??]]])]]]]]]]];
      done. }
  assert (Hth : ∀ th, Forall handler_event th →
    EvGet (pointer_url TRANS) false ∉ t1 ++ th).
  { intros th Hev Hin. apply elem_of_app in Hin as [Hin|Hin]; [done|].
    eapply Forall_forall in Hev; [|exact Hin]. done. }
  rewrite cycle_run. unfold cycle_body. rewrite bind_run, Hstep.
  destruct (is_retryable e || bool_decide (e = KeyboardInterrupt)
            || is_Exception e).
  - destruct (cycle_handler a env e w1) as [[th wh] rh] eqn:Hh.
    intros [= <- <- <-].
    destruct (handler_events a env e
                (λ w0, seen_of TRANS w0 = seen_of TRANS w)
                (λ b w0 H, H) _ _ _ _ Hseen Hh) as [HI Hev].
    split; [done|]. split; [by apply Hth|]. by exists th.
  - intros [= <- <- <-]. split; [done|]. split; [done|].
    exists []. by rewrite app_nil_r.
Qed.

Lemma failing_cycle_step :
  stream_step default_args ENG (eng_env (failing_cycle RequestException))
    (init_world default_args ∅)
  = (polled default_args ENG, init_world default_args ∅,
     inl RequestException).
Proof. by apply stream_step_poll_raises. Qed.

Lemma english_failure_skips_translation_witness :
  seen_of TRANS
    (cycle default_args (failing_cycle RequestException)
       (init_world default_args ∅)).1.2
  = seen_of TRANS (init_world default_args ∅)
  ∧ (EvGet (pointer_url TRANS) false
       ∉ (cycle default_args (failing_cycle RequestException)
            (init_world default_args ∅)).1.1)
  ∧ ∃ th, (cycle default_args (failing_cycle RequestException)
             (init_world default_args ∅)).1.1
          = polled default_args ENG ++ th ∧ Forall handler_event th.
Proof.
  exact (english_failure_skips_translation default_args
           (failing_cycle RequestException) (init_world default_args ∅)
           _ _ _ _ _ _ failing_cycle_step (triple_eta _)).
Defined.

(** X12. A [KeyboardInterrupt] that leaves the [try] block is caught by the
    second [except] clause: "Interrupted" is logged and [sys.exit(0)] ends
    the run with status 0, whatever the configuration; no later iteration
    runs and nothing is slept. *)
Theorem interrupt_exits_with_status_zero a env rest w t w1 :
  cycle_body a env (with_fs (external env (w_fs w)) w)
  = (t, w1, inl KeyboardInterrupt) →
  run_cycles a (env :: rest) w
  = (t ++ [EvLog INFO LogInterrupted], w1, inl (SystemExit 0))
  ∧ exit_status (SystemExit 0) = 0.
Proof.
  intros Hbody. split; [|done].
  rewrite run_cycles_cons, cycle_run, Hbody. simpl.
  unfold cycle_handler. simpl. by rewrite ?bind_run.
Qed.

(** An iteration in which both pointers are malformed and the interrupt
    arrives during the sleep between polls. *)
Definition ctrl_c_cycle : cycle_env :=
  {| eng_env := malformed_env; trans_env := malformed_env;
     sleep_interrupted := true; handler_sleep_interrupted := false;
     external := id |}.

Lemma ctrl_c_body_raises :
  (cycle_body default_args ctrl_c_cycle
     (with_fs (external ctrl_c_cycle (w_fs (init_world default_args ∅)))
        (init_world default_args ∅))).2
  = inl KeyboardInterrupt.
Proof. by vm_compute. Qed.

Lemma ctrl_c_body :
  cycle_body default_args ctrl_c_cycle
    (with_fs (external ctrl_c_cycle (w_fs (init_world default_args ∅)))
       (init_world default_args ∅))
  = ((cycle_body default_args ctrl_c_cycle
        (with_fs (external ctrl_c_cycle (w_fs (init_world default_args ∅)))
           (init_world default_args ∅))).1.1,
     (cycle_body default_args ctrl_c_cycle
        (with_fs (external ctrl_c_cycle (w_fs (init_world default_args ∅)))
           (init_world default_args ∅))).1.2,
     inl KeyboardInterrupt).
Proof. rewrite <- ctrl_c_body_raises. apply triple_eta. Qed.

Lemma interrupt_exits_with_status_zero_witness :
  (run_cycles default_args [ctrl_c_cycle; scenario_cycle]
     (init_world default_args ∅)).2
  = inl (SystemExit 0).
Proof.
  exact (f_equal snd
           (proj1 (interrupt_exits_with_status_zero default_args ctrl_c_cycle
                     [scenario_cycle] (init_world default_args ∅) _ _
                     ctrl_c_body))).
Defined.

(** X13. The [except KeyboardInterrupt] clause guards the [try] block only.
    An interrupt that arrives during the sleep of the first or of the third
    [except] clause (a sleep that started: the interval is a length
    [time.sleep] takes) is not caught: the iteration ends with
    [KeyboardInterrupt] itself after the log line of that clause, without
    the "Interrupted" line, and the interval has not been changed. *)
Theorem interrupt_during_backoff_uncaught a env w t w1 e :
  cycle_body a env w = (t, w1, inl e) →
  is_retryable e = true ∨ (is_Exception e = true ∧ ignore_malformed a = true) →
  0 ≤ backoff w ≤ SLEEP_MAX →
  handler_sleep_interrupted env = true →
  cycle a env w
  = (t ++ [EvLog (if is_retryable e then WARNING else ERROR)
             (if is_retryable e then LogBackingOff e (backoff w)
              else LogUnhandled e);
           EvSleep (backoff w)],
     w1, inl KeyboardInterrupt)
  ∧ backoff w1 = backoff w.
Proof.
  intros Hbody Hcase Hb Hi.
  pose proof (cycle_body_raises _ _ _ _ _ _ Hbody) as Hb1.
  split; [|done]. rewrite cycle_run, Hbody.
  assert (Hrange : 0 ≤ backoff w1 ≤ SLEEP_MAX) by lia.
  destruct (is_retryable e) eqn:Hr.
  - simpl. unfold cycle_handler. rewrite Hr.
    repeat (rewrite bind_run; simpl). rewrite sleep_in_range, Hi by done.
    by rewrite Hb1.
  - destruct Hcase as [|[He Hm]]; [done|].
    assert (Hk : e ≠ KeyboardInterrupt) by (by intros ->).
    rewrite He, orb_true_r.
    rewrite cycle_handler_unhandled by done.
    rewrite Hm, sleep_in_range, Hi by done. by rewrite Hb1.
Qed.

(** A failing poll whose back-off sleep is interrupted. *)
Definition interrupted_backoff_cycle : cycle_env :=
  {| eng_env := {| poll_result := inl RequestException;
                   exists_error := None;
                   download_result := GetRaises RequestException;
                   archive_members := [];
                   archive_error := None |};
     trans_env := malformed_env;
     sleep_interrupted := false; handler_sleep_interrupted := true;
     external := id |}.

Lemma interrupted_backoff_body :
  cycle_body default_args interrupted_backoff_cycle (init_world default_args ∅)
  = (polled default_args ENG, init_world default_args ∅,
     inl RequestException).
Proof.
  unfold cycle_body. rewrite bind_run.
  by rewrite (stream_step_poll_raises _ _ _ _ RequestException).
Qed.

Lemma interrupt_during_backoff_uncaught_witness :
  cycle default_args interrupted_backoff_cycle (init_world default_args ∅)
  = (polled default_args ENG
       ++ [EvLog WARNING (LogBackingOff RequestException 120); EvSleep 120],
     init_world default_args ∅, inl KeyboardInterrupt)
  ∧ backoff (init_world default_args ∅) = 120.
Proof.
  apply (interrupt_during_backoff_uncaught default_args
           interrupted_backoff_cycle (init_world default_args ∅) _ _
           RequestException interrupted_backoff_body).
  - by left.
  - by vm_compute.
  - reflexivity.
Defined.

(** ** The interval *)

Section interval_facts.

Implicit Types (a : Args) (env : cycle_env) (w : world) (b : Z) (n : nat).


Lemma handler_sleeps_nothing a env e w t w' r :
  backoff w < 0 ∨ SLEEP_MAX < backoff w →
  cycle_handler a env e w = (t, w', r) →
  sleeps t = [] ∧ ∃ e', r = inl e'.
Proof.
  intros Hb.
  unfold cycle_handler. destruct (is_retryable e).
  { repeat (rewrite bind_run; simpl). rewrite sleep_out_of_range by done.
    intros [= <- <- <-]. eauto. }
  destruct (bool_decide (e = KeyboardInterrupt)).
  { repeat (rewrite bind_run; simpl). intros [= <- <- <-]. eauto. }
  destruct (ignore_malformed a); repeat (rewrite bind_run; simpl).
  - rewrite sleep_out_of_range by done. intros [= <- <- <-]. eauto.
  - intros [= <- <- <-]. eauto.
Qed.

End interval_facts.

(** X14. Nothing checks [--interval]. With an interval [time.sleep]
    refuses, one that is negative or above 9223372036, [time.sleep] raises
    in the [try] block and in the [except] clauses ([ValueError] for a
    negative interval down to -9223372036, [OverflowError] otherwise): the
    run ends in its first iteration with an exception and without having
    slept. When both steps complete, the exception of the sleep is logged
    by the last clause, and the run ends with status 1, or, with
    [ignore_malformed], with the exception of the second sleep. *)
Theorem negative_interval_ends_run a fs env rest t w' r :
  interval a < 0 ∨ SLEEP_MAX < interval a →
  run a fs (env :: rest) = (t, w', r) →
  sleeps t = [] ∧ (∃ e, r = inl e)
  ∧ (∀ t1 w1 t2 w2,
       stream_step a ENG (eng_env env)
         (with_fs (external env fs) (init_world a fs)) = (t1, w1, inr tt) →
       stream_step a TRANS (trans_env env) w1 = (t2, w2, inr tt) →
       t = t1 ++ t2
           ++ [EvLog ERROR (LogUnhandled (sleep_refusal (interval a)))]
       ∧ r = inl (if ignore_malformed a then sleep_refusal (interval a)
                  else SystemExit 1))
  ∧ (- SLEEP_MAX ≤ interval a < 0 → sleep_refusal (interval a) = ValueError)
  ∧ (interval a < - SLEEP_MAX ∨ SLEEP_MAX < interval a →
     sleep_refusal (interval a) = OverflowError).
Proof.
  intros Hneg.
  assert (Hkind : (- SLEEP_MAX ≤ interval a < 0 →
                   sleep_refusal (interval a) = ValueError)
    ∧ (interval a < - SLEEP_MAX ∨ SLEEP_MAX < interval a →
       sleep_refusal (interval a) = OverflowError)).
  { unfold sleep_refusal. split; intros H.
    - assert ((interval a <? - SLEEP_MAX) = false) as -> by lia.
      assert ((SLEEP_MAX <? interval a) = false) as ->
        by (unfold SLEEP_MAX in *; lia). done.
    - destruct H.
      + by assert ((interval a <? - SLEEP_MAX) = true) as -> by lia.
      + assert ((SLEEP_MAX <? interval a) = true) as -> by lia.
        by rewrite orb_true_r. }
  intros Hrun.
  cut (sleeps t = [] ∧ (∃ e, r = inl e)
       ∧ (∀ t1 w1 t2 w2,
            stream_step a ENG (eng_env env)
              (with_fs (external env fs) (init_world a fs))
            = (t1, w1, inr tt) →
            stream_step a TRANS (trans_env env) w1 = (t2, w2, inr tt) →
            t = t1 ++ t2
                ++ [EvLog ERROR (LogUnhandled (sleep_refusal (interval a)))]
            ∧ r = inl (if ignore_malformed a then sleep_refusal (interval a)
                       else SystemExit 1))).
  { intros (H1 & H2 & H3). destruct Hkind. by split_and!. }
  revert Hrun. clear Hkind.
  unfold run. rewrite run_cycles_cons.
  change (w_fs (init_world a fs)) with fs.
  set (w0 := with_fs (external env fs) (init_world a fs)).
  rewrite cycle_run.
  destruct (cycle_body a env w0) as [[tb wb] rb] eqn:Hbody.
  destruct rb as [e|[]].
  2:{ destruct (cycle_body_returns _ _ _ _ _ Hbody) as (_ & ? & _). lia. }
  pose proof (cycle_body_raises _ _ _ _ _ _ Hbody) as Hb.
  assert (Hb0 : backoff wb < 0 ∨ SLEEP_MAX < backoff wb)
    by (rewrite Hb; simpl; lia).
  assert (Htb : sleeps tb = []
    ∧ ∀ t1 w1 t2 w2,
        stream_step a ENG (eng_env env) w0 = (t1, w1, inr tt) →
        stream_step a TRANS (trans_env env) w1 = (t2, w2, inr tt) →
        tb = t1 ++ t2 ∧ wb = w2 ∧ e = sleep_refusal (interval a)).
  { revert Hbody. unfold cycle_body. rewrite bind_run.
    destruct (stream_step a ENG (eng_env env) w0) as [[t1 w1] r1] eqn:E1.
    pose proof (stream_step_no_sleep _ _ _ _ _ _ _ E1) as Hs1.
    destruct r1 as [e1|[]]; [by intros [= <- <- <-]|].
    rewrite bind_run.
    destruct (stream_step a TRANS (trans_env env) w1) as [[t2 w2] r2] eqn:E2.
    pose proof (stream_step_no_sleep _ _ _ _ _ _ _ E2) as Hs2.
    destruct r2 as [e2|[]].
    { intros [= <- <- <-]. split; [by rewrite sleeps_app, Hs1, Hs2|].
      intros ???? [= <- <-]. rewrite E2. done. }
    rewrite bind_run, sleep_out_of_range by done. intros [= <- <- <-].
    split; [by rewrite app_nil_r, sleeps_app, Hs1, Hs2|].
    intros ???? [= <- <-]. rewrite E2. intros [= <- <-].
    by rewrite app_nil_r. }
  destruct Htb as [Htb Hboth].
  destruct (is_retryable e || bool_decide (e = KeyboardInterrupt)
            || is_Exception e) eqn:Hc.
  - destruct (cycle_handler a env e wb) as [[th wh] rh] eqn:Hh.
    destruct (handler_sleeps_nothing _ _ _ _ _ _ _ Hb0 Hh) as [Hsh [e' ->]].
    intros [= <- <- <-]. split; [by rewrite sleeps_app, Htb, Hsh|].
    split; [eauto|]. intros t1 w1 t2 w2 H1 H2.
    destruct (Hboth _ _ _ _ H1 H2) as (-> & -> & ->).
    destruct (sleep_refusal_class (interval a)) as (Hex1 & Hex2 & _).
    revert Hh. rewrite cycle_handler_unhandled by done.
    rewrite sleep_out_of_range by done.
    replace (sleep_refusal (backoff w2)) with (sleep_refusal (interval a))
      by (by rewrite Hb).
    rewrite <- app_assoc.
    by destruct (ignore_malformed a); intros [= <- <- <-].
  - intros [= <- <- <-]. split; [done|]. split; [eauto|].
    intros t1 w1 t2 w2 H1 H2.
    destruct (Hboth _ _ _ _ H1 H2) as (_ & _ & ->).
    destruct (sleep_refusal_class (interval a)) as (_ & _ & Hex3).
    by rewrite Hex3, orb_true_r in Hc.
Qed.

(** The defaults with [--interval -5]. *)
Definition negative_args : Args :=
  {| output := lit "data";
     interval := -5;
     skip_extract := false;
     raw_subdir_eng := lit "rawdata_en";
     raw_subdir_trans := lit "rawdata_tr";
     csv_subdir_eng := lit "csv_en";
     csv_subdir_trans := lit "csv_tr";
     retries := 3;
     verbose := false;
     ignore_malformed := false |}.

Lemma negative_interval_ends_run_witness :
  sleeps (run negative_args ∅ [malformed_cycle; malformed_cycle]).1.1 = []
  ∧ ∃ e, (run negative_args ∅ [malformed_cycle; malformed_cycle]).2 = inl e.
Proof.
  destruct (negative_interval_ends_run negative_args ∅ malformed_cycle
              [malformed_cycle] _ _ _ (or_introl eq_refl) (triple_eta _))
    as (Hs & He & _).
  exact (conj Hs He).
Defined.




(** ** The [--verbose] flag *)

Definition is_debug (ev : event) : bool :=
  match ev with EvLog DEBUG _ => true | _ => false end.

(** The trace as the log shows it at level INFO. *)
Definition without_debug (t : list event) : list event :=
  filter (λ ev, is_debug ev = false) t.

(** The arguments with [verbose] set to [b]. *)
Definition set_verbose (b : bool) (a : Args) : Args :=
  {| output := output a;
     interval := interval a;
     skip_extract := skip_extract a;
     raw_subdir_eng := raw_subdir_eng a;
     raw_subdir_trans := raw_subdir_trans a;
     csv_subdir_eng := csv_subdir_eng a;
     csv_subdir_trans := csv_subdir_trans a;
     retries := retries a;
     verbose := b;
     ignore_malformed := ignore_malformed a |}.

(** Two statements that, from every state, end in the same state with the
    same result, and whose traces differ in DEBUG lines only. *)
Definition same_but_debug {A} (m1 m2 : M A) : Prop :=
  ∀ w, without_debug (m1 w).1.1 = without_debug (m2 w).1.1
       ∧ (m1 w).1.2 = (m2 w).1.2 ∧ (m1 w).2 = (m2 w).2.

Section verbosity.

Implicit Types (a : Args) (k : kind) (w : world).

Lemma without_debug_app t1 t2 :
  without_debug (t1 ++ t2) = without_debug t1 ++ without_debug t2.
Proof. apply filter_app. Qed.

Lemma same_but_debug_refl {A} (m : M A) : same_but_debug m m.
Proof. by intros w. Qed.

Lemma same_but_debug_bind {A B} (m1 m2 : M A) (f1 f2 : A → M B) :
  same_but_debug m1 m2 → (∀ x, same_but_debug (f1 x) (f2 x)) →
  same_but_debug (m1 ≫= f1) (m2 ≫= f2).
Proof.
  intros Hm Hf w. rewrite !bind_run. specialize (Hm w).
  destruct (m1 w) as [[t1 w1] r1], (m2 w) as [[t2 w2] r2].
  simpl in Hm. destruct Hm as (Ht & -> & ->).
  destruct r2 as [e|x]; [done|].
  specialize (Hf x w2).
  destruct (f1 x w2) as [[t1' w1'] r1'], (f2 x w2) as [[t2' w2'] r2'].
  simpl in *. destruct Hf as (Ht' & -> & ->).
  by rewrite !without_debug_app, Ht, Ht'.
Qed.

Lemma same_but_debug_try {A} (m1 m2 : M A) c h :
  same_but_debug m1 m2 →
  same_but_debug (try_except m1 c h) (try_except m2 c h).
Proof.
  intros Hm w. unfold try_except. specialize (Hm w).
  destruct (m1 w) as [[t1 w1] r1], (m2 w) as [[t2 w2] r2].
  simpl in Hm. destruct Hm as (Ht & -> & ->).
  destruct r2 as [e|x]; [|done].
  destruct (c e); [|done].
  destruct (h e w2) as [[t' w'] r']. simpl.
  by rewrite !without_debug_app, Ht.
Qed.

Lemma stream_step_verbose a b k env :
  same_but_debug (stream_step (set_verbose b a) k env) (stream_step a k env).
Proof.
  unfold stream_step. apply same_but_debug_bind.
  - intros w. simpl. by destruct b, (verbose a).
  - intros _. apply same_but_debug_refl.
Qed.

Lemma cycle_verbose a b env :
  same_but_debug (cycle (set_verbose b a) env) (cycle a env).
Proof.
  unfold cycle. apply same_but_debug_try. unfold cycle_body.
  apply same_but_debug_bind; [apply stream_step_verbose|]. intros _.
  apply same_but_debug_bind; [apply stream_step_verbose|]. intros _.
  apply same_but_debug_refl.
Qed.

End verbosity.

(** X16. [--verbose] changes the log and nothing else: with the flag set
    either way, a run over the same iterations ends in the same state with
    the same result, and the two traces are equal once the DEBUG lines are
    removed. *)
Theorem verbose_changes_debug_lines_only a b envs w :
  without_debug (run_cycles (set_verbose b a) envs w).1.1
  = without_debug (run_cycles a envs w).1.1
  ∧ (run_cycles (set_verbose b a) envs w).1.2 = (run_cycles a envs w).1.2
  ∧ (run_cycles (set_verbose b a) envs w).2 = (run_cycles a envs w).2.
Proof.
  revert w.
  change (same_but_debug (run_cycles (set_verbose b a) envs)
            (run_cycles a envs)).
  induction envs as [|env envs IH]; [apply same_but_debug_refl|].
  simpl. apply same_but_debug_bind; [apply same_but_debug_refl|]. intros _.
  apply same_but_debug_bind; [apply cycle_verbose|]. intros _. exact IH.
Qed.

(** ** How a run ends *)

Section run_ends.

Implicit Types (a : Args) (env : cycle_env) (w : world).


End run_ends.



